(** * Weaviate: REST kind handlers and the shard batch coordinator

    A shallow embedding of

    - [adapters/handlers/rest/handlers_kinds.go]: the REST handlers for
      things and actions, their mapping of manager errors to responders,
      and [parseIncludeParam];
    - the [db] package file holding [putObjectBatch],
      [addReferencesBatch] and [mergeDocFromBatchReference].

    Go values are modelled as follows.  An [error] is an inductive type
    whose constructors are the concrete error types the handlers switch
    on.  A function returning [(T, error)] returns [result T]; a function
    returning only [error] returns [option error].  Go maps are [gmap]s.
    Calls into collaborators (bolt, the object store helpers, the vector
    index) are threaded through an explicit state and logged in a trace of
    events, so that statements about which calls happen can be made. *)

From Stdlib Require Import ZArith Ascii String List.
From stdpp Require Import base option list gmap strings pretty.

Local Open Scope string_scope.

(** ** Errors *)

(** The concrete error types that reach the code under study.
    [errors_Forbidden] is [usecases/auth/authorization/errors.Forbidden];
    [kinds_ErrInvalidUserInput] and [kinds_ErrNotFound] are the two
    [usecases/kinds] error types the handlers name; [errorString] stands
    for the value built by [fmt.Errorf] / [errors.New] and for any other
    error type; [withMessage cause msg] is [errors.Wrap(cause, msg)] of
    [github.com/pkg/errors]. *)
Inductive error : Type :=
| errors_Forbidden (msg : string)
| kinds_ErrInvalidUserInput (msg : string)
| kinds_ErrNotFound (msg : string)
| errorString (msg : string)
| withMessage (cause : error) (msg : string).

Definition errors_Wrap (err : error) (msg : string) : error :=
  withMessage err msg.

Inductive result (A : Type) : Type :=
| Ok (a : A)
| Err (e : error).
Arguments Ok {A} a.
Arguments Err {A} e.

(** [context.Context], reduced to what a callee could observe of it:
    whether its [Done] channel is closed. *)
Record Context : Type := { ctx_done : bool }.

Definition context_Background : Context := {| ctx_done := false |}.

(** ** [strings.Split] with a one character separator *)

Fixpoint strings_Split (s : string) (sep : ascii) : list string :=
  match s with
  | EmptyString => [EmptyString]
  | String c rest =>
      if Ascii.eqb c sep then EmptyString :: strings_Split rest sep
      else match strings_Split rest sep with
           | [] => [String c EmptyString]
           | part :: parts => String c part :: parts
           end
  end.

(** ** [traverser.UnderscoreProperties] and [parseIncludeParam] *)

Inductive projector_Params : Type := projector_Params_zero.

Record UnderscoreProperties : Type := {
  Classification : bool;
  RefMeta : bool;
  Vector : bool;
  NearestNeighbors : bool;
  FeatureProjection : option projector_Params;
  Interpretation : bool
}.

Definition UnderscoreProperties_zero : UnderscoreProperties :=
  {| Classification := false; RefMeta := false; Vector := false;
     NearestNeighbors := false; FeatureProjection := None;
     Interpretation := false |}.

Definition set_Classification (b : bool) (u : UnderscoreProperties) :=
  {| Classification := b; RefMeta := RefMeta u; Vector := Vector u;
     NearestNeighbors := NearestNeighbors u;
     FeatureProjection := FeatureProjection u;
     Interpretation := Interpretation u |}.

Definition set_RefMeta (b : bool) (u : UnderscoreProperties) :=
  {| Classification := Classification u; RefMeta := b; Vector := Vector u;
     NearestNeighbors := NearestNeighbors u;
     FeatureProjection := FeatureProjection u;
     Interpretation := Interpretation u |}.

Definition set_Vector (b : bool) (u : UnderscoreProperties) :=
  {| Classification := Classification u; RefMeta := RefMeta u; Vector := b;
     NearestNeighbors := NearestNeighbors u;
     FeatureProjection := FeatureProjection u;
     Interpretation := Interpretation u |}.

Definition set_NearestNeighbors (b : bool) (u : UnderscoreProperties) :=
  {| Classification := Classification u; RefMeta := RefMeta u;
     Vector := Vector u; NearestNeighbors := b;
     FeatureProjection := FeatureProjection u;
     Interpretation := Interpretation u |}.

Definition set_FeatureProjection (p : option projector_Params)
    (u : UnderscoreProperties) :=
  {| Classification := Classification u; RefMeta := RefMeta u;
     Vector := Vector u; NearestNeighbors := NearestNeighbors u;
     FeatureProjection := p; Interpretation := Interpretation u |}.

Definition set_Interpretation (b : bool) (u : UnderscoreProperties) :=
  {| Classification := Classification u; RefMeta := RefMeta u;
     Vector := Vector u; NearestNeighbors := NearestNeighbors u;
     FeatureProjection := FeatureProjection u; Interpretation := b |}.

(** A [case "a", "b", ...:] label of a string switch. *)
Definition case_of (prop : string) (labels : list string) : bool :=
  existsb (String.eqb prop) labels.

Definition classification_labels : list string :=
  ["_classification"; "classification"].
Definition interpretation_labels : list string :=
  ["_interpretation"; "interpretation"].
Definition nearestNeighbors_labels : list string :=
  ["_nearestNeighbors"; "nearestNeighbors"; "nearestneighbors";
   "_nearestneighbors"; "nearest-neighbors"; "nearest_neighbors";
   "_nearest_neighbors"].
Definition featureProjection_labels : list string :=
  ["_featureProjection"; "featureProjection"; "featureprojection";
   "_featureprojection"; "feature-projection"; "feature_projection";
   "_feature_projection"].
Definition vector_labels : list string := ["_vector"; "vector"].

Definition unrecognized (prop : string) : error :=
  errorString ("unrecognized property '" ++ prop ++ "' in ?include list").

(** The [for _, prop := range parts] loop with its switch. *)
Fixpoint parseIncludeParts (parts : list string) (out : UnderscoreProperties)
  : UnderscoreProperties * option error :=
  match parts with
  | [] => (out, None)
  | prop :: parts' =>
      if case_of prop classification_labels then
        parseIncludeParts parts' (set_RefMeta true (set_Classification true out))
      else if case_of prop interpretation_labels then
        parseIncludeParts parts' (set_Interpretation true out)
      else if case_of prop nearestNeighbors_labels then
        parseIncludeParts parts' (set_NearestNeighbors true out)
      else if case_of prop featureProjection_labels then
        parseIncludeParts parts'
          (set_FeatureProjection (Some projector_Params_zero) out)
      else if case_of prop vector_labels then
        parseIncludeParts parts' (set_Vector true out)
      else (out, Some (unrecognized prop))
  end.

Definition parseIncludeParam (inp : option string)
  : UnderscoreProperties * option error :=
  let out := UnderscoreProperties_zero in
  match inp with
  | None => (out, None)
  | Some s => parseIncludeParts (strings_Split s ",") out
  end.

Definition derefBool (inp : option bool) : bool :=
  match inp with
  | None => false
  | Some b => b
  end.

(** ** Models used by the handlers *)

Record Principal : Type := { Username : string }.

Record SingleRef : Type := { Beacon : string; Href : string }.

(** A value stored in a schema map: either a [models.MultipleRef] or
    anything else (left opaque, the handlers never look into it). *)
Inductive PropertyValue : Type :=
| MultipleRef (refs : list SingleRef)
| OtherValue (tag : string).

(** The [Schema interface{}] field: a [map[string]interface{}] (possibly
    the nil map) or a value of another dynamic type. *)
Inductive SchemaValue : Type :=
| SchemaMap (m : gmap string PropertyValue)
| SchemaNilMap
| SchemaOther.

Record Thing : Type := {
  thing_ID : string; thing_Class : string; thing_Schema : SchemaValue }.

Record Action : Type := {
  action_ID : string; action_Class : string; action_Schema : SchemaValue }.

Record crossref_Ref : Type := { Kind_Name : string; TargetID : string }.

Record Deprecation : Type := { deprecation_ID : string }.

Record ThingsListResponse : Type := {
  tl_Things : list Thing;
  tl_TotalResults : Z;
  tl_Deprecations : list Deprecation }.

Record ActionsListResponse : Type := {
  al_Actions : list Action;
  al_Deprecations : list Deprecation;
  al_TotalResults : Z }.

(** ** Responders

    The go-swagger responder constructors ([things.NewThingsCreateOK],
    [actions.NewActionsGetNotFound], ...) are named after an operation and
    an HTTP status; a responder is modelled by that pair and its payload. *)
Inductive Operation : Type :=
| ThingsCreate | ThingsValidate | ThingsGet | ThingsList | ThingsUpdate
| ThingsDelete | ThingsPatch | ThingsReferencesCreate
| ThingsReferencesUpdate | ThingsReferencesDelete
| ActionsCreate | ActionsValidate | ActionsGet | ActionsList | ActionsUpdate
| ActionsDelete | ActionsPatch | ActionsReferencesCreate
| ActionsReferencesUpdate | ActionsReferencesDelete.

Inductive Status : Type :=
| StatusOK | StatusNoContent | StatusBadRequest | StatusForbidden
| StatusNotFound | StatusUnprocessableEntity | StatusInternalServerError.

Inductive Payload : Type :=
| NoPayload
| ErrorPayload (err : error)
| ThingPayload (t : Thing)
| ActionPayload (a : Action)
| ThingsListPayload (r : ThingsListResponse)
| ActionsListPayload (r : ActionsListResponse).

Record Responder : Type := {
  resp_op : Operation; resp_status : Status; resp_payload : Payload }.

Definition respond (op : Operation) (st : Status) (p : Payload) : Responder :=
  {| resp_op := op; resp_status := st; resp_payload := p |}.

(** Modelled from the spec: the generated responders are not among the
    sources; each writes the HTTP status code its name says. *)
Definition status_code (st : Status) : Z :=
  match st with
  | StatusOK => 200
  | StatusNoContent => 204
  | StatusBadRequest => 400
  | StatusForbidden => 403
  | StatusNotFound => 404
  | StatusUnprocessableEntity => 422
  | StatusInternalServerError => 500
  end%Z.

(** [errPayloadFromSingleErr] lives in another file of the package; its
    payload is represented by the error it is built from. *)
Definition errPayloadFromSingleErr (err : error) : Payload := ErrorPayload err.

(** ** The [kindsManager] interface *)

Record kindsManager : Type := {
  AddThing : Context -> Principal -> Thing -> result Thing;
  AddAction : Context -> Principal -> Action -> result Action;
  ValidateThing : Context -> Principal -> Thing -> option error;
  ValidateAction : Context -> Principal -> Action -> option error;
  GetThing : Context -> Principal -> string -> UnderscoreProperties -> result Thing;
  GetAction : Context -> Principal -> string -> UnderscoreProperties -> result Action;
  GetThings : Context -> Principal -> option Z -> UnderscoreProperties -> result (list Thing);
  GetActions : Context -> Principal -> option Z -> UnderscoreProperties -> result (list Action);
  UpdateThing : Context -> Principal -> string -> Thing -> result Thing;
  UpdateAction : Context -> Principal -> string -> Action -> result Action;
  MergeThing : Context -> Principal -> string -> Thing -> option error;
  MergeAction : Context -> Principal -> string -> Action -> option error;
  DeleteThing : Context -> Principal -> string -> option error;
  DeleteAction : Context -> Principal -> string -> option error;
  AddThingReference : Context -> Principal -> string -> string -> SingleRef -> option error;
  AddActionReference : Context -> Principal -> string -> string -> SingleRef -> option error;
  UpdateThingReferences : Context -> Principal -> string -> string -> list SingleRef -> option error;
  UpdateActionReferences : Context -> Principal -> string -> string -> list SingleRef -> option error;
  DeleteThingReference : Context -> Principal -> string -> string -> SingleRef -> option error;
  DeleteActionReference : Context -> Principal -> string -> string -> SingleRef -> option error
}.

(** [kindHandlers]: the manager and the one configuration value the
    handlers read ([config.Origin]); the logger is left out. *)
Record kindHandlers : Type := {
  manager : kindsManager;
  config_Origin : string }.

(** ** Storage objects, batch references and merge documents

    [storobj.Object], [kinds.BatchReference] and [kinds.MergeDocument]
    are declared outside the files under study; they carry here the
    fields those files read or write.  A [float32] is kept as its bit
    pattern: the batch code only hands vectors on. *)

Definition float32 : Type := Z.

Record storobj_Object : Type := {
  Object_ID : string;
  Object_Vector : list float32 }.

Inductive kind_Kind : Type := kind_Thing | kind_Action.

Record crossref_RefSource : Type := {
  From_Kind : kind_Kind;
  From_Class : string;
  From_TargetID : string;
  From_Property : string }.

Record BatchReference : Type := {
  From : crossref_RefSource;
  To : string }.

Record MergeDocument : Type := {
  md_Kind : kind_Kind;
  md_Class : string;
  md_ID : string;
  md_UpdateTime : Z;
  md_References : list BatchReference }.

(** The status returned by [putObjectInTx]; [docID] is a [uint32]. *)
Record objectStatus : Type := { docID : Z }.

(** Calls that leave the shard code, in the order they are made. *)
Inductive event : Type :=
| EvBatch (first size : nat) (outcome : option error)
| EvPutObjectInTx (object : storobj_Object)
| EvMergeObjectInTx (doc : MergeDocument)
| EvVectorIndexAdd (index : nat) (id : Z) (vector : list float32)
    (outcome : option error).

(** ** What bolt does with a [Batch] call

    bolt is not among the sources.  [db.Batch(fn)] queues [fn] with the
    functions of the other callers, and bolt runs the queue in one
    read-write transaction.  When a function of the queue fails, that
    transaction is rolled back, the failing function is run again alone
    and the others are run again together: so [fn] may be run several
    times, every time but the last on a view of the database whose
    writes are thrown away ([batch_retried], one view per such run).
    Then the call is decided: bolt may fail to begin the transaction and
    return its own error without running [fn] in it ([batch_begin]);
    otherwise [fn] is run, its error, if any, aborts the transaction and
    is returned; and when [fn] returns nil the commit may still fail
    with an error of bolt ([batch_commit]), which is returned after the
    transaction has been rolled back. *)
Record bolt_batch (DB : Type) : Type := {
  batch_retried : list DB;
  batch_begin : option error;
  batch_commit : option error }.
Arguments batch_retried {DB} _.
Arguments batch_begin {DB} _.
Arguments batch_commit {DB} _.

(** The number of times bolt runs the function of the call. *)
Definition batch_runs {DB : Type} (b : bolt_batch DB) : nat :=
  length (batch_retried b)
  + match batch_begin b with Some _ => 0 | None => 1 end.

(** What [Batch] returns when the function returns [r] in the deciding
    transaction. *)
Definition batch_result {DB : Type} (b : bolt_batch DB) (r : option error)
  : option error :=
  match batch_begin b with
  | Some e => Some e
  | None =>
      match r with
      | Some err => Some err
      | None => batch_commit b
      end
  end.

(** ** An in-memory instance

    A small shard and manager on which the model can be run: the
    database is the table of stored objects, the vector index is the list
    of its entries and holds at most [mem_capacity] of them. *)

Definition mem_DB : Type := list (string * (Z * list float32)).
Definition mem_VectorIndex : Type := list (Z * list float32).

Definition mem_dimension : nat := 2.
Definition mem_capacity : nat := 3.

Definition mem_uuid_Parse (s : string) : result (list Z) :=
  if String.eqb s "" then Err (errorString "invalid UUID length: 0")
  else Ok ((fun a => Z.of_nat (nat_of_ascii a)) <$> list_ascii_of_string s).

Definition mem_uuid_MarshalBinary (u : list Z) : result (list Z) := Ok u.

Fixpoint mem_lookup (tx : mem_DB) (id : string) : option Z :=
  match tx with
  | [] => None
  | (k, (n, _)) :: tx' => if String.eqb k id then Some n else mem_lookup tx' id
  end.

Definition mem_putObjectInTx (tx : mem_DB) (object : storobj_Object)
    (idBytes : list Z) : mem_DB * result objectStatus :=
  if decide (length (Object_Vector object) = mem_dimension) then
    match mem_lookup tx (Object_ID object) with
    | Some n => (tx, Ok {| docID := n |})
    | None =>
        let n := Z.of_nat (S (length tx)) in
        ((tx ++ [(Object_ID object, (n, Object_Vector object))])%list,
         Ok {| docID := n |})
    end
  else (tx, Err (kinds_ErrInvalidUserInput "vector has the wrong dimension")).

Definition mem_mergeObjectInTx (tx : mem_DB) (doc : MergeDocument)
    (idBytes : list Z) : mem_DB * option error :=
  match mem_lookup tx (md_ID doc) with
  | Some _ => (tx, None)
  | None => (tx, Some (kinds_ErrNotFound "no object to merge into"))
  end.

Definition mem_vectorIndex_Add (index : mem_VectorIndex) (id : Z)
    (vector : list float32) : mem_VectorIndex * option error :=
  if decide (length index < mem_capacity) then
    ((index ++ [(id, vector)])%list, None)
  else (index, Some (errorString "vector index is full")).

Definition mem_time_Now_UnixNano (i : nat) : Z :=
  (1600000000000000000 + Z.of_nat i)%Z.

(** Four databases.  A healthy one: every [Batch] call runs its
    function once and commits what it wrote.  A closed one: no
    transaction can be begun ([bolt.ErrDatabaseNotOpen]).  One on which
    the function of the chunk starting at index 0 is first run in a
    transaction that is thrown away (on a view holding an object "Z" of
    another caller).  And a busy one, on which moreover the commit of
    the chunk starting at index 30 fails. *)
Definition mem_bolt (i : nat) : bolt_batch mem_DB :=
  {| batch_retried := []; batch_begin := None; batch_commit := None |}.

Definition mem_bolt_closed (i : nat) : bolt_batch mem_DB :=
  {| batch_retried := [];
     batch_begin := Some (errorString "database not open");
     batch_commit := None |}.

Definition mem_bolt_retrying (i : nat) : bolt_batch mem_DB :=
  {| batch_retried :=
       if decide (i = 0) then [[("Z", (1%Z, [0%Z; 1%Z]))]] else [];
     batch_begin := None;
     batch_commit := None |}.

Definition mem_bolt_busy (i : nat) : bolt_batch mem_DB :=
  {| batch_retried := batch_retried (mem_bolt_retrying i);
     batch_begin := None;
     batch_commit :=
       if decide (i = 30) then Some (errorString "commit failed") else None |}.

(** [n] objects with one-letter ids "A", "B", ...; the object at
    position [bad], if any, has a vector of the wrong dimension. *)
Definition mem_object (bad : nat) (i : nat) : storobj_Object :=
  {| Object_ID := String (ascii_of_nat (65 + i)) EmptyString;
     Object_Vector :=
       if decide (i = bad) then [Z.of_nat i] else [Z.of_nat i; 1%Z] |}.

Definition mem_objects (n bad : nat) : list storobj_Object :=
  mem_object bad <$> seq 0 n.

Definition mem_reference (i : nat) : BatchReference :=
  {| From := {| From_Kind := kind_Thing; From_Class := "City";
                From_TargetID := String (ascii_of_nat (65 + i)) EmptyString;
                From_Property := "inCountry" |};
     To := "weaviate://localhost/things/Z" |}.

Definition mem_thing (id : string) : Thing :=
  {| thing_ID := id; thing_Class := "City";
     thing_Schema :=
       SchemaMap
         {[ "inCountry" :=
              MultipleRef [ {| Beacon := "weaviate://localhost/things/Z";
                               Href := "" |} ] ]} |}.

Definition mem_action (id : string) : Action :=
  {| action_ID := id; action_Class := "Visit"; action_Schema := SchemaNilMap |}.

Definition mem_known (id : string) : bool :=
  case_of id ["A"; "B"].

Definition mem_missing (id : string) : option error :=
  if mem_known id then None else Some (kinds_ErrNotFound "no such object").

(** A manager over two stored things and two stored actions. *)
Definition mem_manager : kindsManager :=
  {| AddThing := fun _ _ t => Ok t;
     AddAction := fun _ _ a => Ok a;
     ValidateThing := fun _ _ _ => None;
     ValidateAction := fun _ _ _ => None;
     GetThing := fun _ _ id _ =>
       if mem_known id then Ok (mem_thing id)
       else Err (kinds_ErrNotFound "no such object");
     GetAction := fun _ _ id _ =>
       if mem_known id then Ok (mem_action id)
       else Err (kinds_ErrNotFound "no such object");
     GetThings := fun _ _ _ _ => Ok [mem_thing "A"; mem_thing "B"];
     GetActions := fun _ _ _ _ => Ok [mem_action "A"; mem_action "B"];
     UpdateThing := fun _ _ _ t => Ok t;
     UpdateAction := fun _ _ _ a => Ok a;
     MergeThing := fun _ _ id _ => mem_missing id;
     MergeAction := fun _ _ id _ => mem_missing id;
     DeleteThing := fun _ _ id => mem_missing id;
     DeleteAction := fun _ _ id => mem_missing id;
     AddThingReference := fun _ _ id _ _ => mem_missing id;
     AddActionReference := fun _ _ id _ _ => mem_missing id;
     UpdateThingReferences := fun _ _ id _ _ => mem_missing id;
     UpdateActionReferences := fun _ _ id _ _ => mem_missing id;
     DeleteThingReference := fun _ _ id _ _ =>
       if mem_known id then Some (kinds_ErrInvalidUserInput "no such reference")
       else Some (kinds_ErrNotFound "no such object");
     DeleteActionReference := fun _ _ id _ _ => mem_missing id |}.

Definition mem_handlers : kindHandlers :=
  {| manager := mem_manager; config_Origin := "http://localhost:8080" |}.

Definition mem_crossref_Parse (beacon : string) : result crossref_Ref :=
  if String.prefix "weaviate://localhost/things/" beacon then
    Ok {| Kind_Name := "thing";
          TargetID := String.substring 28 (String.length beacon - 28) beacon |}
  else Err (errorString "invalid beacon").

Definition mem_deprecations_ByID (id : string) : Deprecation :=
  {| deprecation_ID := id |}.

Definition mem_principal : Principal := {| Username := "jane" |}.

Definition mem_cancelled : Context := {| ctx_done := true |}.

(** ** Errors of the go-openapi validation

    An [*errors.Validation], a composite of errors, or another error.
    The [Validation] struct itself is a parameter. *)
#[warnings="-register-all"]
Inductive validation_error (Validation : Type) : Type :=
| errors_Validation (ve : Validation)
| errors_CompositeError (errs : list (validation_error Validation))
| other_validation_error (err : error).
Arguments errors_Validation {Validation} ve.
Arguments errors_CompositeError {Validation} errs.
Arguments other_validation_error {Validation} err.

(** ** Further instances

    A vector index without a capacity, a validation in which an action
    needs a class, and a contextionary that answers at the third
    request. *)

Definition mem_vectorIndex_Add_unbounded (index : mem_VectorIndex) (id : Z)
    (vector : list float32) : mem_VectorIndex * option error :=
  ((index ++ [(id, vector)])%list, None).

Definition mem_Validation : Type := string.

Definition mem_ValidateName (ve : mem_Validation) (name : string)
  : mem_Validation :=
  name ++ " " ++ ve.

Definition mem_Action_Validate (action : Action)
  : option (validation_error mem_Validation) :=
  if String.eqb (action_Class action) ""
  then Some (errors_Validation ("class is required" : mem_Validation))
  else None.

Definition mem_Deprecation_Validate (deprecation : Deprecation)
  : option (validation_error mem_Validation) := None.

Definition mem_contextionary_Version (attempt : nat) : result string :=
  if decide (attempt < 2) then Err (errorString "connection refused")
  else Ok "0.4.21".

Definition mem_extractVersionAndCompare (v minimum : string) : result bool :=
  if String.eqb v "" then Err (errorString "unexpected version format")
  else Ok (String.eqb v "0.4.21" || String.eqb v minimum).

Section Weaviate.

(** [crossref.Parse] and the [deprecations.ByID] table are not among the
    sources; they are parameters of the handlers. *)
Variable crossref_Parse : string -> result crossref_Ref.
Variable deprecations_ByID : string -> Deprecation.

Variable h : kindHandlers.

Definition extendReferenceWithAPILink (ref : SingleRef) : SingleRef :=
  match crossref_Parse (Beacon ref) with
  | Err _ => ref
  | Ok parsed =>
      {| Beacon := Beacon ref;
         Href := config_Origin h ++ "/v1/" ++ Kind_Name parsed ++ "s/"
                 ++ TargetID parsed |}
  end.

Definition extendReferencesWithAPILinks (refs : list SingleRef)
  : list SingleRef :=
  map extendReferenceWithAPILink refs.

Definition extendSchemaWithAPILinks (schema : gmap string PropertyValue)
  : gmap string PropertyValue :=
  (fun value =>
     match value with
     | MultipleRef asMultiRef =>
         MultipleRef (extendReferencesWithAPILinks asMultiRef)
     | OtherValue _ => value
     end) <$> schema.

(** [schemaMap, ok := x.Schema.(map[string]interface{}); if ok { x.Schema =
    h.extendSchemaWithAPILinks(schemaMap) }] *)
Definition extendSchemaValue (s : SchemaValue) : SchemaValue :=
  match s with
  | SchemaMap m => SchemaMap (extendSchemaWithAPILinks m)
  | SchemaNilMap => SchemaNilMap
  | SchemaOther => SchemaOther
  end.

Definition extendThing (thing : Thing) : Thing :=
  {| thing_ID := thing_ID thing; thing_Class := thing_Class thing;
     thing_Schema := extendSchemaValue (thing_Schema thing) |}.

Definition extendAction (action : Action) : Action :=
  {| action_ID := action_ID action; action_Class := action_Class action;
     action_Schema := extendSchemaValue (action_Schema action) |}.

Definition addThing (ctx : Context) (principal : Principal) (body : Thing)
  : Responder :=
  match AddThing (manager h) ctx principal body with
  | Err err =>
      match err with
      | errors_Forbidden _ =>
          respond ThingsCreate StatusForbidden (errPayloadFromSingleErr err)
      | kinds_ErrInvalidUserInput _ =>
          respond ThingsCreate StatusUnprocessableEntity (errPayloadFromSingleErr err)
      | _ =>
          respond ThingsCreate StatusInternalServerError (errPayloadFromSingleErr err)
      end
  | Ok thing => respond ThingsCreate StatusOK (ThingPayload (extendThing thing))
  end.

Definition validateThing (ctx : Context) (principal : Principal) (body : Thing)
  : Responder :=
  match ValidateThing (manager h) ctx principal body with
  | Some err =>
      match err with
      | errors_Forbidden _ =>
          respond ThingsValidate StatusForbidden (errPayloadFromSingleErr err)
      | kinds_ErrInvalidUserInput _ =>
          respond ThingsValidate StatusUnprocessableEntity (errPayloadFromSingleErr err)
      | _ =>
          respond ThingsValidate StatusInternalServerError (errPayloadFromSingleErr err)
      end
  | None => respond ThingsValidate StatusOK NoPayload
  end.

Definition addAction (ctx : Context) (principal : Principal) (body : Action)
  : Responder :=
  match AddAction (manager h) ctx principal body with
  | Err err =>
      match err with
      | errors_Forbidden _ =>
          respond ActionsCreate StatusForbidden (errPayloadFromSingleErr err)
      | kinds_ErrInvalidUserInput _ =>
          respond ActionsCreate StatusUnprocessableEntity (errPayloadFromSingleErr err)
      | _ =>
          respond ActionsCreate StatusInternalServerError (errPayloadFromSingleErr err)
      end
  | Ok action => respond ActionsCreate StatusOK (ActionPayload (extendAction action))
  end.

Definition validateAction (ctx : Context) (principal : Principal)
    (body : Action) : Responder :=
  match ValidateAction (manager h) ctx principal body with
  | Some err =>
      match err with
      | errors_Forbidden _ =>
          respond ActionsValidate StatusForbidden (errPayloadFromSingleErr err)
      | kinds_ErrInvalidUserInput _ =>
          respond ActionsValidate StatusUnprocessableEntity (errPayloadFromSingleErr err)
      | _ =>
          respond ActionsValidate StatusInternalServerError (errPayloadFromSingleErr err)
      end
  | None => respond ActionsValidate StatusOK NoPayload
  end.

(** [if derefBool(params.Meta) { underscores.Classification = true; ... }] *)
Definition applyMeta (meta : option bool) (underscores : UnderscoreProperties)
  : UnderscoreProperties :=
  if derefBool meta then
    set_Vector true (set_RefMeta true (set_Classification true underscores))
  else underscores.

Definition getThing (ctx : Context) (principal : Principal) (id : string)
    (include : option string) (meta : option bool) : Responder :=
  match parseIncludeParam include with
  | (_, Some err) =>
      respond ThingsGet StatusBadRequest (errPayloadFromSingleErr err)
  | (underscores, None) =>
      match GetThing (manager h) ctx principal id (applyMeta meta underscores) with
      | Err err =>
          match err with
          | errors_Forbidden _ =>
              respond ThingsGet StatusForbidden (errPayloadFromSingleErr err)
          | kinds_ErrNotFound _ => respond ThingsGet StatusNotFound NoPayload
          | _ =>
              respond ThingsGet StatusInternalServerError (errPayloadFromSingleErr err)
          end
      | Ok thing => respond ThingsGet StatusOK (ThingPayload (extendThing thing))
      end
  end.

Definition getAction (ctx : Context) (principal : Principal) (id : string)
    (include : option string) (meta : option bool) : Responder :=
  match parseIncludeParam include with
  | (_, Some err) =>
      respond ActionsGet StatusBadRequest (errPayloadFromSingleErr err)
  | (underscores, None) =>
      match GetAction (manager h) ctx principal id (applyMeta meta underscores) with
      | Err err =>
          match err with
          | errors_Forbidden _ =>
              respond ActionsGet StatusForbidden (errPayloadFromSingleErr err)
          | kinds_ErrNotFound _ => respond ActionsGet StatusNotFound NoPayload
          | _ =>
              respond ActionsGet StatusInternalServerError (errPayloadFromSingleErr err)
          end
      | Ok action => respond ActionsGet StatusOK (ActionPayload (extendAction action))
      end
  end.

Definition metaDeprecations (meta : option bool) : list Deprecation :=
  if derefBool meta then [deprecations_ByID "rest-meta-prop"] else [].

Definition getThings (ctx : Context) (principal : Principal)
    (limit : option Z) (include : option string) (meta : option bool)
  : Responder :=
  match parseIncludeParam include with
  | (_, Some err) =>
      respond ThingsList StatusBadRequest (errPayloadFromSingleErr err)
  | (underscores, None) =>
      let deprecationsRes := metaDeprecations meta in
      match GetThings (manager h) ctx principal limit (applyMeta meta underscores) with
      | Err err =>
          match err with
          | errors_Forbidden _ =>
              respond ThingsList StatusForbidden (errPayloadFromSingleErr err)
          | _ =>
              respond ThingsList StatusInternalServerError (errPayloadFromSingleErr err)
          end
      | Ok list0 =>
          let list1 := map extendThing list0 in
          respond ThingsList StatusOK
            (ThingsListPayload
               {| tl_Things := list1;
                  tl_TotalResults := Z.of_nat (length list1);
                  tl_Deprecations := deprecationsRes |})
      end
  end.

Definition getActions (ctx : Context) (principal : Principal)
    (limit : option Z) (include : option string) (meta : option bool)
  : Responder :=
  match parseIncludeParam include with
  | (_, Some err) =>
      respond ActionsList StatusBadRequest (errPayloadFromSingleErr err)
  | (underscores, None) =>
      let deprecationsRes := metaDeprecations meta in
      match GetActions (manager h) ctx principal limit (applyMeta meta underscores) with
      | Err err =>
          match err with
          | errors_Forbidden _ =>
              respond ActionsList StatusForbidden (errPayloadFromSingleErr err)
          | _ =>
              respond ActionsList StatusInternalServerError (errPayloadFromSingleErr err)
          end
      | Ok list0 =>
          let list1 := map extendAction list0 in
          respond ActionsList StatusOK
            (ActionsListPayload
               {| al_Actions := list1;
                  al_Deprecations := deprecationsRes;
                  al_TotalResults := Z.of_nat (length list1) |})
      end
  end.

Definition updateThing (ctx : Context) (principal : Principal) (id : string)
    (body : Thing) : Responder :=
  match UpdateThing (manager h) ctx principal id body with
  | Err err =>
      match err with
      | errors_Forbidden _ =>
          respond ThingsUpdate StatusForbidden (errPayloadFromSingleErr err)
      | kinds_ErrInvalidUserInput _ =>
          respond ThingsUpdate StatusUnprocessableEntity (errPayloadFromSingleErr err)
      | _ =>
          respond ThingsUpdate StatusInternalServerError (errPayloadFromSingleErr err)
      end
  | Ok thing => respond ThingsUpdate StatusOK (ThingPayload (extendThing thing))
  end.

Definition updateAction (ctx : Context) (principal : Principal) (id : string)
    (body : Action) : Responder :=
  match UpdateAction (manager h) ctx principal id body with
  | Err err =>
      match err with
      | errors_Forbidden _ =>
          respond ActionsUpdate StatusForbidden (errPayloadFromSingleErr err)
      | kinds_ErrInvalidUserInput _ =>
          respond ActionsUpdate StatusUnprocessableEntity (errPayloadFromSingleErr err)
      | _ =>
          respond ActionsUpdate StatusInternalServerError (errPayloadFromSingleErr err)
      end
  | Ok action => respond ActionsUpdate StatusOK (ActionPayload (extendAction action))
  end.

Definition deleteThing (ctx : Context) (principal : Principal) (id : string)
  : Responder :=
  match DeleteThing (manager h) ctx principal id with
  | Some err =>
      match err with
      | errors_Forbidden _ =>
          respond ThingsDelete StatusForbidden (errPayloadFromSingleErr err)
      | kinds_ErrNotFound _ => respond ThingsDelete StatusNotFound NoPayload
      | _ =>
          respond ThingsDelete StatusInternalServerError (errPayloadFromSingleErr err)
      end
  | None => respond ThingsDelete StatusNoContent NoPayload
  end.

Definition deleteAction (ctx : Context) (principal : Principal) (id : string)
  : Responder :=
  match DeleteAction (manager h) ctx principal id with
  | Some err =>
      match err with
      | errors_Forbidden _ =>
          respond ActionsDelete StatusForbidden (errPayloadFromSingleErr err)
      | kinds_ErrNotFound _ => respond ActionsDelete StatusNotFound NoPayload
      | _ =>
          respond ActionsDelete StatusInternalServerError (errPayloadFromSingleErr err)
      end
  | None => respond ActionsDelete StatusNoContent NoPayload
  end.

(** [patchThing] answers an invalid input and an internal error with the
    responders of the update operation, as the source does. *)
Definition patchThing (ctx : Context) (principal : Principal) (id : string)
    (body : Thing) : Responder :=
  match MergeThing (manager h) ctx principal id body with
  | Some err =>
      match err with
      | errors_Forbidden _ =>
          respond ThingsPatch StatusForbidden (errPayloadFromSingleErr err)
      | kinds_ErrInvalidUserInput _ =>
          respond ThingsUpdate StatusUnprocessableEntity (errPayloadFromSingleErr err)
      | _ =>
          respond ThingsUpdate StatusInternalServerError (errPayloadFromSingleErr err)
      end
  | None => respond ThingsPatch StatusNoContent NoPayload
  end.

Definition patchAction (ctx : Context) (principal : Principal) (id : string)
    (body : Action) : Responder :=
  match MergeAction (manager h) ctx principal id body with
  | Some err =>
      match err with
      | errors_Forbidden _ =>
          respond ActionsPatch StatusForbidden (errPayloadFromSingleErr err)
      | kinds_ErrInvalidUserInput _ =>
          respond ActionsUpdate StatusUnprocessableEntity (errPayloadFromSingleErr err)
      | _ =>
          respond ActionsUpdate StatusInternalServerError (errPayloadFromSingleErr err)
      end
  | None => respond ActionsPatch StatusNoContent NoPayload
  end.

Definition addThingReference (ctx : Context) (principal : Principal)
    (id propertyName : string) (body : SingleRef) : Responder :=
  match AddThingReference (manager h) ctx principal id propertyName body with
  | Some err =>
      match err with
      | errors_Forbidden _ =>
          respond ThingsReferencesCreate StatusForbidden (errPayloadFromSingleErr err)
      | kinds_ErrNotFound _ | kinds_ErrInvalidUserInput _ =>
          respond ThingsReferencesCreate StatusUnprocessableEntity
            (errPayloadFromSingleErr err)
      | _ =>
          respond ThingsReferencesCreate StatusInternalServerError
            (errPayloadFromSingleErr err)
      end
  | None => respond ThingsReferencesCreate StatusOK NoPayload
  end.

Definition addActionReference (ctx : Context) (principal : Principal)
    (id propertyName : string) (body : SingleRef) : Responder :=
  match AddActionReference (manager h) ctx principal id propertyName body with
  | Some err =>
      match err with
      | errors_Forbidden _ =>
          respond ActionsReferencesCreate StatusForbidden (errPayloadFromSingleErr err)
      | kinds_ErrNotFound _ | kinds_ErrInvalidUserInput _ =>
          respond ActionsReferencesCreate StatusUnprocessableEntity
            (errPayloadFromSingleErr err)
      | _ =>
          respond ActionsReferencesCreate StatusInternalServerError
            (errPayloadFromSingleErr err)
      end
  | None => respond ActionsReferencesCreate StatusOK NoPayload
  end.

Definition updateActionReferences (ctx : Context) (principal : Principal)
    (id propertyName : string) (body : list SingleRef) : Responder :=
  match UpdateActionReferences (manager h) ctx principal id propertyName body with
  | Some err =>
      match err with
      | errors_Forbidden _ =>
          respond ActionsReferencesUpdate StatusForbidden (errPayloadFromSingleErr err)
      | kinds_ErrNotFound _ | kinds_ErrInvalidUserInput _ =>
          respond ActionsReferencesUpdate StatusUnprocessableEntity
            (errPayloadFromSingleErr err)
      | _ =>
          respond ActionsReferencesUpdate StatusInternalServerError
            (errPayloadFromSingleErr err)
      end
  | None => respond ActionsReferencesUpdate StatusOK NoPayload
  end.

Definition updateThingReferences (ctx : Context) (principal : Principal)
    (id propertyName : string) (body : list SingleRef) : Responder :=
  match UpdateThingReferences (manager h) ctx principal id propertyName body with
  | Some err =>
      match err with
      | errors_Forbidden _ =>
          respond ThingsReferencesUpdate StatusForbidden (errPayloadFromSingleErr err)
      | kinds_ErrNotFound _ | kinds_ErrInvalidUserInput _ =>
          respond ThingsReferencesUpdate StatusUnprocessableEntity
            (errPayloadFromSingleErr err)
      | _ =>
          respond ThingsReferencesUpdate StatusInternalServerError
            (errPayloadFromSingleErr err)
      end
  | None => respond ThingsReferencesUpdate StatusOK NoPayload
  end.

Definition deleteActionReference (ctx : Context) (principal : Principal)
    (id propertyName : string) (body : SingleRef) : Responder :=
  match DeleteActionReference (manager h) ctx principal id propertyName body with
  | Some err =>
      match err with
      | errors_Forbidden _ =>
          respond ActionsReferencesDelete StatusForbidden (errPayloadFromSingleErr err)
      | kinds_ErrNotFound _ | kinds_ErrInvalidUserInput _ =>
          respond ActionsReferencesDelete StatusNotFound (errPayloadFromSingleErr err)
      | _ =>
          respond ActionsReferencesDelete StatusInternalServerError
            (errPayloadFromSingleErr err)
      end
  | None => respond ActionsReferencesDelete StatusNoContent NoPayload
  end.

Definition deleteThingReference (ctx : Context) (principal : Principal)
    (id propertyName : string) (body : SingleRef) : Responder :=
  match DeleteThingReference (manager h) ctx principal id propertyName body with
  | Some err =>
      match err with
      | errors_Forbidden _ =>
          respond ThingsReferencesDelete StatusForbidden (errPayloadFromSingleErr err)
      | kinds_ErrNotFound _ | kinds_ErrInvalidUserInput _ =>
          respond ThingsReferencesDelete StatusNotFound (errPayloadFromSingleErr err)
      | _ =>
          respond ThingsReferencesDelete StatusInternalServerError
            (errPayloadFromSingleErr err)
      end
  | None => respond ThingsReferencesDelete StatusNoContent NoPayload
  end.

(** ** The shard: collaborators

    The bolt database, the object-store helpers [putObjectInTx] and
    [mergeObjectInTx], the vector index and the [uuid] package are not
    among the sources.  [DB] is what a bolt transaction reads and writes;
    a helper takes the transaction's view and returns the updated view
    with its Go results. *)
Variable DB : Type.
Variable VectorIndex : Type.

(** What bolt does with the [Batch] call of the goroutine launched for
    the chunk that starts at index [i]. *)
Variable bolt : nat -> bolt_batch DB.

Variable uuid_Parse : string -> result (list Z).
Variable uuid_MarshalBinary : list Z -> result (list Z).
Variable putObjectInTx :
  DB -> storobj_Object -> list Z -> DB * result objectStatus.
Variable mergeObjectInTx :
  DB -> MergeDocument -> list Z -> DB * option error.
Variable vectorIndex_Add :
  VectorIndex -> Z -> list float32 -> VectorIndex * option error.

(** [time.Now().UnixNano()] as read while the reference with the given
    original index is processed. *)
Variable time_Now_UnixNano : nat -> Z.

(** The goroutines of a phase run in an order chosen by the scheduler:
    bolt serialises the write transactions, the mutex serialises the map
    updates and the vector index serialises its own calls.  A schedule is
    any reordering of the goroutines that were launched. *)
Variable schedule_puts :
  list (nat * list storobj_Object) -> list (nat * list storobj_Object).
Variable schedule_refs :
  list (nat * list BatchReference) -> list (nat * list BatchReference).
Variable schedule_adds :
  list (storobj_Object * Z * nat) -> list (storobj_Object * Z * nat).

Hypothesis schedule_puts_perm : forall l, schedule_puts l ≡ₚ l.
Hypothesis schedule_refs_perm : forall l, schedule_refs l ≡ₚ l.
Hypothesis schedule_adds_perm : forall l, schedule_adds l ≡ₚ l.

(** The state a batch call works on: the shard's database and vector
    index, the trace of calls, and the two maps of the call ([docIDs] is
    only used by [putObjectBatch]). *)
Record batchState : Type := {
  st_db : DB;
  st_vectorIndex : VectorIndex;
  st_trace : list event;
  st_docIDs : gmap string Z;
  st_errs : gmap nat error }.

Definition with_db (d : DB) (st : batchState) : batchState :=
  {| st_db := d; st_vectorIndex := st_vectorIndex st;
     st_trace := st_trace st; st_docIDs := st_docIDs st;
     st_errs := st_errs st |}.

Definition with_vectorIndex (v : VectorIndex) (st : batchState) : batchState :=
  {| st_db := st_db st; st_vectorIndex := v;
     st_trace := st_trace st; st_docIDs := st_docIDs st;
     st_errs := st_errs st |}.

Definition log (ev : event) (st : batchState) : batchState :=
  {| st_db := st_db st; st_vectorIndex := st_vectorIndex st;
     st_trace := st_trace st ++ [ev]; st_docIDs := st_docIDs st;
     st_errs := st_errs st |}.

Definition with_docIDs (m : gmap string Z) (st : batchState) : batchState :=
  {| st_db := st_db st; st_vectorIndex := st_vectorIndex st;
     st_trace := st_trace st; st_docIDs := m;
     st_errs := st_errs st |}.

Definition with_errs (m : gmap nat error) (st : batchState) : batchState :=
  {| st_db := st_db st; st_vectorIndex := st_vectorIndex st;
     st_trace := st_trace st; st_docIDs := st_docIDs st;
     st_errs := m |}.

Definition init_state (d : DB) (v : VectorIndex) : batchState :=
  {| st_db := d; st_vectorIndex := v; st_trace := [];
     st_docIDs := ∅; st_errs := ∅ |}.

(** ** Chunking *)

Definition maxPerTransaction : nat := 30.

(** [xs[i:e]] for [i <= e <= len(xs)]. *)
Definition slice {A : Type} (xs : list A) (i e : nat) : list A :=
  take (e - i) (drop i xs).

(** [for i := 0; i < len(xs); i += maxPerTransaction { ... xs[i:end] ... }];
    the fuel bounds the number of iterations. *)
Fixpoint chunk_loop {A : Type} (fuel i : nat) (xs : list A)
  : list (nat * list A) :=
  match fuel with
  | O => []
  | S fuel' =>
      if decide (i < length xs) then
        let e := if decide (length xs < i + maxPerTransaction)
                 then length xs else i + maxPerTransaction in
        (i, slice xs i e) :: chunk_loop fuel' (i + maxPerTransaction) xs
      else []
  end.

Definition chunks {A : Type} (xs : list A) : list (nat * list A) :=
  chunk_loop (length xs) 0 xs.

(** ** bolt's [Batch]

    [db.Batch(fn)], for a call that bolt treats as [b] says.  [fn] works
    on the variables it captured (of type [L]) and on the state of the
    batch call.  It is first run on every view of [batch_retried b]; the
    database is put back after each of these runs, and what [fn] did to
    the captured variables, to the maps of the call and to the trace
    stays.  When bolt cannot begin the deciding transaction its error is
    returned.  Otherwise [fn] is run on the database as it is: on an
    error of [fn], and on an error of the commit, the database is put
    back and the error is returned; else the writes of [fn] are
    committed and [Batch] returns nil. *)
Definition db_Batch {L : Type} (b : bolt_batch DB)
    (fn : L * batchState -> (L * batchState) * option error)
    (s : L * batchState) : (L * batchState) * option error :=
  let rollback (s' : L * batchState) : L * batchState :=
    (s'.1, with_db (st_db s.2) s'.2) in
  let retried :=
    foldl (fun s' view => rollback (fn (s'.1, with_db view s'.2)).1)
      s (batch_retried b) in
  match batch_begin b with
  | Some e => (retried, Some e)
  | None =>
      let '(s', r) := fn retried in
      match r with
      | Some err => (rollback s', Some err)
      | None =>
          match batch_commit b with
          | Some e => (rollback s', Some e)
          | None => (s', None)
          end
      end
  end.

(** [for _, affected := range affectedIndices { errs[affected] = err }] *)
Definition record_errs (affectedIndices : list nat) (err : error)
    (errs : gmap nat error) : gmap nat error :=
  foldl (fun m affected => <[affected := err]> m) errs affectedIndices.

(** The function literal handed to [Batch] by the goroutine of the chunk
    [(i, batch)].  It captures [affectedIndices]: each time it is run it
    appends [i+j] for every position [j] of the chunk, and then runs
    [body] on the items.  [putObjectBatch] and [addReferencesBatch]
    differ only in [body]. *)
Definition chunk_tx {A : Type}
    (body : nat -> list A -> batchState -> batchState * option error)
    (i : nat) (batch : list A) (s : list nat * batchState)
  : (list nat * batchState) * option error :=
  let affectedIndices :=
    (s.1 ++ ((fun j => i + j) <$> seq 0 (length batch)))%list in
  let '(st', r) := body i batch s.2 in
  ((affectedIndices, st'), r).

(** The goroutine started for one chunk: [affectedIndices] starts empty,
    and the error [Batch] returns, if any, is wrapped and written to
    [errs] at the indices [affectedIndices] holds by then. *)
Definition chunk_goroutine {A : Type}
    (body : nat -> list A -> batchState -> batchState * option error)
    (c : nat * list A) (st : batchState) : batchState :=
  let '(i, batch) := c in
  let '((affectedIndices, st'), r) :=
    db_Batch (bolt i) (chunk_tx body i batch) ([], st) in
  let st'' := log (EvBatch i (length batch) r) st' in
  match r with
  | None => st''
  | Some err =>
      let err := errors_Wrap err "bolt batch tx" in
      with_errs (record_errs affectedIndices err (st_errs st'')) st''
  end.

(** ** [putObjectBatch] *)

(** [for _, object := range batch { ... }] inside the transaction. *)
Fixpoint putObjectsInTx (batch : list storobj_Object) (st : batchState)
  : batchState * option error :=
  match batch with
  | [] => (st, None)
  | object :: batch' =>
      match uuid_Parse (Object_ID object) with
      | Err err => (st, Some (errors_Wrap err "invalid id"))
      | Ok uuidParsed =>
          match uuid_MarshalBinary uuidParsed with
          | Err err => (st, Some err)
          | Ok idBytes =>
              let '(tx, r) := putObjectInTx (st_db st) object idBytes in
              let st1 := log (EvPutObjectInTx object) (with_db tx st) in
              match r with
              | Err err => (st1, Some err)
              | Ok status =>
                  putObjectsInTx batch'
                    (with_docIDs
                       (<[Object_ID object := docID status]> (st_docIDs st1))
                       st1)
              end
          end
      end
  end.

Definition put_goroutine (c : nat * list storobj_Object) (st : batchState)
  : batchState :=
  chunk_goroutine (fun _ => putObjectsInTx) c st.

(** The second loop in the launching goroutine: the indices without an
    error, each with its object and the [docID] read from [docIDs]
    (the zero value when the key is missing). *)
Fixpoint add_jobs (i : nat) (objects : list storobj_Object)
    (errs : gmap nat error) (docIDs : gmap string Z)
  : list (storobj_Object * Z * nat) :=
  match objects with
  | [] => []
  | object :: objects' =>
      match errs !! i with
      | Some _ => add_jobs (S i) objects' errs docIDs
      | None =>
          (object, default 0%Z (docIDs !! Object_ID object), i)
            :: add_jobs (S i) objects' errs docIDs
      end
  end.

Definition add_goroutine (job : storobj_Object * Z * nat) (st : batchState)
  : batchState :=
  let '(object, id, index) := job in
  let '(v, r) := vectorIndex_Add (st_vectorIndex st) id (Object_Vector object) in
  let st' :=
    log (EvVectorIndexAdd index id (Object_Vector object) r)
      (with_vectorIndex v st) in
  match r with
  | None => st'
  | Some err =>
      with_errs
        (<[index := errors_Wrap err "insert to vector index"]> (st_errs st'))
        st'
  end.

Definition run {J : Type} (goroutine : J -> batchState -> batchState)
    (jobs : list J) (st : batchState) : batchState :=
  foldl (fun s j => goroutine j s) st jobs.

(** The state after the first [wg.Wait()]. *)
Definition putObjectBatch_phase1 (objects : list storobj_Object)
    (st : batchState) : batchState :=
  run put_goroutine (schedule_puts (chunks objects)) st.

(** [putObjectBatch]: the returned map is [st_errs] of the result; the
    context is received and not consulted. *)
Definition putObjectBatch (ctx : Context) (objects : list storobj_Object)
    (d : DB) (v : VectorIndex) : batchState :=
  let st1 := putObjectBatch_phase1 objects (init_state d v) in
  run add_goroutine
    (schedule_adds (add_jobs 0 objects (st_errs st1) (st_docIDs st1))) st1.

(** ** [addReferencesBatch] *)

Definition mergeDocFromBatchReference (now : Z) (ref : BatchReference)
  : MergeDocument :=
  {| md_Kind := From_Kind (From ref);
     md_Class := From_Class (From ref);
     md_ID := From_TargetID (From ref);
     md_UpdateTime := now;
     md_References := [ref] |}.

(** [for _, ref := range batch { ... }] inside the transaction; [i] is
    the original index of the head of [batch]. *)
Fixpoint mergeReferencesInTx (i : nat) (batch : list BatchReference)
    (st : batchState) : batchState * option error :=
  match batch with
  | [] => (st, None)
  | ref :: batch' =>
      match uuid_Parse (From_TargetID (From ref)) with
      | Err err => (st, Some (errors_Wrap err "invalid id"))
      | Ok uuidParsed =>
          match uuid_MarshalBinary uuidParsed with
          | Err err => (st, Some err)
          | Ok idBytes =>
              let mergeDoc :=
                mergeDocFromBatchReference (time_Now_UnixNano i) ref in
              let '(tx, r) := mergeObjectInTx (st_db st) mergeDoc idBytes in
              let st1 := log (EvMergeObjectInTx mergeDoc) (with_db tx st) in
              match r with
              | Some err => (st1, Some err)
              | None => mergeReferencesInTx (S i) batch' st1
              end
          end
      end
  end.

Definition refs_goroutine (c : nat * list BatchReference) (st : batchState)
  : batchState :=
  chunk_goroutine mergeReferencesInTx c st.

Definition addReferencesBatch (ctx : Context) (refs : list BatchReference)
    (d : DB) (v : VectorIndex) : batchState :=
  run refs_goroutine (schedule_refs (chunks refs)) (init_state d v).

(** ** Vocabulary of the statements: REST *)

(** The mapping the specification gives for every handler, in its words:
    NotFound to 404, InvalidUserInput to 422, Forbidden to 403, anything
    else to 500. *)
Definition claimed_status (err : error) : Status :=
  match err with
  | kinds_ErrNotFound _ => StatusNotFound
  | kinds_ErrInvalidUserInput _ => StatusUnprocessableEntity
  | errors_Forbidden _ => StatusForbidden
  | _ => StatusInternalServerError
  end.

(** The five mappings the handlers have.  Create, validate, update and
    patch: *)
Definition status_on_write (err : error) : Status :=
  match err with
  | errors_Forbidden _ => StatusForbidden
  | kinds_ErrInvalidUserInput _ => StatusUnprocessableEntity
  | _ => StatusInternalServerError
  end.

(** get and delete: *)
Definition status_on_read (err : error) : Status :=
  match err with
  | errors_Forbidden _ => StatusForbidden
  | kinds_ErrNotFound _ => StatusNotFound
  | _ => StatusInternalServerError
  end.

(** list: *)
Definition status_on_list (err : error) : Status :=
  match err with
  | errors_Forbidden _ => StatusForbidden
  | _ => StatusInternalServerError
  end.

(** create and update of references: *)
Definition status_on_reference_write (err : error) : Status :=
  match err with
  | errors_Forbidden _ => StatusForbidden
  | kinds_ErrNotFound _ | kinds_ErrInvalidUserInput _ =>
      StatusUnprocessableEntity
  | _ => StatusInternalServerError
  end.

(** delete of a reference: *)
Definition status_on_reference_delete (err : error) : Status :=
  match err with
  | errors_Forbidden _ => StatusForbidden
  | kinds_ErrNotFound _ | kinds_ErrInvalidUserInput _ => StatusNotFound
  | _ => StatusInternalServerError
  end.

Definition status_of_result {A : Type} (on_err : error -> Status)
    (ok : Status) (r : result A) : Status :=
  match r with
  | Err err => on_err err
  | Ok _ => ok
  end.

Definition status_of_error (on_err : error -> Status) (ok : Status)
    (r : option error) : Status :=
  match r with
  | Some err => on_err err
  | None => ok
  end.

(** The status of a handler that parses the include parameter before it
    calls the manager. *)
Definition status_after_parse (include : option string) (st : Status)
  : Status :=
  match (parseIncludeParam include).2 with
  | Some _ => StatusBadRequest
  | None => st
  end.

(** The spellings the specification announces for the include
    parameter: each of the six enrichment values, camel-cased, with and
    without a leading underscore. *)
Definition claimed_spellings : list string :=
  ["_classification"; "classification"; "_refMeta"; "refMeta";
   "_vector"; "vector"; "_nearestNeighbors"; "nearestNeighbors";
   "_featureProjection"; "featureProjection";
   "_interpretation"; "interpretation"].

(** The spellings the switch of [parseIncludeParam] has a case for. *)
Definition accepted_labels : list string :=
  (classification_labels ++ interpretation_labels ++ nearestNeighbors_labels
   ++ featureProjection_labels ++ vector_labels)%list.

(** The first part of an include list that the switch has no case for. *)
Definition first_unrecognized (parts : list string) : option string :=
  List.find (fun prop => negb (case_of prop accepted_labels)) parts.

Definition requests_classification (parts : list string) : bool :=
  existsb (fun prop => case_of prop classification_labels) parts.

(** ** Vocabulary of the statements: shard *)

(** The indices a chunk [(i, batch)] owns: [i <= idx < i + len(batch)]. *)
Definition in_chunk {A : Type} (idx : nat) (c : nat * list A) : Prop :=
  c.1 <= idx < c.1 + length c.2.

(** The [k]-th chunk of [xs] written without the loop, and the number of
    chunks of an input of length [n], that is [ceil(n / 30)]. *)
Definition chunk_at {A : Type} (xs : list A) (k : nat) : nat * list A :=
  (k * maxPerTransaction,
   take maxPerTransaction (drop (k * maxPerTransaction) xs)).

Definition chunk_count (n : nat) : nat :=
  (n + (maxPerTransaction - 1)) / maxPerTransaction.

(** First index and size of every chunk of an input of length [n]. *)
Definition chunk_bounds (n : nat) : list (nat * nat) :=
  (fun k => (k * maxPerTransaction,
             Nat.min maxPerTransaction (n - k * maxPerTransaction)))
    <$> seq 0 (chunk_count n).

(** The [Batch] calls of a trace, each with the first index and the size
    of its chunk, and the vector-index calls of a trace. *)
Definition batch_call (ev : event) : option (nat * nat) :=
  match ev with
  | EvBatch first size _ => Some (first, size)
  | _ => None
  end.

Definition batch_calls (tr : list event) : list (nat * nat) :=
  omap batch_call tr.

Definition is_vector_call (ev : event) : bool :=
  match ev with
  | EvVectorIndexAdd _ _ _ _ => true
  | _ => false
  end.

Definition vector_calls (tr : list event) : list event :=
  List.filter is_vector_call tr.

(** What the function run inside the transaction leaves alone: the error
    map and the vector index; to the trace it only appends calls of the
    object-store helpers. *)
Definition framed {A : Type}
    (body : nat -> list A -> batchState -> batchState * option error) : Prop :=
  forall i batch st,
    st_errs (body i batch st).1 = st_errs st /\
    st_vectorIndex (body i batch st).1 = st_vectorIndex st /\
    exists evs,
      st_trace (body i batch st).1 = (st_trace st ++ evs)%list /\
      batch_calls evs = [] /\ vector_calls evs = [].

(** What the trace of a reference batch may hold: [Batch] calls, and
    [mergeObjectInTx] calls whose document is the merge document of a
    reference of the batch. *)
Definition reference_event (refs : list BatchReference) (ev : event) : Prop :=
  match ev with
  | EvBatch _ _ _ => True
  | EvMergeObjectInTx doc =>
      exists index ref,
        refs !! index = Some ref /\
        doc = mergeDocFromBatchReference (time_Now_UnixNano index) ref
  | EvPutObjectInTx _ => False
  | EvVectorIndexAdd _ _ _ _ => False
  end.

(** What the function run inside the transaction writes to the
    database, and whether it fails, is decided by the database it is run
    on. *)
Definition db_determined {A : Type}
    (body : nat -> list A -> batchState -> batchState * option error) : Prop :=
  forall i batch st1 st2,
    st_db st1 = st_db st2 ->
    st_db (body i batch st1).1 = st_db (body i batch st2).1 /\
    (body i batch st1).2 = (body i batch st2).2.

(** The state of the call after [body] has been run on each of [views]
    with the database put back to [d] every time. *)
Definition retry_runs {A : Type}
    (body : nat -> list A -> batchState -> batchState * option error)
    (i : nat) (batch : list A) (d : DB) (views : list DB) (st : batchState)
  : batchState :=
  foldl (fun s view => with_db d (body i batch (with_db view s)).1) st views.

(** The state in which the deciding transaction of the chunk [c]
    starts, for a goroutine started in [st]. *)
Definition retried_state {A : Type}
    (body : nat -> list A -> batchState -> batchState * option error)
    (c : nat * list A) (st : batchState) : batchState :=
  retry_runs body c.1 c.2 (st_db st) (batch_retried (bolt c.1)) st.

(** The error [Batch] returns to the goroutine of [c] started in [st],
    and the state it leaves. *)
Definition batch_outcome {A : Type}
    (body : nat -> list A -> batchState -> batchState * option error)
    (c : nat * list A) (st : batchState) : option error :=
  batch_result (bolt c.1) (body c.1 c.2 (retried_state body c st)).2.

Definition batch_state {A : Type}
    (body : nat -> list A -> batchState -> batchState * option error)
    (c : nat * list A) (st : batchState) : batchState :=
  match batch_begin (bolt c.1) with
  | Some _ => retried_state body c st
  | None =>
      match batch_outcome body c st with
      | Some _ =>
          with_db (st_db st) (body c.1 c.2 (retried_state body c st)).1
      | None => (body c.1 c.2 (retried_state body c st)).1
      end
  end.

(** The vector index after the [Add] calls of a trace, made in the order
    of the trace on the index [v]; and a trace in which every [Add] call
    records what [vectorIndex_Add] returned on the index left by the
    calls before it. *)
Definition index_step (vi : VectorIndex) (ev : event) : VectorIndex :=
  match ev with
  | EvVectorIndexAdd _ id vector _ => (vectorIndex_Add vi id vector).1
  | _ => vi
  end.

Definition index_after (tr : list event) (v : VectorIndex) : VectorIndex :=
  foldl index_step v tr.

Fixpoint adds_faithful (tr : list event) (v : VectorIndex) : Prop :=
  match tr with
  | [] => True
  | ev :: tr' =>
      match ev with
      | EvVectorIndexAdd _ id vector r => r = (vectorIndex_Add v id vector).2
      | _ => True
      end /\ adds_faithful tr' (index_step v ev)
  end.

(** ** Vocabulary of the further statements: shard *)

(** The original index a vector-index call was made for. *)
Definition vector_call_index (ev : event) : option nat :=
  match ev with
  | EvVectorIndexAdd index _ _ _ => Some index
  | _ => None
  end.

(** The two shapes an error of a returned map can have. *)
Definition batch_tx_error (e : error) : Prop :=
  exists cause, e = errors_Wrap cause "bolt batch tx".

Definition vector_index_error (e : error) : Prop :=
  exists cause, e = errors_Wrap cause "insert to vector index".

(** ** Vocabulary of the further statements: REST *)

(** The API link of a parsed beacon. *)
Definition api_link (origin : string) (parsed : crossref_Ref) : string :=
  origin ++ "/v1/" ++ Kind_Name parsed ++ "s/" ++ TargetID parsed.

(** The flags a list of accepted parts asks for, on top of [out]. *)
Definition requested (labels : list string) (parts : list string) : bool :=
  existsb (fun prop => case_of prop labels) parts.

Definition flags_of_parts (parts : list string) (out : UnderscoreProperties)
  : UnderscoreProperties :=
  {| Classification := Classification out || requested classification_labels parts;
     RefMeta := RefMeta out || requested classification_labels parts;
     Vector := Vector out || requested vector_labels parts;
     NearestNeighbors :=
       NearestNeighbors out || requested nearestNeighbors_labels parts;
     FeatureProjection :=
       if requested featureProjection_labels parts
       then Some projector_Params_zero else FeatureProjection out;
     Interpretation :=
       Interpretation out || requested interpretation_labels parts |}.

(** The payload of an error answer: get and delete answer NotFound
    without a payload, every other error answer carries the error. *)
Definition payload_on_read (err : error) : Payload :=
  match err with
  | kinds_ErrNotFound _ => NoPayload
  | _ => ErrorPayload err
  end.

Definition payload_of_result {A : Type} (on_err : error -> Payload)
    (ok : A -> Payload) (r : result A) : Payload :=
  match r with
  | Err err => on_err err
  | Ok a => ok a
  end.

Definition payload_of_error (on_err : error -> Payload) (r : option error)
  : Payload :=
  match r with
  | Some err => on_err err
  | None => NoPayload
  end.

(** The operation of the responder a patch handler answers with: its
    own, except for the errors it answers with the responders of the
    update operation. *)
Definition patch_operation (patch update : Operation) (r : option error)
  : Operation :=
  match r with
  | None | Some (errors_Forbidden _) => patch
  | Some _ => update
  end.

Definition payload_after_parse (include : option string) (p : Payload)
  : Payload :=
  match (parseIncludeParam include).2 with
  | Some err => ErrorPayload err
  | None => p
  end.

(** The objects handed to [putObjectInTx], in the order of the calls. *)
Definition put_call (ev : event) : option storobj_Object :=
  match ev with
  | EvPutObjectInTx object => Some object
  | _ => None
  end.

Definition put_calls (tr : list event) : list storobj_Object :=
  omap put_call tr.

(** ** [models.ActionsListResponse]: validation

    The generated model file of the list response.  Here the slices hold
    pointers, which may be nil.  An error of the go-openapi validation is
    an [*errors.Validation], a composite of errors, or another error
    ([validation_error], declared above); [Validation] values, their
    [ValidateName] method and the [Validate] methods of the elements
    are declared outside the file. *)
Variable Validation : Type.
Variable Validation_ValidateName : Validation -> string -> Validation.

Variable Action_Validate : Action -> option (validation_error Validation).
Variable Deprecation_Validate :
  Deprecation -> option (validation_error Validation).

Record models_ActionsListResponse : Type := {
  m_Actions : list (option Action);
  m_Deprecations : list (option Deprecation);
  m_TotalResults : Z }.

(** [strconv.Itoa] of an index: its decimal digits. *)
Definition strconv_Itoa (i : nat) : string := pretty i.

(** An error that is a [Validation] is returned renamed by
    [ValidateName(name)], any other error as it is. *)
Definition name_validation (name : string)
    (err : validation_error Validation) : validation_error Validation :=
  match err with
  | errors_Validation ve => errors_Validation (Validation_ValidateName ve name)
  | _ => err
  end.

(** The loop of [validateActions] from index [i] on; a nil element is
    skipped. *)
Fixpoint validateActions_from (i : nat) (actions : list (option Action))
  : option (validation_error Validation) :=
  match actions with
  | [] => None
  | None :: actions' => validateActions_from (S i) actions'
  | Some action :: actions' =>
      match Action_Validate action with
      | Some err => Some (name_validation ("actions" ++ "." ++ strconv_Itoa i) err)
      | None => validateActions_from (S i) actions'
      end
  end.

Definition validateActions (m : models_ActionsListResponse)
  : option (validation_error Validation) :=
  match m_Actions m with
  | [] => None
  | actions => validateActions_from 0 actions
  end.

Fixpoint validateDeprecations_from (i : nat)
    (deprecations : list (option Deprecation))
  : option (validation_error Validation) :=
  match deprecations with
  | [] => None
  | None :: deprecations' => validateDeprecations_from (S i) deprecations'
  | Some deprecation :: deprecations' =>
      match Deprecation_Validate deprecation with
      | Some err =>
          Some (name_validation ("deprecations" ++ "." ++ strconv_Itoa i) err)
      | None => validateDeprecations_from (S i) deprecations'
      end
  end.

Definition validateDeprecations (m : models_ActionsListResponse)
  : option (validation_error Validation) :=
  match m_Deprecations m with
  | [] => None
  | deprecations => validateDeprecations_from 0 deprecations
  end.

(** [Validate]: the errors of the two fields are collected and returned
    as one composite error. *)
Definition ActionsListResponse_Validate (m : models_ActionsListResponse)
  : option (validation_error Validation) :=
  let res := [] in
  let res :=
    match validateActions m with
    | Some err => (res ++ [err])%list
    | None => res
    end in
  let res :=
    match validateDeprecations m with
    | Some err => (res ++ [err])%list
    | None => res
    end in
  if decide (0 < length res) then Some (errors_CompositeError res) else None.

(** An element passes when it is nil or its [Validate] returns nil. *)
Definition action_passes (a : option Action) : Prop :=
  match a with
  | None => True
  | Some action => Action_Validate action = None
  end.

Definition deprecation_passes (dep : option Deprecation) : Prop :=
  match dep with
  | None => True
  | Some deprecation => Deprecation_Validate deprecation = None
  end.

(** ** Startup: the contextionary version check

    [validateContextionaryVersion] asks the contextionary for its version
    once a second.  [contextionary_Version k] is the answer to the [k]-th
    request; [extractVersionAndCompare] is in another file of the package.
    The loop is run with fuel; the result, when there is one, is the
    number of requests made and how the check ended. *)
Variable contextionary_Version : nat -> result string.
Variable extractVersionAndCompare : string -> string -> result bool.

Definition MinimumRequiredContextionaryVersion : string := "0.4.19".

Inductive version_check : Type :=
| version_undetermined   (* warning logged, startup goes on *)
| version_valid          (* startup goes on *)
| version_insufficient.  (* [Fatalf]: the process exits *)

Fixpoint validateContextionaryVersion_loop (fuel attempt : nat)
  : option (nat * version_check) :=
  match fuel with
  | O => None
  | S fuel' =>
      match contextionary_Version attempt with
      | Err _ => validateContextionaryVersion_loop fuel' (S attempt)
      | Ok v =>
          match extractVersionAndCompare v MinimumRequiredContextionaryVersion with
          | Err _ => Some (S attempt, version_undetermined)
          | Ok true => Some (S attempt, version_valid)
          | Ok false => Some (S attempt, version_insufficient)
          end
      end
  end.

Definition validateContextionaryVersion (fuel : nat)
  : option (nat * version_check) :=
  validateContextionaryVersion_loop fuel 0.

Definition check_of_version (v : string) : version_check :=
  match extractVersionAndCompare v MinimumRequiredContextionaryVersion with
  | Err _ => version_undetermined
  | Ok true => version_valid
  | Ok false => version_insufficient
  end.

(** ** GraphQL: the meta fields of a boolean property

    [booleanPropertyFields] of [graphqlapi/local/getmeta].  An object is
    represented by the configuration [graphql.NewObject] is given; the
    description constants are declared in another package. *)
Inductive graphql_Type : Type := graphql_String | graphql_Int | graphql_Float.

Record graphql_Field : Type := {
  field_Name : string;
  field_Description : string;
  field_Type : graphql_Type }.

Record graphql_ObjectConfig : Type := {
  object_Name : string;
  object_Fields : gmap string graphql_Field;
  object_Description : string }.

Variable descriptions_GetMetaPropertyTypeDesc : string.
Variable descriptions_GetMetaPropertyCountDesc : string.
Variable descriptions_GetMetaClassPropertyTotalTrueDesc : string.
Variable descriptions_GetMetaClassPropertyPercentageTrueDesc : string.
Variable descriptions_GetMetaClassPropertyTotalFalseDesc : string.
Variable descriptions_GetMetaClassPropertyPercentageFalseDesc : string.
Variable descriptions_GetMetaPropertyObjectDesc : string.

(** [fmt.Sprintf("Meta%s%s<suffix>", class.Class, property.Name)] *)
Definition meta_name (class property suffix : string) : string :=
  "Meta" ++ class ++ property ++ suffix.

Definition booleanPropertyFields (class property : string)
  : graphql_ObjectConfig :=
  let getMetaBooleanFields : gmap string graphql_Field :=
    <["type" :=
        {| field_Name := meta_name class property "Type";
           field_Description := descriptions_GetMetaPropertyTypeDesc;
           field_Type := graphql_String |}]>
    (<["count" :=
        {| field_Name := meta_name class property "Count";
           field_Description := descriptions_GetMetaPropertyCountDesc;
           field_Type := graphql_Int |}]>
    (<["totalTrue" :=
        {| field_Name := meta_name class property "TotalTrue";
           field_Description := descriptions_GetMetaClassPropertyTotalTrueDesc;
           field_Type := graphql_Int |}]>
    (<["percentageTrue" :=
        {| field_Name := meta_name class property "PercentageTrue";
           field_Description :=
             descriptions_GetMetaClassPropertyPercentageTrueDesc;
           field_Type := graphql_Float |}]>
    (<["totalFalse" :=
        {| field_Name := meta_name class property "TotalFalse";
           field_Description := descriptions_GetMetaClassPropertyTotalFalseDesc;
           field_Type := graphql_Int |}]>
    (<["percentageFalse" :=
        {| field_Name := meta_name class property "PercentageFalse";
           field_Description :=
             descriptions_GetMetaClassPropertyPercentageFalseDesc;
           field_Type := graphql_Float |}]> ∅))))) in
  {| object_Name := meta_name class property "Obj";
     object_Fields := getMetaBooleanFields;
     object_Description := descriptions_GetMetaPropertyObjectDesc |}.

(** The keys of the fields of the object. *)
Definition boolean_field_keys : list string :=
  ["type"; "count"; "totalTrue"; "percentageTrue"; "totalFalse";
   "percentageFalse"].

(** ** The query builder test: [stripAll]

    [strings.Replace(input, old, "", -1)] for a one-character [old]
    removes every occurrence of the character. *)
Fixpoint strings_remove (old : ascii) (input : string) : string :=
  match input with
  | EmptyString => EmptyString
  | String c input' =>
      if Ascii.eqb c old then strings_remove old input'
      else String c (strings_remove old input')
  end.

Definition stripAll (input : string) : string :=
  let input := strings_remove " "%char input in
  let input := strings_remove "009"%char input in
  let input := strings_remove "010"%char input in
  input.

Definition is_blank (c : ascii) : bool :=
  Ascii.eqb c " "%char || Ascii.eqb c "009"%char || Ascii.eqb c "010"%char.

Fixpoint string_forall (p : ascii -> bool) (s : string) : bool :=
  match s with
  | EmptyString => true
  | String c s' => p c && string_forall p s'
  end.

(** * Properties *)

Local Open Scope list_scope.

(** ** Chunking *)

Lemma chunk_count_le (n k : nat) :
  n <= k * maxPerTransaction <-> chunk_count n <= k.
Proof.
  unfold chunk_count, maxPerTransaction.
  pose proof (Nat.div_mod_eq (n + (30 - 1)) 30).
  pose proof (Nat.mod_upper_bound (n + (30 - 1)) 30). lia.
Qed.

Lemma chunk_loop_closed {A : Type} (xs : list A) (fuel k : nat) :
  length xs <= k * maxPerTransaction + fuel ->
  chunk_loop fuel (k * maxPerTransaction) xs
  = chunk_at xs <$> seq k (chunk_count (length xs) - k).
Proof.
  revert k. induction fuel as [|fuel IH]; intros k Hk; cbn [chunk_loop].
  - replace (chunk_count (length xs) - k) with 0; [done|].
    pose proof (proj1 (chunk_count_le (length xs) k)). lia.
  - destruct (decide (k * maxPerTransaction < length xs)) as [Hlt|Hge].
    + assert (~ chunk_count (length xs) <= k) as Hc.
      { rewrite <- chunk_count_le. lia. }
      replace (chunk_count (length xs) - k)
        with (S (chunk_count (length xs) - S k)) by lia.
      cbn [seq fmap list_fmap]. f_equal.
      * unfold chunk_at, slice. f_equal.
        destruct (decide (length xs < k * maxPerTransaction + maxPerTransaction)).
        -- rewrite !firstn_all2; [done | | ]; rewrite length_drop; lia.
        -- f_equal. lia.
      * replace (k * maxPerTransaction + maxPerTransaction)
          with (S k * maxPerTransaction) by lia.
        apply IH. unfold maxPerTransaction in *. lia.
    + replace (chunk_count (length xs) - k) with 0; [done|].
      pose proof (proj1 (chunk_count_le (length xs) k)). lia.
Qed.

Lemma chunks_closed {A : Type} (xs : list A) :
  chunks xs = chunk_at xs <$> seq 0 (chunk_count (length xs)).
Proof.
  unfold chunks.
  pose proof (chunk_loop_closed xs (length xs) 0) as H.
  rewrite Nat.sub_0_r in H. apply H. lia.
Qed.

Lemma chunk_at_length {A : Type} (xs : list A) (k : nat) :
  length (chunk_at xs k).2
  = Nat.min maxPerTransaction (length xs - k * maxPerTransaction).
Proof. unfold chunk_at. simpl. rewrite length_take, length_drop. done. Qed.

Lemma chunk_at_lookup {A : Type} (xs : list A) (k j : nat) :
  j < maxPerTransaction ->
  (chunk_at xs k).2 !! j = xs !! (k * maxPerTransaction + j).
Proof.
  intros Hj. unfold chunk_at. simpl.
  rewrite lookup_take_lt by done. by rewrite lookup_drop.
Qed.

Lemma elem_of_chunks {A : Type} (xs : list A) (c : nat * list A) :
  c ∈ chunks xs <->
  exists k, k < chunk_count (length xs) /\ c = chunk_at xs k.
Proof.
  rewrite chunks_closed, list_elem_of_fmap. split.
  - intros (k & -> & Hk). apply elem_of_seq in Hk. exists k. split; [lia|done].
  - intros (k & Hk & ->). exists k. split; [done|]. apply elem_of_seq. lia.
Qed.

Lemma in_chunk_at {A : Type} (xs : list A) (k idx : nat) :
  in_chunk idx (chunk_at xs k) <->
  idx < length xs /\ k = idx / maxPerTransaction.
Proof.
  unfold in_chunk. rewrite chunk_at_length. unfold chunk_at. cbn [fst].
  unfold maxPerTransaction.
  pose proof (Nat.div_mod_eq idx 30).
  pose proof (Nat.mod_upper_bound idx 30).
  split; intros Hin.
  - split; [lia|]. apply Nat.div_unique with (idx - k * 30); lia.
  - destruct Hin as [Hlt ->]. lia.
Qed.

Lemma chunks_fst_NoDup {A : Type} (xs : list A) : NoDup (chunks xs).*1.
Proof.
  rewrite chunks_closed, <- list_fmap_compose.
  apply NoDup_fmap_2; [|apply NoDup_seq].
  intros k1 k2. unfold chunk_at, maxPerTransaction. cbn [compose fst]. lia.
Qed.

(** Every index of the input lies in exactly one chunk. *)
Lemma index_in_some_chunk {A : Type} (xs : list A) (idx : nat) :
  idx < length xs ->
  exists c, c ∈ chunks xs /\ in_chunk idx c.
Proof.
  intros Hlt. exists (chunk_at xs (idx / maxPerTransaction)). split.
  - apply elem_of_chunks. eexists; split; [|done].
    unfold chunk_count, maxPerTransaction.
    pose proof (Nat.div_mod_eq idx 30).
    pose proof (Nat.mod_upper_bound idx 30).
    pose proof (Nat.div_mod_eq (length xs + (30 - 1)) 30).
    pose proof (Nat.mod_upper_bound (length xs + (30 - 1)) 30). lia.
  - by apply in_chunk_at.
Qed.

Lemma in_chunk_unique {A : Type} (xs : list A) (idx : nat)
    (c1 c2 : nat * list A) :
  c1 ∈ chunks xs -> c2 ∈ chunks xs ->
  in_chunk idx c1 -> in_chunk idx c2 -> c1 = c2.
Proof.
  intros (k1 & _ & ->)%elem_of_chunks (k2 & _ & ->)%elem_of_chunks.
  intros [_ ->]%in_chunk_at [_ ->]%in_chunk_at. done.
Qed.

(** In a schedule of the chunks, no other goroutine owns an index of the
    chunk at hand. *)
Lemma schedule_others_disjoint {A : Type} (xs : list A)
    (pre post : list (nat * list A)) (c c' : nat * list A) (idx : nat) :
  pre ++ c :: post ≡ₚ chunks xs ->
  c' ∈ pre ++ post -> in_chunk idx c -> ~ in_chunk idx c'.
Proof.
  intros Hperm Hc' Hin Hin'.
  assert (Hnd : NoDup (pre ++ c :: post)).
  { rewrite Hperm. eapply NoDup_fmap_1, chunks_fst_NoDup. }
  assert (c' = c).
  { apply (in_chunk_unique xs idx); [| |done..]; rewrite <- Hperm.
    - apply elem_of_app. apply elem_of_app in Hc' as [?|?]; [by left|].
      right. by apply list_elem_of_further.
    - apply elem_of_app. right. apply list_elem_of_here. }
  subst c'. apply NoDup_app in Hnd as (_ & Hdisj & Hnd').
  apply NoDup_cons in Hnd' as [Hnotin _].
  apply elem_of_app in Hc' as [Hc'|Hc']; [|done].
  apply (Hdisj c); [done|]. apply list_elem_of_here.
Qed.

(** ** The goroutine of a chunk *)

Lemma record_errs_lookup (l : list nat) (err : error) (m : gmap nat error)
    (idx : nat) :
  record_errs l err m !! idx = if decide (idx ∈ l) then Some err else m !! idx.
Proof.
  unfold record_errs. revert m.
  induction l as [|a l IH]; intros m; cbn [foldl].
  - destruct (decide (idx ∈ [])) as [Hin|]; [|done]. by apply elem_of_nil in Hin.
  - rewrite IH. destruct (decide (idx ∈ l)) as [Hl|Hl].
    + rewrite decide_True; [done|]. by apply list_elem_of_further.
    + destruct (decide (idx = a)) as [->|Hne].
      * rewrite lookup_insert_eq. rewrite decide_True; [done|].
        apply list_elem_of_here.
      * rewrite lookup_insert_ne by done. rewrite decide_False; [done|].
        intros [?|?]%elem_of_cons; done.
Qed.

Lemma elem_of_affectedIndices (i n idx : nat) :
  idx ∈ (fun j => i + j) <$> seq 0 n <-> i <= idx < i + n.
Proof.
  rewrite list_elem_of_fmap. split.
  - intros (j & -> & Hj). apply elem_of_seq in Hj. lia.
  - intros Hr. exists (idx - i). split; [lia|]. apply elem_of_seq. lia.
Qed.

Lemma batch_calls_app (t1 t2 : list event) :
  batch_calls (t1 ++ t2) = batch_calls t1 ++ batch_calls t2.
Proof. unfold batch_calls. apply omap_app. Qed.

Lemma vector_calls_app (t1 t2 : list event) :
  vector_calls (t1 ++ t2) = vector_calls t1 ++ vector_calls t2.
Proof. unfold vector_calls. apply List.filter_app. Qed.

(** ** bolt's [Batch] on the function of a chunk *)

Lemma chunk_tx_eq {A : Type}
    (body : nat -> list A -> batchState -> batchState * option error)
    (i : nat) (batch : list A) (s : list nat * batchState) :
  chunk_tx body i batch s
  = ((s.1 ++ ((fun j => i + j) <$> seq 0 (length batch)),
      (body i batch s.2).1), (body i batch s.2).2).
Proof. unfold chunk_tx. by destruct (body i batch s.2). Qed.

(** The runs that are thrown away: each appends the indices of the chunk
    to [affectedIndices] and leaves the state [retry_runs] describes. *)
Lemma db_Batch_retried {A : Type}
    (body : nat -> list A -> batchState -> batchState * option error)
    (i : nat) (batch : list A) (d : DB) (views : list DB)
    (l : list nat) (st : batchState) :
  exists affected,
    foldl (fun (s' : list nat * batchState) view =>
             ((chunk_tx body i batch (s'.1, with_db view s'.2)).1.1,
              with_db d (chunk_tx body i batch (s'.1, with_db view s'.2)).1.2))
      (l, st) views
    = (affected, retry_runs body i batch d views st)
    /\ forall idx,
         idx ∈ affected
         <-> idx ∈ l \/ (0 < length views /\ i <= idx < i + length batch).
Proof.
  revert l st. induction views as [|view views IH]; intros l st.
  - exists l. split; [done|]. intros idx. cbn [length]. split; [by left|].
    intros [?|[? _]]; [done|lia].
  - cbn [foldl]. rewrite chunk_tx_eq. cbn [fst snd].
    destruct (IH (l ++ ((fun j => i + j) <$> seq 0 (length batch)))
                (with_db d (body i batch (with_db view st)).1))
      as (affected & Heq & Hin).
    exists affected. split; [exact Heq|]. intros idx.
    rewrite Hin, elem_of_app, elem_of_affectedIndices. cbn [length].
    split.
    + intros [[?|?]|[_ ?]]; [by left|right; split; [lia|done]..].
    + intros [?|[_ ?]]; [by left; left|by left; right].
Qed.

(** [Batch] on the function of the chunk [c]: the error it returns, the
    state it leaves, and the indices [affectedIndices] holds when it
    returns, which are those of the chunk when the function was run at
    all and none otherwise. *)
Lemma db_Batch_chunk_tx {A : Type}
    (body : nat -> list A -> batchState -> batchState * option error)
    (c : nat * list A) (st : batchState) :
  exists affected,
    db_Batch (bolt c.1) (chunk_tx body c.1 c.2) ([], st)
    = ((affected, batch_state body c st), batch_outcome body c st)
    /\ forall idx,
         idx ∈ affected <-> 0 < batch_runs (bolt c.1) /\ in_chunk idx c.
Proof.
  destruct (db_Batch_retried body c.1 c.2 (st_db st)
              (batch_retried (bolt c.1)) [] st) as (retried & Heq & Hin).
  unfold db_Batch, batch_state, batch_outcome, batch_result, batch_runs,
    in_chunk.
  fold (retried_state body c st) in Heq.
  cbn [fst snd]. rewrite Heq.
  destruct (batch_begin (bolt c.1)) as [e|].
  - exists retried. split; [done|]. intros idx. rewrite Hin.
    rewrite elem_of_nil, Nat.add_0_r.
    split; [by intros [[]|?]|intros ?; by right].
  - rewrite chunk_tx_eq. cbn [fst snd].
    exists (retried ++ ((fun j => c.1 + j) <$> seq 0 (length c.2))).
    split.
    + destruct (body c.1 c.2 (retried_state body c st)).2 as [err|]; [done|].
      by destruct (batch_commit (bolt c.1)).
    + intros idx. rewrite elem_of_app, Hin, elem_of_affectedIndices.
      rewrite elem_of_nil. split; [|intros [_ ?]; by right].
      intros [[[]|[_ ?]]|?]; (split; [lia|done]).
Qed.

Lemma chunk_goroutine_eq {A : Type}
    (body : nat -> list A -> batchState -> batchState * option error)
    (c : nat * list A) (st : batchState) :
  exists affected,
    chunk_goroutine body c st
    = match batch_outcome body c st with
      | None =>
          log (EvBatch c.1 (length c.2) None) (batch_state body c st)
      | Some err =>
          with_errs
            (record_errs affected (errors_Wrap err "bolt batch tx")
               (st_errs (batch_state body c st)))
            (log (EvBatch c.1 (length c.2) (Some err))
               (batch_state body c st))
      end
    /\ forall idx,
         idx ∈ affected <-> 0 < batch_runs (bolt c.1) /\ in_chunk idx c.
Proof.
  destruct (db_Batch_chunk_tx body c st) as (affected & Heq & Hin).
  exists affected. split; [|exact Hin].
  destruct c as [i batch]. unfold chunk_goroutine. cbn [fst snd] in Heq.
  rewrite Heq. by destruct (batch_outcome body (i, batch) st).
Qed.

Lemma batch_runs_begun {D : Type} (b : bolt_batch D) :
  batch_begin b = None -> 0 < batch_runs b.
Proof. unfold batch_runs. intros ->. lia. Qed.

Lemma retry_runs_db {A : Type}
    (body : nat -> list A -> batchState -> batchState * option error)
    (i : nat) (batch : list A) (d : DB) (views : list DB) (st : batchState) :
  st_db st = d -> st_db (retry_runs body i batch d views st) = d.
Proof.
  unfold retry_runs. revert st.
  induction views as [|view views IH]; intros st Hd; [done|].
  cbn [foldl]. by apply IH.
Qed.

Lemma retried_state_db {A : Type}
    (body : nat -> list A -> batchState -> batchState * option error)
    (c : nat * list A) (st : batchState) :
  st_db (retried_state body c st) = st_db st.
Proof. by apply retry_runs_db. Qed.

Section Goroutine.

Context {A : Type}.
Variable body : nat -> list A -> batchState -> batchState * option error.
Hypothesis body_framed : framed body.
Hypothesis body_db : db_determined body.

(** A property of the state that every step of the goroutine keeps is
    kept by the goroutine, however often bolt runs the function. *)
Lemma retry_runs_invariant (P : batchState -> Prop) (i : nat)
    (batch : list A) (d : DB) (views : list DB) (st : batchState) :
  (forall s d', P s -> P (with_db d' s)) ->
  (forall s, P s -> P (body i batch s).1) ->
  P st -> P (retry_runs body i batch d views st).
Proof.
  intros Hdb Hbody. unfold retry_runs. revert st.
  induction views as [|view views IH]; intros st HP; [done|].
  cbn [foldl]. by apply IH, Hdb, Hbody, Hdb.
Qed.

Lemma batch_state_invariant (P : batchState -> Prop) (c : nat * list A)
    (st : batchState) :
  (forall s d', P s -> P (with_db d' s)) ->
  (forall s, P s -> P (body c.1 c.2 s).1) ->
  P st -> P (batch_state body c st).
Proof.
  intros Hdb Hbody HP.
  assert (P (retried_state body c st))
    by (unfold retried_state; by apply retry_runs_invariant).
  unfold batch_state. destruct (batch_begin (bolt c.1)); [done|].
  destruct (batch_outcome body c st); [apply Hdb|]; by apply Hbody.
Qed.

Lemma goroutine_invariant (P : batchState -> Prop) (c : nat * list A)
    (st : batchState) :
  (forall s d', P s -> P (with_db d' s)) ->
  (forall s m, P s -> P (with_errs m s)) ->
  (forall s r, P s -> P (log (EvBatch c.1 (length c.2) r) s)) ->
  (forall s, P s -> P (body c.1 c.2 s).1) ->
  P st -> P (chunk_goroutine body c st).
Proof.
  intros Hdb Herrs Hlog Hbody HP.
  destruct (chunk_goroutine_eq body c st) as (affected & -> & _).
  assert (P (batch_state body c st)) by by apply batch_state_invariant.
  destruct (batch_outcome body c st); [apply Herrs|]; by apply Hlog.
Qed.

Lemma batch_state_errs (c : nat * list A) (st : batchState) :
  st_errs (batch_state body c st) = st_errs st.
Proof.
  apply (batch_state_invariant (fun s => st_errs s = st_errs st)); [done| |done].
  intros s <-. apply body_framed.
Qed.

Lemma batch_state_vectorIndex (c : nat * list A) (st : batchState) :
  st_vectorIndex (batch_state body c st) = st_vectorIndex st.
Proof.
  apply (batch_state_invariant
           (fun s => st_vectorIndex s = st_vectorIndex st)); [done| |done].
  intros s <-. apply body_framed.
Qed.

Lemma batch_state_trace (c : nat * list A) (st : batchState) :
  exists evs,
    st_trace (batch_state body c st) = st_trace st ++ evs /\
    batch_calls evs = [] /\ vector_calls evs = [].
Proof.
  apply (batch_state_invariant
           (fun s => exists evs,
              st_trace s = st_trace st ++ evs /\
              batch_calls evs = [] /\ vector_calls evs = [])).
  - done.
  - intros s (evs & Ht & Hb & Hv).
    destruct (body_framed c.1 c.2 s) as (_ & _ & evs' & Ht' & Hb' & Hv').
    exists (evs ++ evs'). rewrite Ht', Ht, <- app_assoc.
    split; [done|]. by rewrite batch_calls_app, vector_calls_app, Hb, Hb', Hv, Hv'.
  - exists []. by rewrite app_nil_r.
Qed.

(** The error [Batch] returns is decided by the database the goroutine
    finds: the runs bolt throws away do not count. *)
Lemma batch_outcome_db (c : nat * list A) (st : batchState) :
  batch_outcome body c st = batch_result (bolt c.1) (body c.1 c.2 st).2.
Proof.
  unfold batch_outcome. f_equal.
  apply body_db, retried_state_db.
Qed.

Lemma batch_state_db (c : nat * list A) (st : batchState) :
  st_db (batch_state body c st)
  = match batch_outcome body c st with
    | Some _ => st_db st
    | None => st_db (body c.1 c.2 st).1
    end.
Proof.
  unfold batch_state.
  destruct (batch_begin (bolt c.1)) as [e|] eqn:Hbegin.
  - unfold batch_outcome, batch_result. rewrite Hbegin.
    apply retried_state_db.
  - destruct (batch_outcome body c st); [done|].
    apply body_db, retried_state_db.
Qed.

(** *** The error map *)

Lemma goroutine_errs_own (c : nat * list A) (st : batchState) (idx : nat)
    (e : error) :
  batch_outcome body c st = Some e -> 0 < batch_runs (bolt c.1) ->
  in_chunk idx c ->
  st_errs (chunk_goroutine body c st) !! idx
  = Some (errors_Wrap e "bolt batch tx").
Proof.
  intros Hr Hruns Hin.
  destruct (chunk_goroutine_eq body c st) as (affected & -> & Haff).
  rewrite Hr. cbn. rewrite record_errs_lookup, decide_True; [done|].
  by apply Haff.
Qed.

Lemma goroutine_errs_kept (c : nat * list A) (st : batchState) (idx : nat) :
  batch_outcome body c st = None \/ batch_runs (bolt c.1) = 0
  \/ ~ in_chunk idx c ->
  st_errs (chunk_goroutine body c st) !! idx = st_errs st !! idx.
Proof.
  intros Hcase.
  destruct (chunk_goroutine_eq body c st) as (affected & -> & Haff).
  destruct (batch_outcome body c st) as [e|]; cbn.
  - rewrite record_errs_lookup, decide_False; [by rewrite batch_state_errs|].
    rewrite Haff. intros [Hruns Hin].
    destruct Hcase as [?|[?|?]]; [done|lia|done].
  - by rewrite batch_state_errs.
Qed.

Lemma goroutine_errs_other (c : nat * list A) (st : batchState) (idx : nat) :
  ~ in_chunk idx c ->
  st_errs (chunk_goroutine body c st) !! idx = st_errs st !! idx.
Proof. intros Hout. apply goroutine_errs_kept. by right; right. Qed.

Lemma goroutine_errs_fail (c : nat * list A) (st : batchState) (idx : nat)
    (err : error) :
  batch_begin (bolt c.1) = None ->
  (body c.1 c.2 st).2 = Some err -> in_chunk idx c ->
  st_errs (chunk_goroutine body c st) !! idx
  = Some (errors_Wrap err "bolt batch tx").
Proof.
  intros Hbegin Hr Hin. apply goroutine_errs_own; [|by apply batch_runs_begun|done].
  rewrite batch_outcome_db. unfold batch_result. by rewrite Hbegin, Hr.
Qed.

Lemma goroutine_errs_commit (c : nat * list A) (st : batchState) :
  batch_outcome body c st = None ->
  st_errs (chunk_goroutine body c st) = st_errs st.
Proof.
  intros Hr. apply map_eq. intros idx. apply goroutine_errs_kept. by left.
Qed.

(** *** The database, the maps and the trace *)

Lemma goroutine_db_result (c : nat * list A) (st : batchState) :
  st_db (chunk_goroutine body c st)
  = match batch_outcome body c st with
    | Some _ => st_db st
    | None => st_db (body c.1 c.2 st).1
    end.
Proof.
  destruct (chunk_goroutine_eq body c st) as (affected & -> & _).
  rewrite <- batch_state_db. by destruct (batch_outcome body c st).
Qed.

Lemma goroutine_db_fail (c : nat * list A) (st : batchState) (err : error) :
  batch_outcome body c st = Some err ->
  st_db (chunk_goroutine body c st) = st_db st.
Proof. intros Hr. by rewrite goroutine_db_result, Hr. Qed.

Lemma goroutine_db_commit (c : nat * list A) (st : batchState) :
  batch_outcome body c st = None ->
  st_db (chunk_goroutine body c st) = st_db (body c.1 c.2 st).1.
Proof. intros Hr. by rewrite goroutine_db_result, Hr. Qed.

Lemma goroutine_db (c : nat * list A) (st1 st2 : batchState) :
  st_db st1 = st_db st2 ->
  st_db (chunk_goroutine body c st1) = st_db (chunk_goroutine body c st2).
Proof.
  intros Hdb. rewrite !goroutine_db_result, !batch_outcome_db.
  destruct (body_db c.1 c.2 st1 st2 Hdb) as [Hd ->].
  by destruct (batch_result _ _).
Qed.

Lemma goroutine_docIDs (c : nat * list A) (st : batchState) :
  st_docIDs (chunk_goroutine body c st) = st_docIDs (batch_state body c st).
Proof.
  destruct (chunk_goroutine_eq body c st) as (affected & -> & _).
  by destruct (batch_outcome body c st).
Qed.

Lemma goroutine_vectorIndex (c : nat * list A) (st : batchState) :
  st_vectorIndex (chunk_goroutine body c st) = st_vectorIndex st.
Proof.
  destruct (chunk_goroutine_eq body c st) as (affected & -> & _).
  rewrite <- (batch_state_vectorIndex c st).
  by destruct (batch_outcome body c st).
Qed.

Lemma goroutine_trace (c : nat * list A) (st : batchState) :
  st_trace (chunk_goroutine body c st)
  = st_trace (batch_state body c st)
    ++ [EvBatch c.1 (length c.2) (batch_outcome body c st)].
Proof.
  destruct (chunk_goroutine_eq body c st) as (affected & -> & _).
  by destruct (batch_outcome body c st).
Qed.

Lemma goroutine_batch_calls (c : nat * list A) (st : batchState) :
  batch_calls (st_trace (chunk_goroutine body c st))
  = batch_calls (st_trace st) ++ [(c.1, length c.2)].
Proof.
  rewrite goroutine_trace, batch_calls_app.
  destruct (batch_state_trace c st) as (evs & Ht & Hb & _).
  rewrite Ht, batch_calls_app, Hb, app_nil_r. done.
Qed.

Lemma goroutine_vector_calls (c : nat * list A) (st : batchState) :
  vector_calls (st_trace (chunk_goroutine body c st))
  = vector_calls (st_trace st).
Proof.
  rewrite goroutine_trace, vector_calls_app.
  destruct (batch_state_trace c st) as (evs & Ht & _ & Hv).
  rewrite Ht, vector_calls_app, Hv. cbn. by rewrite !app_nil_r.
Qed.

(** A relation between two states of the call that makes their
    databases equal and that every step of the goroutine keeps is kept
    by the goroutine. *)
Lemma retry_runs_related (R : batchState -> batchState -> Prop) (i : nat)
    (batch : list A) (d : DB) (views : list DB) (st1 st2 : batchState) :
  (forall s1 s2 d', R s1 s2 -> R (with_db d' s1) (with_db d' s2)) ->
  (forall s1 s2, R s1 s2 -> R (body i batch s1).1 (body i batch s2).1) ->
  R st1 st2 ->
  R (retry_runs body i batch d views st1) (retry_runs body i batch d views st2).
Proof.
  intros Hdb Hbody. unfold retry_runs. revert st1 st2.
  induction views as [|view views IH]; intros st1 st2 HR; [done|].
  cbn [foldl]. by apply IH, Hdb, Hbody, Hdb.
Qed.

Lemma goroutine_related (R : batchState -> batchState -> Prop)
    (c : nat * list A) (st1 st2 : batchState) :
  (forall s1 s2, R s1 s2 -> st_db s1 = st_db s2) ->
  (forall s1 s2 d', R s1 s2 -> R (with_db d' s1) (with_db d' s2)) ->
  (forall s1 s2 m1 m2, R s1 s2 -> R (with_errs m1 s1) (with_errs m2 s2)) ->
  (forall s1 s2 r, R s1 s2 ->
     R (log (EvBatch c.1 (length c.2) r) s1)
       (log (EvBatch c.1 (length c.2) r) s2)) ->
  (forall s1 s2, R s1 s2 -> R (body c.1 c.2 s1).1 (body c.1 c.2 s2).1) ->
  R st1 st2 ->
  R (chunk_goroutine body c st1) (chunk_goroutine body c st2).
Proof.
  intros HRdb Hdb Herrs Hlog Hbody HR.
  destruct (chunk_goroutine_eq body c st1) as (affected1 & -> & _).
  destruct (chunk_goroutine_eq body c st2) as (affected2 & -> & _).
  assert (Hout : batch_outcome body c st1 = batch_outcome body c st2).
  { rewrite !batch_outcome_db. f_equal. by apply body_db, HRdb. }
  assert (Hretried : R (retried_state body c st1) (retried_state body c st2)).
  { unfold retried_state. rewrite (HRdb st1 st2 HR).
    by apply retry_runs_related. }
  assert (Hstate : R (batch_state body c st1) (batch_state body c st2)).
  { unfold batch_state. rewrite <- Hout, (HRdb st1 st2 HR).
    destruct (batch_begin (bolt c.1)); [done|].
    destruct (batch_outcome body c st1); [apply Hdb|]; by apply Hbody. }
  rewrite <- Hout.
  destruct (batch_outcome body c st1); [apply Herrs|]; by apply Hlog.
Qed.

(** *** A schedule of chunk goroutines *)

Lemma run_chunks_errs_other (l : list (nat * list A)) (st : batchState)
    (idx : nat) :
  (forall c, c ∈ l -> ~ in_chunk idx c) ->
  st_errs (run (chunk_goroutine body) l st) !! idx = st_errs st !! idx.
Proof.
  unfold run. revert st. induction l as [|c l IH]; intros st Hout; [done|].
  cbn [foldl]. rewrite IH.
  - apply goroutine_errs_other, Hout, list_elem_of_here.
  - intros c' Hc'. by apply Hout, list_elem_of_further.
Qed.

Lemma run_chunks_vectorIndex (l : list (nat * list A)) (st : batchState) :
  st_vectorIndex (run (chunk_goroutine body) l st) = st_vectorIndex st.
Proof.
  unfold run. revert st. induction l as [|c l IH]; intros st; [done|].
  cbn [foldl]. by rewrite IH, goroutine_vectorIndex.
Qed.

Lemma run_chunks_batch_calls (l : list (nat * list A)) (st : batchState) :
  batch_calls (st_trace (run (chunk_goroutine body) l st))
  = batch_calls (st_trace st) ++ ((fun c => (c.1, length c.2)) <$> l).
Proof.
  unfold run. revert st. induction l as [|c l IH]; intros st.
  - cbn. by rewrite app_nil_r.
  - cbn [foldl]. rewrite IH, goroutine_batch_calls, <- app_assoc. done.
Qed.

Lemma run_chunks_vector_calls (l : list (nat * list A)) (st : batchState) :
  vector_calls (st_trace (run (chunk_goroutine body) l st))
  = vector_calls (st_trace st).
Proof.
  unfold run. revert st. induction l as [|c l IH]; intros st; [done|].
  cbn [foldl]. by rewrite IH, goroutine_vector_calls.
Qed.

Lemma run_chunks_db (l : list (nat * list A)) (st1 st2 : batchState) :
  st_db st1 = st_db st2 ->
  st_db (run (chunk_goroutine body) l st1)
  = st_db (run (chunk_goroutine body) l st2).
Proof.
  unfold run. revert st1 st2.
  induction l as [|c l IH]; intros st1 st2 Hdb; [done|].
  cbn [foldl]. by apply IH, goroutine_db.
Qed.

End Goroutine.

Lemma run_app {J : Type} (g : J -> batchState -> batchState)
    (l1 l2 : list J) (st : batchState) :
  run g (l1 ++ l2) st = run g l2 (run g l1 st).
Proof. unfold run. apply foldl_app. Qed.

(** ** The functions run inside the transaction *)

Lemma putObjectsInTx_framed : framed (fun _ : nat => putObjectsInTx).
Proof.
  intros _ batch. induction batch as [|object batch IH]; intros st.
  - cbn. repeat split; try done. exists []. by rewrite app_nil_r.
  - cbn [putObjectsInTx].
    destruct (uuid_Parse (Object_ID object)) as [uuidParsed|err].
    2:{ cbn. repeat split; try done. exists []. by rewrite app_nil_r. }
    destruct (uuid_MarshalBinary uuidParsed) as [idBytes|err].
    2:{ cbn. repeat split; try done. exists []. by rewrite app_nil_r. }
    destruct (putObjectInTx (st_db st) object idBytes) as [tx [status|err]].
    + match goal with
      | |- context [putObjectsInTx batch ?s] =>
          destruct (IH s) as (He & Hv & evs & Ht & Hb & Hc)
      end.
      rewrite He, Hv, Ht. cbn. repeat split; try done.
      exists (EvPutObjectInTx object :: evs).
      split; [cbn; by rewrite <- app_assoc|]. split; [exact Hb|exact Hc].
    + cbn. repeat split; try done. by exists [EvPutObjectInTx object].
Qed.

Lemma mergeReferencesInTx_framed : framed mergeReferencesInTx.
Proof.
  intros i batch. revert i.
  induction batch as [|ref batch IH]; intros i st.
  - cbn. repeat split; try done. exists []. by rewrite app_nil_r.
  - cbn [mergeReferencesInTx].
    destruct (uuid_Parse (From_TargetID (From ref))) as [uuidParsed|err].
    2:{ cbn. repeat split; try done. exists []. by rewrite app_nil_r. }
    destruct (uuid_MarshalBinary uuidParsed) as [idBytes|err].
    2:{ cbn. repeat split; try done. exists []. by rewrite app_nil_r. }
    destruct (mergeObjectInTx (st_db st) _ idBytes) as [tx [err|]].
    + cbn. repeat split; try done. by eexists [_].
    + match goal with
      | |- context [mergeReferencesInTx (S i) batch ?s] =>
          destruct (IH (S i) s) as (He & Hv & evs & Ht & Hb & Hc)
      end.
      rewrite He, Hv, Ht. cbn. repeat split; try done.
      eexists (_ :: evs).
      split; [cbn; by rewrite <- app_assoc|]. split; [exact Hb|exact Hc].
Qed.

(** What a transaction does to the database, and whether it fails, is
    decided by the database it starts from. *)
Lemma putObjectsInTx_db (batch : list storobj_Object) (st1 st2 : batchState) :
  st_db st1 = st_db st2 ->
  st_db (putObjectsInTx batch st1).1 = st_db (putObjectsInTx batch st2).1 /\
  (putObjectsInTx batch st1).2 = (putObjectsInTx batch st2).2.
Proof.
  revert st1 st2. induction batch as [|object batch IH]; intros st1 st2 Hdb.
  - done.
  - cbn [putObjectsInTx]. rewrite <- Hdb.
    destruct (uuid_Parse (Object_ID object)) as [uuidParsed|err]; [|done].
    destruct (uuid_MarshalBinary uuidParsed) as [idBytes|err]; [|done].
    destruct (putObjectInTx (st_db st1) object idBytes) as [tx [status|err]];
      [|done].
    by apply IH.
Qed.

Lemma putObjectsInTx_db_determined :
  db_determined (fun _ : nat => putObjectsInTx).
Proof. intros _ batch st1 st2. apply putObjectsInTx_db. Qed.

Lemma put_goroutine_db (c : nat * list storobj_Object) (st1 st2 : batchState) :
  st_db st1 = st_db st2 ->
  st_db (put_goroutine c st1) = st_db (put_goroutine c st2).
Proof.
  unfold put_goroutine. apply goroutine_db, putObjectsInTx_db_determined.
Qed.

Lemma run_puts_db (l : list (nat * list storobj_Object))
    (st1 st2 : batchState) :
  st_db st1 = st_db st2 ->
  st_db (run put_goroutine l st1) = st_db (run put_goroutine l st2).
Proof.
  unfold run. revert st1 st2.
  induction l as [|c l IH]; intros st1 st2 Hdb; [done|].
  cbn [foldl]. by apply IH, put_goroutine_db.
Qed.

(** ** The goroutines of the second phase *)

Lemma add_goroutine_db (job : storobj_Object * Z * nat) (st : batchState) :
  st_db (add_goroutine job st) = st_db st.
Proof.
  destruct job as [[object id] index]. unfold add_goroutine.
  by destruct (vectorIndex_Add _ _ _) as [v [err|]].
Qed.

Lemma add_goroutine_docIDs (job : storobj_Object * Z * nat) (st : batchState) :
  st_docIDs (add_goroutine job st) = st_docIDs st.
Proof.
  destruct job as [[object id] index]. unfold add_goroutine.
  by destruct (vectorIndex_Add _ _ _) as [v [err|]].
Qed.

Lemma add_goroutine_batch_calls (job : storobj_Object * Z * nat)
    (st : batchState) :
  batch_calls (st_trace (add_goroutine job st)) = batch_calls (st_trace st).
Proof.
  destruct job as [[object id] index]. unfold add_goroutine.
  destruct (vectorIndex_Add _ _ _) as [v [err|]]; cbn;
    rewrite batch_calls_app; cbn; by rewrite app_nil_r.
Qed.

Lemma add_goroutine_errs_other (job : storobj_Object * Z * nat)
    (st : batchState) (idx : nat) :
  job.2 <> idx ->
  st_errs (add_goroutine job st) !! idx = st_errs st !! idx.
Proof.
  destruct job as [[object id] index]. unfold add_goroutine. cbn [snd].
  intros Hne.
  destruct (vectorIndex_Add _ _ _) as [v [err|]]; cbn; [|done].
  by rewrite lookup_insert_ne.
Qed.

(** The goroutine of one index calls [Add] once, with the [docID] and
    the vector it was given, and records the error of that call, if any,
    at its index. *)
Lemma add_goroutine_own (object : storobj_Object) (id : Z) (index : nat)
    (st : batchState) :
  exists r,
    r = (vectorIndex_Add (st_vectorIndex st) id (Object_Vector object)).2 /\
    st_trace (add_goroutine (object, id, index) st)
    = st_trace st ++ [EvVectorIndexAdd index id (Object_Vector object) r] /\
    st_errs (add_goroutine (object, id, index) st) !! index
    = match r with
      | Some err => Some (errors_Wrap err "insert to vector index")
      | None => st_errs st !! index
      end.
Proof.
  unfold add_goroutine.
  destruct (vectorIndex_Add _ _ _) as [v [err|]]; eexists; cbn;
    (split; [done|split; [done|]]); [|done].
  by rewrite lookup_insert_eq.
Qed.

Lemma add_goroutine_trace_mono (job : storobj_Object * Z * nat)
    (st : batchState) (ev : event) :
  ev ∈ st_trace st -> ev ∈ st_trace (add_goroutine job st).
Proof.
  destruct job as [[object id] index]. intros Hev.
  destruct (add_goroutine_own object id index st) as (r & _ & -> & _).
  apply elem_of_app. by left.
Qed.

Lemma run_adds_db (l : list (storobj_Object * Z * nat)) (st : batchState) :
  st_db (run add_goroutine l st) = st_db st.
Proof.
  unfold run. revert st. induction l as [|job l IH]; intros st; [done|].
  cbn [foldl]. by rewrite IH, add_goroutine_db.
Qed.

Lemma run_adds_docIDs (l : list (storobj_Object * Z * nat)) (st : batchState) :
  st_docIDs (run add_goroutine l st) = st_docIDs st.
Proof.
  unfold run. revert st. induction l as [|job l IH]; intros st; [done|].
  cbn [foldl]. by rewrite IH, add_goroutine_docIDs.
Qed.

Lemma run_adds_batch_calls (l : list (storobj_Object * Z * nat))
    (st : batchState) :
  batch_calls (st_trace (run add_goroutine l st)) = batch_calls (st_trace st).
Proof.
  unfold run. revert st. induction l as [|job l IH]; intros st; [done|].
  cbn [foldl]. by rewrite IH, add_goroutine_batch_calls.
Qed.

Lemma run_adds_errs_other (l : list (storobj_Object * Z * nat))
    (st : batchState) (idx : nat) :
  idx ∉ l.*2 ->
  st_errs (run add_goroutine l st) !! idx = st_errs st !! idx.
Proof.
  unfold run. revert st. induction l as [|job l IH]; intros st Hout; [done|].
  cbn [foldl]. rewrite fmap_cons in Hout.
  apply not_elem_of_cons in Hout as [Hne Hout].
  rewrite IH by done. by apply add_goroutine_errs_other.
Qed.

Lemma run_adds_trace_mono (l : list (storobj_Object * Z * nat))
    (st : batchState) (ev : event) :
  ev ∈ st_trace st -> ev ∈ st_trace (run add_goroutine l st).
Proof.
  unfold run. revert st. induction l as [|job l IH]; intros st Hev; [done|].
  cbn [foldl]. by apply IH, add_goroutine_trace_mono.
Qed.

(** In a schedule where every index has one goroutine, the goroutine of
    [index] makes its call and its outcome is what the map holds at
    [index] afterwards. *)
Lemma run_adds_own (l : list (storobj_Object * Z * nat)) (st : batchState)
    (object : storobj_Object) (id : Z) (index : nat) :
  NoDup l.*2 -> (object, id, index) ∈ l ->
  exists r,
    EvVectorIndexAdd index id (Object_Vector object) r
      ∈ st_trace (run add_goroutine l st) /\
    st_errs (run add_goroutine l st) !! index
    = match r with
      | Some err => Some (errors_Wrap err "insert to vector index")
      | None => st_errs st !! index
      end.
Proof.
  revert st. induction l as [|job l IH]; intros st Hnd Hin.
  - by apply elem_of_nil in Hin.
  - rewrite fmap_cons in Hnd. apply NoDup_cons in Hnd as [Hfresh Hnd].
    change (run add_goroutine (job :: l) st)
      with (run add_goroutine l (add_goroutine job st)).
    apply elem_of_cons in Hin as [<-|Hin].
    + destruct (add_goroutine_own object id index st) as (r & _ & Ht & He).
      exists r. split.
      * apply run_adds_trace_mono. rewrite Ht. apply elem_of_app. right.
        apply list_elem_of_here.
      * by rewrite run_adds_errs_other.
    + destruct (IH (add_goroutine job st) Hnd Hin) as (r & Hev & He).
      exists r. split; [done|]. rewrite He.
      destruct r; [done|]. apply add_goroutine_errs_other.
      intros Heq. apply Hfresh. rewrite Heq.
      apply (list_elem_of_fmap_2 snd) in Hin. done.
Qed.

(** *** The jobs of the second phase *)

Lemma elem_of_add_jobs (k : nat) (objects : list storobj_Object)
    (errs : gmap nat error) (docIDs : gmap string Z)
    (object : storobj_Object) (id : Z) (index : nat) :
  (object, id, index) ∈ add_jobs k objects errs docIDs <->
  k <= index /\ objects !! (index - k) = Some object /\
  errs !! index = None /\
  id = default 0%Z (docIDs !! Object_ID object).
Proof.
  revert k. induction objects as [|o objects IH]; intros k; cbn [add_jobs].
  - split; [by intros ?%elem_of_nil|]. by intros (_ & ? & _).
  - assert (Htail : (object, id, index) ∈ add_jobs (S k) objects errs docIDs
                    <-> S k <= index /\ (o :: objects) !! (index - k) = Some object
                        /\ errs !! index = None
                        /\ id = default 0%Z (docIDs !! Object_ID object)).
    { rewrite IH. split.
      - intros (Hk & Hl & He & Hi). repeat split; try done.
        replace (index - k) with (S (index - S k)) by lia. done.
      - intros (Hk & Hl & He & Hi). repeat split; try done.
        replace (index - k) with (S (index - S k)) in Hl by lia. done. }
    destruct (errs !! k) as [e|] eqn:Hek.
    + rewrite Htail. split.
      * intros (? & ? & ? & ?). repeat split; try done. lia.
      * intros (Hk & Hl & He & Hi). repeat split; try done.
        destruct (decide (index = k)) as [->|]; [congruence|lia].
    + rewrite elem_of_cons, Htail. split.
      * intros [Heq|(? & ? & ? & ?)].
        -- inversion Heq; subst. rewrite Nat.sub_diag. done.
        -- repeat split; try done. lia.
      * intros (Hk & Hl & He & Hi).
        destruct (decide (index = k)) as [->|].
        -- left. rewrite Nat.sub_diag in Hl. cbn in Hl. by simplify_eq.
        -- right. repeat split; try done. lia.
Qed.

Lemma add_jobs_NoDup (k : nat) (objects : list storobj_Object)
    (errs : gmap nat error) (docIDs : gmap string Z) :
  NoDup (add_jobs k objects errs docIDs).*2.
Proof.
  revert k. induction objects as [|o objects IH]; intros k; cbn [add_jobs].
  - constructor.
  - destruct (errs !! k); [apply IH|].
    rewrite fmap_cons. apply NoDup_cons. split; [|apply IH].
    cbn [snd]. intros ([[object id] index] & Heq & Hin)%list_elem_of_fmap.
    cbn [snd] in Heq. subst index.
    apply elem_of_add_jobs in Hin. lia.
Qed.

(** ** A scheduled first phase *)

Section Schedule.

Context {A : Type}.
Variable body : nat -> list A -> batchState -> batchState * option error.
Hypothesis body_framed : framed body.
Hypothesis body_db : db_determined body.

Variable xs : list A.
Variables (pre post : list (nat * list A)) (c : nat * list A).
Hypothesis scheduled : pre ++ c :: post ≡ₚ chunks xs.

Lemma scheduled_chunk : c ∈ chunks xs.
Proof. rewrite <- scheduled. apply elem_of_app. right. apply list_elem_of_here. Qed.

(** The items of a scheduled chunk are the items of the input at the
    indices the chunk owns. *)
Lemma scheduled_chunk_lookup (j : nat) (x : A) :
  c.2 !! j = Some x -> in_chunk (c.1 + j) c /\ xs !! (c.1 + j) = Some x.
Proof.
  intros Hj. pose proof (lookup_lt_Some _ _ _ Hj) as Hlt.
  split; [unfold in_chunk; lia|].
  destruct (proj1 (elem_of_chunks xs c) scheduled_chunk) as (k & _ & Hc).
  rewrite Hc in Hj, Hlt |- *. cbn [fst chunk_at].
  rewrite <- chunk_at_lookup; [done|].
  rewrite chunk_at_length in Hlt. lia.
Qed.

Lemma scheduled_in_chunk_lookup (idx : nat) :
  in_chunk idx c -> c.2 !! (idx - c.1) = xs !! idx /\ idx < length xs.
Proof.
  intros Hin.
  destruct (proj1 (elem_of_chunks xs c) scheduled_chunk) as (k & _ & Hc).
  rewrite Hc in Hin |- *. pose proof Hin as [Hlo Hhi].
  rewrite chunk_at_length in Hhi. cbn [fst chunk_at] in Hlo, Hhi |- *.
  split; [|lia].
  replace idx with (k * maxPerTransaction + (idx - k * maxPerTransaction))
    at 2 by lia.
  rewrite <- chunk_at_lookup; [done|lia].
Qed.

(** What the map holds at an index of [c] when the schedule has run:
    the error [Batch] returned to the goroutine of [c], provided bolt
    ran the function of [c] at all. *)
Lemma scheduled_errs_own (st : batchState) (idx : nat) (e : error) :
  batch_outcome body c (run (chunk_goroutine body) pre st) = Some e ->
  0 < batch_runs (bolt c.1) ->
  in_chunk idx c ->
  st_errs (run (chunk_goroutine body) (pre ++ c :: post) st) !! idx
  = Some (errors_Wrap e "bolt batch tx").
Proof.
  intros Hr Hruns Hin. rewrite run_app.
  change (run (chunk_goroutine body) (c :: post) ?s)
    with (run (chunk_goroutine body) post (chunk_goroutine body c s)).
  rewrite run_chunks_errs_other; [by apply goroutine_errs_own|done|].
  intros c' Hc'. apply (schedule_others_disjoint xs pre post c); [done| |done].
  apply elem_of_app. by right.
Qed.

Lemma scheduled_errs_kept (st : batchState) (idx : nat) :
  batch_outcome body c (run (chunk_goroutine body) pre st) = None
  \/ batch_runs (bolt c.1) = 0 ->
  in_chunk idx c ->
  st_errs (run (chunk_goroutine body) (pre ++ c :: post) st) !! idx
  = st_errs st !! idx.
Proof.
  intros Hr Hin. rewrite run_app.
  change (run (chunk_goroutine body) (c :: post) ?s)
    with (run (chunk_goroutine body) post (chunk_goroutine body c s)).
  rewrite run_chunks_errs_other; [|done|].
  - rewrite goroutine_errs_kept;
      [|done|destruct Hr; [by left|by right; left]].
    apply run_chunks_errs_other; [done|].
    intros c' Hc'. apply (schedule_others_disjoint xs pre post c); [done| |done].
    apply elem_of_app. by left.
  - intros c' Hc'. apply (schedule_others_disjoint xs pre post c); [done| |done].
    apply elem_of_app. by right.
Qed.

Lemma scheduled_errs_fail (st : batchState) (idx : nat) (err : error) :
  batch_begin (bolt c.1) = None ->
  (body c.1 c.2 (run (chunk_goroutine body) pre st)).2 = Some err ->
  in_chunk idx c ->
  st_errs (run (chunk_goroutine body) (pre ++ c :: post) st) !! idx
  = Some (errors_Wrap err "bolt batch tx").
Proof.
  intros Hbegin Hr Hin.
  apply scheduled_errs_own; [|by apply batch_runs_begun|done].
  rewrite batch_outcome_db by done. unfold batch_result.
  by rewrite Hbegin, Hr.
Qed.

Lemma scheduled_errs_commit (st : batchState) (idx : nat) :
  batch_outcome body c (run (chunk_goroutine body) pre st) = None ->
  in_chunk idx c ->
  st_errs (run (chunk_goroutine body) (pre ++ c :: post) st) !! idx
  = st_errs st !! idx.
Proof. intros Hr. apply scheduled_errs_kept. by left. Qed.

End Schedule.

(** ** Batch atomicity per chunk *)

(** What [Batch] returns to the goroutine of a chunk of a batch put
    whose transaction function returns [r] on the database the goroutine
    finds. *)
Lemma put_batch_outcome (c : nat * list storobj_Object) (st : batchState) :
  batch_outcome (fun _ => putObjectsInTx) c st
  = batch_result (bolt c.1) (putObjectsInTx c.2 st).2.
Proof. apply batch_outcome_db, putObjectsInTx_db_determined. Qed.

(** The error of an aborted chunk is still in the map when the call
    returns: the second phase skips the indices that hold an error. *)
Lemma aborted_chunk_errs_kept (ctx : Context)
    (objects : list storobj_Object) (d : DB) (v : VectorIndex)
    (pre post : list (nat * list storobj_Object))
    (c : nat * list storobj_Object) (e : error) :
  schedule_puts (chunks objects) = pre ++ c :: post ->
  batch_outcome (fun _ => putObjectsInTx) c
    (run put_goroutine pre (init_state d v)) = Some e ->
  0 < batch_runs (bolt c.1) ->
  forall j object,
    c.2 !! j = Some object ->
    st_errs (putObjectBatch ctx objects d v) !! (c.1 + j)
    = Some (errors_Wrap e "bolt batch tx").
Proof.
  intros Hsched Hfail Hruns j object Hj.
  assert (Hperm : pre ++ c :: post ≡ₚ chunks objects).
  { rewrite <- Hsched. apply schedule_puts_perm. }
  destruct (scheduled_chunk_lookup objects pre post c Hperm j object Hj)
    as [Hin Hobj].
  assert (He1 : st_errs (putObjectBatch_phase1 objects (init_state d v))
                  !! (c.1 + j) = Some (errors_Wrap e "bolt batch tx")).
  { unfold putObjectBatch_phase1. rewrite Hsched.
    by apply (scheduled_errs_own (fun _ => putObjectsInTx)
                putObjectsInTx_framed objects). }
  unfold putObjectBatch. rewrite run_adds_errs_other; [done|].
  rewrite (fmap_Permutation _ _ _ (schedule_adds_perm _)).
  intros ([[o id] index] & Heq & Hjob)%list_elem_of_fmap.
  cbn [snd] in Heq. subst index.
  apply elem_of_add_jobs in Hjob as (_ & _ & Hnone & _). congruence.
Qed.

(** C1. Take any schedule of the chunk goroutines of a batch object put
    and any chunk [c] in it whose transaction function, in the
    transaction bolt has begun to decide the call, returns an error
    [err] (the error of the first item that fails).  Then bolt rolls the
    transaction back: the database after the goroutine of [c] is the
    database before it, and the database at the end of the call is the
    one the same schedule produces without [c], so that nothing the
    chunk wrote is in the object store.  And the returned map holds
    [err], wrapped with "bolt batch tx", at every original index of the
    chunk.  This holds however often bolt has run the function before,
    in transactions it threw away. *)
Theorem putObjectBatch_chunk_abort (ctx : Context)
    (objects : list storobj_Object) (d : DB) (v : VectorIndex)
    (pre post : list (nat * list storobj_Object))
    (c : nat * list storobj_Object) (err : error) :
  schedule_puts (chunks objects) = pre ++ c :: post ->
  batch_begin (bolt c.1) = None ->
  (putObjectsInTx c.2 (run put_goroutine pre (init_state d v))).2 = Some err ->
  st_db (run put_goroutine (pre ++ [c]) (init_state d v))
  = st_db (run put_goroutine pre (init_state d v))
  /\ st_db (putObjectBatch ctx objects d v)
     = st_db (run put_goroutine (pre ++ post) (init_state d v))
  /\ forall j object,
       c.2 !! j = Some object ->
       objects !! (c.1 + j) = Some object /\
       st_errs (putObjectBatch ctx objects d v) !! (c.1 + j)
       = Some (errors_Wrap err "bolt batch tx").
Proof.
  intros Hsched Hbegin Hfail.
  assert (Hperm : pre ++ c :: post ≡ₚ chunks objects).
  { rewrite <- Hsched. apply schedule_puts_perm. }
  assert (Hout : batch_outcome (fun _ => putObjectsInTx) c
                   (run put_goroutine pre (init_state d v)) = Some err).
  { rewrite put_batch_outcome. unfold batch_result. by rewrite Hbegin, Hfail. }
  assert (Hdb : st_db (put_goroutine c (run put_goroutine pre (init_state d v)))
                = st_db (run put_goroutine pre (init_state d v))).
  { apply (goroutine_db_fail (fun _ => putObjectsInTx)) with err;
      [apply putObjectsInTx_db_determined|done]. }
  split; [by rewrite run_app|]. split.
  - unfold putObjectBatch, putObjectBatch_phase1.
    rewrite run_adds_db, Hsched, !run_app.
    change (run put_goroutine (c :: post) ?s)
      with (run put_goroutine post (put_goroutine c s)).
    by apply run_puts_db.
  - intros j object Hj.
    destruct (scheduled_chunk_lookup objects pre post c Hperm j object Hj)
      as [Hin Hobj].
    split; [done|].
    apply aborted_chunk_errs_kept with pre post object; [done..| |done].
    by apply batch_runs_begun.
Qed.

(** *** The [docID] handed to the vector index *)

Lemma putObjectsInTx_docIDs_mono (batch : list storobj_Object)
    (st : batchState) (k : string) :
  is_Some (st_docIDs st !! k) ->
  is_Some (st_docIDs (putObjectsInTx batch st).1 !! k).
Proof.
  revert st. induction batch as [|object batch IH]; intros st Hk; [done|].
  cbn [putObjectsInTx].
  destruct (uuid_Parse (Object_ID object)) as [uuidParsed|err]; [|done].
  destruct (uuid_MarshalBinary uuidParsed) as [idBytes|err]; [|done].
  destruct (putObjectInTx (st_db st) object idBytes) as [tx [status|err]];
    [|done].
  apply IH. cbn. rewrite lookup_insert. by case_decide.
Qed.

Lemma putObjectsInTx_docIDs_commit (batch : list storobj_Object)
    (st : batchState) (object : storobj_Object) :
  (putObjectsInTx batch st).2 = None -> object ∈ batch ->
  is_Some (st_docIDs (putObjectsInTx batch st).1 !! Object_ID object).
Proof.
  revert st. induction batch as [|o batch IH]; intros st Hr Hin.
  - by apply elem_of_nil in Hin.
  - cbn [putObjectsInTx] in Hr |- *.
    destruct (uuid_Parse (Object_ID o)) as [uuidParsed|err]; [|done].
    destruct (uuid_MarshalBinary uuidParsed) as [idBytes|err]; [|done].
    destruct (putObjectInTx (st_db st) o idBytes) as [tx [status|err]];
      [|done].
    apply elem_of_cons in Hin as [->|Hin]; [|by apply IH].
    apply putObjectsInTx_docIDs_mono. cbn. by rewrite lookup_insert_eq.
Qed.

Lemma run_puts_docIDs_mono (l : list (nat * list storobj_Object))
    (st : batchState) (k : string) :
  is_Some (st_docIDs st !! k) ->
  is_Some (st_docIDs (run put_goroutine l st) !! k).
Proof.
  unfold run. revert st. induction l as [|c l IH]; intros st Hk; [done|].
  cbn [foldl]. apply IH. unfold put_goroutine.
  apply (goroutine_invariant (fun _ => putObjectsInTx)
           (fun s => is_Some (st_docIDs s !! k))); try done.
  intros s. apply putObjectsInTx_docIDs_mono.
Qed.

(** The [docID] read for an object of a committed chunk is one that a
    transaction function stored under the object's id, not the zero
    value of a missing key. *)
Lemma putObjectBatch_committed_docID (ctx : Context)
    (objects : list storobj_Object) (d : DB) (v : VectorIndex)
    (pre post : list (nat * list storobj_Object))
    (c : nat * list storobj_Object) (object : storobj_Object) :
  schedule_puts (chunks objects) = pre ++ c :: post ->
  batch_outcome (fun _ => putObjectsInTx) c
    (run put_goroutine pre (init_state d v)) = None ->
  object ∈ c.2 ->
  is_Some (st_docIDs (putObjectBatch ctx objects d v) !! Object_ID object).
Proof.
  intros Hsched Hcommit Hin.
  unfold putObjectBatch, putObjectBatch_phase1.
  rewrite run_adds_docIDs, Hsched, run_app.
  change (run put_goroutine (c :: post) ?s)
    with (run put_goroutine post (put_goroutine c s)).
  apply run_puts_docIDs_mono.
  change (put_goroutine c ?s)
    with (chunk_goroutine (fun _ => putObjectsInTx) c s).
  rewrite goroutine_docIDs. unfold batch_state. rewrite Hcommit.
  unfold batch_outcome, batch_result in Hcommit.
  destruct (batch_begin (bolt c.1)); [done|].
  apply putObjectsInTx_docIDs_commit; [|done].
  by destruct (putObjectsInTx c.2 _).2.
Qed.

(** ** Chunk boundaries *)

Lemma chunk_items_concat {A : Type} (xs : list A) (k m : nat) :
  concat ((chunk_at xs <$> seq k m).*2)
  = take (m * maxPerTransaction) (drop (k * maxPerTransaction) xs).
Proof.
  revert k. induction m as [|m IH]; intros k; [done|].
  cbn [seq fmap list_fmap concat]. rewrite IH.
  unfold chunk_at at 1. cbn [snd].
  replace (S k * maxPerTransaction)
    with (k * maxPerTransaction + maxPerTransaction) by lia.
  rewrite <- drop_drop, take_take_drop. f_equal; lia.
Qed.

Lemma chunks_partition {A : Type} (xs : list A) :
  concat (chunks xs).*2 = xs.
Proof.
  rewrite chunks_closed, chunk_items_concat. cbn [Nat.mul drop].
  apply take_ge.
  pose proof (proj2 (chunk_count_le (length xs) (chunk_count (length xs)))).
  lia.
Qed.



Lemma chunk_bounds_of_chunks {A : Type} (xs : list A) :
  (fun c : nat * list A => (c.1, length c.2)) <$> chunks xs
  = chunk_bounds (length xs).
Proof.
  rewrite chunks_closed, <- list_fmap_compose. unfold chunk_bounds.
  apply list_fmap_ext. intros _ k _. cbn [compose].
  by rewrite chunk_at_length.
Qed.

Lemma putObjectBatch_batch_calls (ctx : Context)
    (objects : list storobj_Object) (d : DB) (v : VectorIndex) :
  batch_calls (st_trace (putObjectBatch ctx objects d v))
    ≡ₚ chunk_bounds (length objects).
Proof.
  unfold putObjectBatch, putObjectBatch_phase1.
  rewrite run_adds_batch_calls.
  rewrite (run_chunks_batch_calls (fun _ => putObjectsInTx)
             putObjectsInTx_framed).
  cbn [init_state st_trace batch_calls omap list_omap app].
  rewrite <- chunk_bounds_of_chunks.
  apply fmap_Permutation, schedule_puts_perm.
Qed.

Lemma addReferencesBatch_batch_calls (ctx : Context)
    (refs : list BatchReference) (d : DB) (v : VectorIndex) :
  batch_calls (st_trace (addReferencesBatch ctx refs d v))
    ≡ₚ chunk_bounds (length refs).
Proof.
  unfold addReferencesBatch.
  rewrite (run_chunks_batch_calls mergeReferencesInTx
             mergeReferencesInTx_framed).
  cbn [init_state st_trace batch_calls omap list_omap app].
  rewrite <- chunk_bounds_of_chunks.
  apply fmap_Permutation, schedule_refs_perm.
Qed.


(** ** Reference batches and the vector index *)

Lemma mergeReferencesInTx_events (refs : list BatchReference) (i : nat)
    (batch : list BatchReference) (st : batchState) :
  (forall j ref, batch !! j = Some ref -> refs !! (i + j) = Some ref) ->
  Forall (reference_event refs) (st_trace st) ->
  Forall (reference_event refs) (st_trace (mergeReferencesInTx i batch st).1).
Proof.
  revert i st. induction batch as [|ref batch IH]; intros i st Hidx Htr.
  - done.
  - cbn [mergeReferencesInTx].
    destruct (uuid_Parse (From_TargetID (From ref))) as [uuidParsed|err];
      [|done].
    destruct (uuid_MarshalBinary uuidParsed) as [idBytes|err]; [|done].
    assert (Hhere : reference_event refs
              (EvMergeObjectInTx
                 (mergeDocFromBatchReference (time_Now_UnixNano i) ref))).
    { exists i, ref. split; [|done].
      specialize (Hidx 0 ref eq_refl). by rewrite Nat.add_0_r in Hidx. }
    destruct (mergeObjectInTx (st_db st) _ idBytes) as [tx [err|]].
    + cbn. apply Forall_app. split; [done|]. by constructor.
    + apply IH.
      * intros j r Hj. specialize (Hidx (S j) r Hj).
        by replace (S i + j) with (i + S j) by lia.
      * cbn. apply Forall_app. split; [done|]. by constructor.
Qed.

Lemma run_refs_events (refs : list BatchReference)
    (l : list (nat * list BatchReference)) (st : batchState) :
  (forall c, c ∈ l -> c ∈ chunks refs) ->
  Forall (reference_event refs) (st_trace st) ->
  Forall (reference_event refs) (st_trace (run refs_goroutine l st)).
Proof.
  unfold run. revert st. induction l as [|c l IH]; intros st Hl Htr; [done|].
  cbn [foldl]. apply IH.
  - intros c' Hc'. by apply Hl, list_elem_of_further.
  - unfold refs_goroutine.
    apply (goroutine_invariant mergeReferencesInTx
             (fun s => Forall (reference_event refs) (st_trace s)));
      [done|done| | |done].
    + intros s r Hs. cbn. apply Forall_app. split; [done|]. by constructor.
    + intros s Hs. apply mergeReferencesInTx_events; [|done].
      intros j ref Hj.
      destruct (proj1 (elem_of_chunks refs c) (Hl c (list_elem_of_here _ _)))
        as (k & _ & Hc).
      rewrite Hc in Hj |- *. cbn [fst chunk_at].
      rewrite <- chunk_at_lookup; [done|].
      apply lookup_lt_Some in Hj. rewrite chunk_at_length in Hj. lia.
Qed.

(** C5. A batch of references never reaches the vector index: the index
    held by the shard after [addReferencesBatch] is the one it held
    before, the trace of the call has no [Add] call, and all it has are
    [Batch] transactions and, inside them, [mergeObjectInTx] calls whose
    document is the merge document built from a reference of the
    batch. *)
Theorem addReferencesBatch_vector_index_untouched (ctx : Context)
    (refs : list BatchReference) (d : DB) (v : VectorIndex) :
  st_vectorIndex (addReferencesBatch ctx refs d v) = v
  /\ vector_calls (st_trace (addReferencesBatch ctx refs d v)) = []
  /\ Forall (reference_event refs) (st_trace (addReferencesBatch ctx refs d v)).
Proof.
  unfold addReferencesBatch, refs_goroutine. split; [|split].
  - by rewrite (run_chunks_vectorIndex mergeReferencesInTx
                  mergeReferencesInTx_framed).
  - by rewrite (run_chunks_vector_calls mergeReferencesInTx
                  mergeReferencesInTx_framed).
  - apply run_refs_events; [|constructor].
    intros c Hc. by rewrite (schedule_refs_perm (chunks refs)) in Hc.
Qed.

(** ** The empty batch *)

(** C8. A batch object put of no objects returns the empty map and does
    nothing else: no [Batch] transaction, no [putObjectInTx] (hence no
    [docID] allocation) and no vector-index call is made, and the
    database and the vector index are left as they were. *)
Theorem putObjectBatch_empty (ctx : Context) (d : DB) (v : VectorIndex) :
  st_errs (putObjectBatch ctx [] d v) = ∅
  /\ st_trace (putObjectBatch ctx [] d v) = []
  /\ st_docIDs (putObjectBatch ctx [] d v) = ∅
  /\ st_db (putObjectBatch ctx [] d v) = d
  /\ st_vectorIndex (putObjectBatch ctx [] d v) = v.
Proof.
  unfold putObjectBatch, putObjectBatch_phase1.
  change (chunks (@nil storobj_Object)) with (@nil (nat * list storobj_Object)).
  rewrite (proj1 (Permutation_nil_r _) (schedule_puts_perm [])).
  cbn [run foldl init_state st_errs st_docIDs add_jobs].
  rewrite (proj1 (Permutation_nil_r _) (schedule_adds_perm [])).
  done.
Qed.

(** ** Cancellation *)

(** C4, as the code has it.  The batch functions receive a context and
    never consult it: a batch object put and a batch of references do
    the same whatever the context, cancelled or not.  In particular,
    under a cancelled context every chunk still gets its [Batch]
    transaction. *)
Theorem batch_context_not_consulted (ctx ctx' : Context)
    (objects : list storobj_Object) (refs : list BatchReference)
    (d : DB) (v : VectorIndex) :
  putObjectBatch ctx objects d v = putObjectBatch ctx' objects d v
  /\ addReferencesBatch ctx refs d v = addReferencesBatch ctx' refs d v
  /\ (ctx_done ctx = true ->
      batch_calls (st_trace (putObjectBatch ctx objects d v))
        ≡ₚ chunk_bounds (length objects)
      /\ batch_calls (st_trace (addReferencesBatch ctx refs d v))
           ≡ₚ chunk_bounds (length refs)).
Proof.
  split; [done|]. split; [done|]. intros _. split.
  - apply putObjectBatch_batch_calls.
  - apply addReferencesBatch_batch_calls.
Qed.

(** ** The include parameter *)

Lemma case_of_app (prop : string) (l1 l2 : list string) :
  case_of prop (l1 ++ l2) = case_of prop l1 || case_of prop l2.
Proof. unfold case_of. apply existsb_app. Qed.

Lemma case_of_accepted (prop : string) :
  case_of prop accepted_labels
  = case_of prop classification_labels
    || (case_of prop interpretation_labels
        || (case_of prop nearestNeighbors_labels
            || (case_of prop featureProjection_labels
                || case_of prop vector_labels))).
Proof. unfold accepted_labels. by rewrite !case_of_app. Qed.

Lemma parseIncludeParts_error (parts : list string)
    (out : UnderscoreProperties) :
  (parseIncludeParts parts out).2 = unrecognized <$> first_unrecognized parts.
Proof.
  unfold first_unrecognized. revert out.
  induction parts as [|prop parts IH]; intros out; [done|].
  cbn [parseIncludeParts List.find]. rewrite case_of_accepted.
  destruct (case_of prop classification_labels); [apply IH|].
  destruct (case_of prop interpretation_labels); [apply IH|].
  destruct (case_of prop nearestNeighbors_labels); [apply IH|].
  destruct (case_of prop featureProjection_labels); [apply IH|].
  destruct (case_of prop vector_labels); [apply IH|].
  done.
Qed.

Lemma parseIncludeParts_classification (parts : list string)
    (out : UnderscoreProperties) :
  RefMeta out = Classification out ->
  RefMeta (parseIncludeParts parts out).1
  = Classification (parseIncludeParts parts out).1
  /\ ((parseIncludeParts parts out).2 = None ->
      Classification (parseIncludeParts parts out).1
      = Classification out || requests_classification parts).
Proof.
  unfold requests_classification. revert out.
  induction parts as [|prop parts IH]; intros out Hout.
  - cbn. split; [done|]. by rewrite orb_false_r.
  - cbn [parseIncludeParts existsb].
    destruct (case_of prop classification_labels).
    { destruct (IH (set_RefMeta true (set_Classification true out)) eq_refl)
        as [H1 H2].
      split; [done|]. intros Hr. rewrite (H2 Hr). cbn.
      by rewrite orb_true_r. }
    cbn [orb].
    assert (Hstep : forall out',
              RefMeta out' = Classification out' ->
              Classification out' = Classification out ->
              RefMeta (parseIncludeParts parts out').1
              = Classification (parseIncludeParts parts out').1
              /\ ((parseIncludeParts parts out').2 = None ->
                  Classification (parseIncludeParts parts out').1
                  = Classification out
                    || existsb (fun p => case_of p classification_labels) parts)).
    { intros out' H1 H2. rewrite <- H2. by apply IH. }
    destruct (case_of prop interpretation_labels); [by apply Hstep|].
    destruct (case_of prop nearestNeighbors_labels); [by apply Hstep|].
    destruct (case_of prop featureProjection_labels); [by apply Hstep|].
    destruct (case_of prop vector_labels); [by apply Hstep|].
    done.
Qed.

(** C7, as the code has it.  [parseIncludeParam] succeeds on an absent
    parameter and otherwise fails on the first comma-separated part that
    is none of the twenty spellings its switch lists; the empty part is
    none of them, and RefMeta has no spelling.  The error names that part
    and is a plain [fmt.Errorf] value, never an [ErrInvalidUserInput];
    the four handlers that parse the parameter answer it with 400 Bad
    Request, and with nothing else. *)
Theorem parseIncludeParam_outcome (inp : option string) :
  (parseIncludeParam inp).2
  = match inp with
    | None => None
    | Some s => unrecognized <$> first_unrecognized (strings_Split s ",")
    end
  /\ (forall msg, (parseIncludeParam inp).2 <> Some (kinds_ErrInvalidUserInput msg))
  /\ forall ctx principal id limit meta,
       (resp_status (getThing ctx principal id inp meta) = StatusBadRequest
        <-> (parseIncludeParam inp).2 <> None)
       /\ (resp_status (getAction ctx principal id inp meta) = StatusBadRequest
           <-> (parseIncludeParam inp).2 <> None)
       /\ (resp_status (getThings ctx principal limit inp meta) = StatusBadRequest
           <-> (parseIncludeParam inp).2 <> None)
       /\ (resp_status (getActions ctx principal limit inp meta) = StatusBadRequest
           <-> (parseIncludeParam inp).2 <> None).
Proof.
  assert (Heq : (parseIncludeParam inp).2
                = match inp with
                  | None => None
                  | Some s => unrecognized <$> first_unrecognized (strings_Split s ",")
                  end).
  { destruct inp as [s|]; [|done]. apply parseIncludeParts_error. }
  split; [done|]. split.
  - intros msg. rewrite Heq. destruct inp as [s|]; [|done].
    by destruct (first_unrecognized _).
  - intros ctx principal id limit meta.
    unfold getThing, getAction, getThings, getActions.
    destruct (parseIncludeParam inp) as [underscores [err|]]; cbn [snd].
    + repeat split; done.
    + repeat split; try done.
      * destruct (GetThing _ _ _ _ _) as [?|[]]; done.
      * destruct (GetAction _ _ _ _ _) as [?|[]]; done.
      * destruct (GetThings _ _ _ _ _) as [?|[]]; done.
      * destruct (GetActions _ _ _ _ _) as [?|[]]; done.
Qed.

(** C9. Whenever the include parameter parses, Classification is set
    exactly when some part is "_classification" or "classification", and
    RefMeta is set exactly when Classification is: asking for the
    classification always brings RefMeta, and nothing sets one of the two
    without the other. *)
Theorem parseIncludeParam_classification_refmeta (inp : option string) :
  (parseIncludeParam inp).2 = None ->
  Classification (parseIncludeParam inp).1
  = match inp with
    | None => false
    | Some s => requests_classification (strings_Split s ",")
    end
  /\ RefMeta (parseIncludeParam inp).1 = Classification (parseIncludeParam inp).1.
Proof.
  intros Hok. destruct inp as [s|]; [|done].
  unfold parseIncludeParam in *.
  destruct (parseIncludeParts_classification (strings_Split s ",")
              UnderscoreProperties_zero eq_refl) as [H1 H2].
  split; [|done]. by rewrite (H2 Hok).
Qed.

(** ** Errors of the manager and the status of the answer *)

Ltac handler_status :=
  repeat match goal with
         | |- context [match ?r with Ok _ => _ | Err _ => _ end] =>
             destruct r as [?|[]]
         | |- context [match ?r with Some _ => _ | None => _ end] =>
             destruct r as [[]|]
         end;
  reflexivity.

(** C6, as the code has it.  A handler answers an error of the manager
    by the concrete type of the error, and the mapping depends on the
    operation.  Forbidden is 403 and an error of a type the handler does
    not name is 500 everywhere.  InvalidUserInput is 422 for create,
    validate, update and patch and for creating and updating references,
    404 for deleting a reference, and 500 for get, list and delete.
    NotFound is 404 for get, delete and deleting a reference, 422 for
    creating and updating references, and 500 for create, validate,
    update, patch and list.  The four handlers that take an include
    parameter first answer 400 when it does not parse. *)
Theorem handler_status_of_manager_error (ctx : Context)
    (principal : Principal) (id propertyName : string)
    (thing : Thing) (action : Action) (ref : SingleRef)
    (refs : list SingleRef)
    (limit : option Z) (meta : option bool) (include : option string) :
  (resp_status (addThing ctx principal thing)
   = status_of_result status_on_write StatusOK
       (AddThing (manager h) ctx principal thing)
   /\ resp_status (addAction ctx principal action)
      = status_of_result status_on_write StatusOK
          (AddAction (manager h) ctx principal action)
   /\ resp_status (validateThing ctx principal thing)
      = status_of_error status_on_write StatusOK
          (ValidateThing (manager h) ctx principal thing)
   /\ resp_status (validateAction ctx principal action)
      = status_of_error status_on_write StatusOK
          (ValidateAction (manager h) ctx principal action)
   /\ resp_status (updateThing ctx principal id thing)
      = status_of_result status_on_write StatusOK
          (UpdateThing (manager h) ctx principal id thing)
   /\ resp_status (updateAction ctx principal id action)
      = status_of_result status_on_write StatusOK
          (UpdateAction (manager h) ctx principal id action)
   /\ resp_status (patchThing ctx principal id thing)
      = status_of_error status_on_write StatusNoContent
          (MergeThing (manager h) ctx principal id thing)
   /\ resp_status (patchAction ctx principal id action)
      = status_of_error status_on_write StatusNoContent
          (MergeAction (manager h) ctx principal id action))
  /\ (resp_status (deleteThing ctx principal id)
      = status_of_error status_on_read StatusNoContent
          (DeleteThing (manager h) ctx principal id)
      /\ resp_status (deleteAction ctx principal id)
         = status_of_error status_on_read StatusNoContent
             (DeleteAction (manager h) ctx principal id)
      /\ resp_status (getThing ctx principal id include meta)
         = status_after_parse include
             (status_of_result status_on_read StatusOK
                (GetThing (manager h) ctx principal id
                   (applyMeta meta (parseIncludeParam include).1)))
      /\ resp_status (getAction ctx principal id include meta)
         = status_after_parse include
             (status_of_result status_on_read StatusOK
                (GetAction (manager h) ctx principal id
                   (applyMeta meta (parseIncludeParam include).1)))
      /\ resp_status (getThings ctx principal limit include meta)
         = status_after_parse include
             (status_of_result status_on_list StatusOK
                (GetThings (manager h) ctx principal limit
                   (applyMeta meta (parseIncludeParam include).1)))
      /\ resp_status (getActions ctx principal limit include meta)
         = status_after_parse include
             (status_of_result status_on_list StatusOK
                (GetActions (manager h) ctx principal limit
                   (applyMeta meta (parseIncludeParam include).1))))
  /\ (resp_status (addThingReference ctx principal id propertyName ref)
      = status_of_error status_on_reference_write StatusOK
          (AddThingReference (manager h) ctx principal id propertyName ref)
      /\ resp_status (addActionReference ctx principal id propertyName ref)
         = status_of_error status_on_reference_write StatusOK
             (AddActionReference (manager h) ctx principal id propertyName ref)
      /\ resp_status (updateThingReferences ctx principal id propertyName refs)
         = status_of_error status_on_reference_write StatusOK
             (UpdateThingReferences (manager h) ctx principal id propertyName refs)
      /\ resp_status (updateActionReferences ctx principal id propertyName refs)
         = status_of_error status_on_reference_write StatusOK
             (UpdateActionReferences (manager h) ctx principal id propertyName refs))
  /\ (resp_status (deleteThingReference ctx principal id propertyName ref)
      = status_of_error status_on_reference_delete StatusNoContent
          (DeleteThingReference (manager h) ctx principal id propertyName ref)
      /\ resp_status (deleteActionReference ctx principal id propertyName ref)
         = status_of_error status_on_reference_delete StatusNoContent
             (DeleteActionReference (manager h) ctx principal id propertyName ref)).
Proof.
  split; [|split; [|split]].
  - unfold addThing, addAction, validateThing, validateAction, updateThing,
      updateAction, patchThing, patchAction, status_of_result, status_of_error.
    repeat split; handler_status.
  - unfold deleteThing, deleteAction, status_of_result, status_of_error.
    split; [handler_status|]. split; [handler_status|].
    unfold getThing, getAction, getThings, getActions, status_after_parse.
    destruct (parseIncludeParam include) as [u [err|]]; cbn [fst snd];
      [done|].
    repeat split; handler_status.
  - unfold addThingReference, addActionReference, updateThingReferences,
      updateActionReferences, status_of_error.
    repeat split; handler_status.
  - unfold deleteThingReference, deleteActionReference, status_of_error.
    repeat split; handler_status.
Qed.

(** ** List responses *)

(** C10. When [getThings] or [getActions] answers with a list, the
    [TotalResults] of the answer is the number of items in the list of
    that same answer, which is the number of items the manager returned
    for this request. *)
Theorem list_response_total_results (ctx : Context) (principal : Principal)
    (limit : option Z) (include : option string) (meta : option bool) :
  (forall r,
     resp_payload (getThings ctx principal limit include meta)
     = ThingsListPayload r ->
     tl_TotalResults r = Z.of_nat (length (tl_Things r))
     /\ exists things,
          GetThings (manager h) ctx principal limit
            (applyMeta meta (parseIncludeParam include).1) = Ok things
          /\ length (tl_Things r) = length things)
  /\ (forall r,
        resp_payload (getActions ctx principal limit include meta)
        = ActionsListPayload r ->
        al_TotalResults r = Z.of_nat (length (al_Actions r))
        /\ exists actions,
             GetActions (manager h) ctx principal limit
               (applyMeta meta (parseIncludeParam include).1) = Ok actions
             /\ length (al_Actions r) = length actions).
Proof.
  unfold getThings, getActions.
  destruct (parseIncludeParam include) as [u [err|]]; cbn [fst].
  { split; intros r Hr; discriminate Hr. }
  split; intros r.
  - destruct (GetThings _ _ _ _ _) as [things|err].
    + cbn. intros [= <-]. cbn. split; [done|].
      exists things. by rewrite length_map.
    + by destruct err.
  - destruct (GetActions _ _ _ _ _) as [actions|err].
    + cbn. intros [= <-]. cbn. split; [done|].
      exists actions. by rewrite length_map.
    + by destruct err.
Qed.

(** * Further properties of the batch coordinator *)

(** ** Reference batches *)

Lemma mergeReferencesInTx_db (i : nat) (batch : list BatchReference)
    (st1 st2 : batchState) :
  st_db st1 = st_db st2 ->
  st_db (mergeReferencesInTx i batch st1).1
  = st_db (mergeReferencesInTx i batch st2).1 /\
  (mergeReferencesInTx i batch st1).2 = (mergeReferencesInTx i batch st2).2.
Proof.
  revert i st1 st2.
  induction batch as [|ref batch IH]; intros i st1 st2 Hdb; [done|].
  cbn [mergeReferencesInTx]. rewrite <- Hdb.
  destruct (uuid_Parse (From_TargetID (From ref))) as [uuidParsed|err];
    [|done].
  destruct (uuid_MarshalBinary uuidParsed) as [idBytes|err]; [|done].
  destruct (mergeObjectInTx (st_db st1) _ idBytes) as [tx [err|]]; [done|].
  by apply IH.
Qed.

Lemma mergeReferencesInTx_db_determined : db_determined mergeReferencesInTx.
Proof. intros i batch st1 st2. apply mergeReferencesInTx_db. Qed.

Lemma refs_batch_outcome (c : nat * list BatchReference) (st : batchState) :
  batch_outcome mergeReferencesInTx c st
  = batch_result (bolt c.1) (mergeReferencesInTx c.1 c.2 st).2.
Proof. apply batch_outcome_db, mergeReferencesInTx_db_determined. Qed.

Lemma refs_goroutine_db (c : nat * list BatchReference)
    (st1 st2 : batchState) :
  st_db st1 = st_db st2 ->
  st_db (refs_goroutine c st1) = st_db (refs_goroutine c st2).
Proof.
  unfold refs_goroutine. apply goroutine_db, mergeReferencesInTx_db_determined.
Qed.

Lemma run_refs_db (l : list (nat * list BatchReference))
    (st1 st2 : batchState) :
  st_db st1 = st_db st2 ->
  st_db (run refs_goroutine l st1) = st_db (run refs_goroutine l st2).
Proof.
  unfold run. revert st1 st2.
  induction l as [|c l IH]; intros st1 st2 Hdb; [done|].
  cbn [foldl]. by apply IH, refs_goroutine_db.
Qed.

(** X1. A chunk of a reference batch is all or nothing too: when the
    transaction function of a chunk, in the transaction bolt has begun
    to decide the call, returns an error, the merges of the chunk are
    rolled back (the database after the goroutine is the one before it,
    and the database the call leaves is the one the same schedule
    produces without the chunk), and the returned map holds the error,
    wrapped with "bolt batch tx", at every original index of the
    chunk. *)
Theorem addReferencesBatch_chunk_abort (ctx : Context)
    (refs : list BatchReference) (d : DB) (v : VectorIndex)
    (pre post : list (nat * list BatchReference))
    (c : nat * list BatchReference) (err : error) :
  schedule_refs (chunks refs) = pre ++ c :: post ->
  batch_begin (bolt c.1) = None ->
  (mergeReferencesInTx c.1 c.2 (run refs_goroutine pre (init_state d v))).2
  = Some err ->
  st_db (run refs_goroutine (pre ++ [c]) (init_state d v))
  = st_db (run refs_goroutine pre (init_state d v))
  /\ st_db (addReferencesBatch ctx refs d v)
     = st_db (run refs_goroutine (pre ++ post) (init_state d v))
  /\ forall j ref,
       c.2 !! j = Some ref ->
       refs !! (c.1 + j) = Some ref /\
       st_errs (addReferencesBatch ctx refs d v) !! (c.1 + j)
       = Some (errors_Wrap err "bolt batch tx").
Proof.
  intros Hsched Hbegin Hfail.
  assert (Hperm : pre ++ c :: post ≡ₚ chunks refs).
  { rewrite <- Hsched. apply schedule_refs_perm. }
  assert (Hout : batch_outcome mergeReferencesInTx c
                   (run refs_goroutine pre (init_state d v)) = Some err).
  { rewrite refs_batch_outcome. unfold batch_result. by rewrite Hbegin, Hfail. }
  assert (Hdb : st_db (refs_goroutine c (run refs_goroutine pre (init_state d v)))
                = st_db (run refs_goroutine pre (init_state d v))).
  { apply (goroutine_db_fail mergeReferencesInTx) with err;
      [apply mergeReferencesInTx_db_determined|done]. }
  split; [by rewrite run_app|]. split.
  - unfold addReferencesBatch. rewrite Hsched, !run_app.
    change (run refs_goroutine (c :: post) ?s)
      with (run refs_goroutine post (refs_goroutine c s)).
    by apply run_refs_db.
  - intros j ref Hj.
    destruct (scheduled_chunk_lookup refs pre post c Hperm j ref Hj)
      as [Hin Hobj].
    split; [done|]. unfold addReferencesBatch. rewrite Hsched.
    apply (scheduled_errs_own mergeReferencesInTx
             mergeReferencesInTx_framed refs); [done..| |done].
    by apply batch_runs_begun.
Qed.

(** The entries a schedule of chunk goroutines adds to the error map are
    batch-transaction errors at indices of the input. *)
Lemma run_chunks_errs_shape {A : Type}
    (body : nat -> list A -> batchState -> batchState * option error)
    (xs : list A) (l : list (nat * list A)) (st : batchState) :
  framed body ->
  (forall c, c ∈ l -> c ∈ chunks xs) ->
  forall idx e,
    st_errs (run (chunk_goroutine body) l st) !! idx = Some e ->
    st_errs st !! idx = Some e \/ (idx < length xs /\ batch_tx_error e).
Proof.
  intros Hframed. unfold run. revert st.
  induction l as [|c l IH]; intros st Hl idx e He; [by left|].
  cbn [foldl] in He.
  destruct (IH (chunk_goroutine body c st)
              (fun c' Hc' => Hl c' (list_elem_of_further _ _ _ Hc')) idx e He)
    as [Hhere|Hdone]; [|by right].
  assert (Hc : c ∈ chunks xs) by apply Hl, list_elem_of_here.
  destruct (decide (c.1 <= idx < c.1 + length c.2)) as [Hin|Hout].
  - destruct (batch_outcome body c st) as [err|] eqn:Hr.
    + destruct (decide (batch_runs (bolt c.1) = 0)) as [Hnone|Hruns].
      * left. rewrite goroutine_errs_kept in Hhere; [done..|by right; left].
      * rewrite (goroutine_errs_own body c st idx err Hr) in Hhere;
          [|lia|done].
        right. split.
        -- apply elem_of_chunks in Hc as (k & _ & ->).
           by apply in_chunk_at in Hin as [? _].
        -- exists err. congruence.
    + left. by rewrite (goroutine_errs_commit body Hframed c st Hr) in Hhere.
  - left. by rewrite (goroutine_errs_other body Hframed c st idx Hout) in Hhere.
Qed.

(** X2. The map a reference batch returns tells chunk by chunk what
    [Batch] returned.  At an index of the input it holds the error
    [Batch] returned to the goroutine of the chunk of that index (the
    error of the transaction function, or an error of bolt), wrapped
    with "bolt batch tx", provided bolt ran the function of the chunk at
    least once; it holds nothing there when [Batch] returned nil, and
    nothing either when [Batch] failed before it ever ran the function.
    Every key of the map is an index of the input and every value is a
    "bolt batch tx" error. *)
Theorem addReferencesBatch_result_map (ctx : Context)
    (refs : list BatchReference) (d : DB) (v : VectorIndex) (index : nat) :
  (forall pre c post,
     schedule_refs (chunks refs) = pre ++ c :: post ->
     in_chunk index c ->
     st_errs (addReferencesBatch ctx refs d v) !! index
     = if decide (batch_runs (bolt c.1) = 0) then None
       else (fun e => errors_Wrap e "bolt batch tx")
              <$> batch_result (bolt c.1)
                    (mergeReferencesInTx c.1 c.2
                       (run refs_goroutine pre (init_state d v))).2)
  /\ (forall e,
        st_errs (addReferencesBatch ctx refs d v) !! index = Some e ->
        index < length refs /\ batch_tx_error e).
Proof.
  split.
  - intros pre c post Hsched Hin.
    assert (Hperm : pre ++ c :: post ≡ₚ chunks refs).
    { rewrite <- Hsched. apply schedule_refs_perm. }
    unfold addReferencesBatch. rewrite Hsched, <- refs_batch_outcome.
    destruct (decide (batch_runs (bolt c.1) = 0)) as [Hnone|Hruns].
    { rewrite (scheduled_errs_kept mergeReferencesInTx
                 mergeReferencesInTx_framed refs); [done..|by right|done]. }
    destruct (batch_outcome mergeReferencesInTx c
                (run refs_goroutine pre (init_state d v))) as [e|] eqn:Hr.
    + rewrite (scheduled_errs_own mergeReferencesInTx
                 mergeReferencesInTx_framed refs pre post c Hperm _ index e);
        [done|done|lia|done].
    + rewrite (scheduled_errs_kept mergeReferencesInTx
                 mergeReferencesInTx_framed refs); [done..|by left|done].
  - intros e He. unfold addReferencesBatch in He.
    assert (Hl : forall c, c ∈ schedule_refs (chunks refs) -> c ∈ chunks refs).
    { intros c Hc. by rewrite (schedule_refs_perm (chunks refs)) in Hc. }
    destruct (run_chunks_errs_shape mergeReferencesInTx refs _
                (init_state d v) mergeReferencesInTx_framed Hl index e He)
      as [Hinit|Hok]; [done|done].
Qed.

(** X8. A batch of no references returns the empty map and makes no
    call: no transaction is opened and the database is left as it
    was. *)
Theorem addReferencesBatch_empty (ctx : Context) (d : DB) (v : VectorIndex) :
  st_errs (addReferencesBatch ctx [] d v) = ∅
  /\ st_trace (addReferencesBatch ctx [] d v) = []
  /\ st_db (addReferencesBatch ctx [] d v) = d
  /\ st_vectorIndex (addReferencesBatch ctx [] d v) = v.
Proof.
  unfold addReferencesBatch.
  change (chunks (@nil BatchReference)) with (@nil (nat * list BatchReference)).
  by rewrite (proj1 (Permutation_nil_r _) (schedule_refs_perm [])).
Qed.

(** ** Batch object puts *)

Lemma vector_call_index_of_calls (tr : list event) :
  omap vector_call_index tr = omap vector_call_index (vector_calls tr).
Proof.
  unfold vector_calls. induction tr as [|ev tr IH]; [done|].
  destruct ev; cbn; by rewrite ?IH.
Qed.

Lemma add_goroutine_call_indices (job : storobj_Object * Z * nat)
    (st : batchState) :
  omap vector_call_index (st_trace (add_goroutine job st))
  = omap vector_call_index (st_trace st) ++ [job.2].
Proof.
  destruct job as [[object id] index].
  destruct (add_goroutine_own object id index st) as (r & _ & -> & _).
  by rewrite omap_app.
Qed.

Lemma run_adds_call_indices (l : list (storobj_Object * Z * nat))
    (st : batchState) :
  omap vector_call_index (st_trace (run add_goroutine l st))
  = omap vector_call_index (st_trace st) ++ l.*2.
Proof.
  unfold run. revert st. induction l as [|job l IH]; intros st.
  - cbn. by rewrite app_nil_r.
  - cbn [foldl]. rewrite IH, add_goroutine_call_indices, <- app_assoc. done.
Qed.

(** The [Add] calls of a batch put, by index, are the jobs of the second
    phase in the order the scheduler ran them. *)
Lemma putObjectBatch_call_indices (ctx : Context)
    (objects : list storobj_Object) (d : DB) (v : VectorIndex) :
  omap vector_call_index (st_trace (putObjectBatch ctx objects d v))
  ≡ₚ (add_jobs 0 objects
        (st_errs (putObjectBatch_phase1 objects (init_state d v)))
        (st_docIDs (putObjectBatch_phase1 objects (init_state d v)))).*2.
Proof.
  unfold putObjectBatch. rewrite run_adds_call_indices.
  rewrite vector_call_index_of_calls. unfold putObjectBatch_phase1 at 1.
  rewrite (run_chunks_vector_calls (fun _ => putObjectsInTx)
             putObjectsInTx_framed).
  cbn [init_state st_trace vector_calls List.filter omap list_omap app].
  apply fmap_Permutation, schedule_adds_perm.
Qed.

(** X3. [VectorIndex.Add] is called at most once per index of the
    input, exactly for the indices that hold no error after the first
    phase, and never for an index of a chunk whose transaction function
    returned an error in the transaction bolt had begun to decide the
    call. *)
Theorem putObjectBatch_add_calls (ctx : Context)
    (objects : list storobj_Object) (d : DB) (v : VectorIndex) :
  NoDup (omap vector_call_index (st_trace (putObjectBatch ctx objects d v)))
  /\ (forall index,
        index ∈ omap vector_call_index
                  (st_trace (putObjectBatch ctx objects d v))
        <-> index < length objects /\
            st_errs (putObjectBatch_phase1 objects (init_state d v)) !! index
            = None)
  /\ (forall pre c post err j,
        schedule_puts (chunks objects) = pre ++ c :: post ->
        batch_begin (bolt c.1) = None ->
        (putObjectsInTx c.2 (run put_goroutine pre (init_state d v))).2
        = Some err ->
        j < length c.2 ->
        c.1 + j ∉ omap vector_call_index
                    (st_trace (putObjectBatch ctx objects d v))).
Proof.
  assert (Hmem : forall index,
            index ∈ omap vector_call_index
                      (st_trace (putObjectBatch ctx objects d v))
            <-> index < length objects /\
                st_errs (putObjectBatch_phase1 objects (init_state d v))
                  !! index = None).
  { intros index. rewrite putObjectBatch_call_indices, list_elem_of_fmap.
    split.
    - intros ([[object id] i] & -> & Hjob). cbn [snd].
      apply elem_of_add_jobs in Hjob as (_ & Hl & He & _).
      rewrite Nat.sub_0_r in Hl. split; [|done]. by apply lookup_lt_Some in Hl.
    - intros [Hlt He]. apply lookup_lt_is_Some in Hlt as [object Hobj].
      eexists (object, _, index). split; [done|].
      apply elem_of_add_jobs. rewrite Nat.sub_0_r.
      repeat split; [lia|done..]. }
  split; [|split; [exact Hmem|]].
  - rewrite putObjectBatch_call_indices. apply add_jobs_NoDup.
  - intros pre c post err j Hsched Hbegin Hfail Hj Hin.
    apply Hmem in Hin as [_ Hnone].
    assert (Hperm : pre ++ c :: post ≡ₚ chunks objects).
    { rewrite <- Hsched. apply schedule_puts_perm. }
    assert (Hsome : st_errs (putObjectBatch_phase1 objects (init_state d v))
                      !! (c.1 + j) = Some (errors_Wrap err "bolt batch tx")).
    { unfold putObjectBatch_phase1. rewrite Hsched.
      apply (scheduled_errs_fail (fun _ => putObjectsInTx)
               putObjectsInTx_framed putObjectsInTx_db_determined objects);
        [done..|].
      unfold in_chunk. lia. }
    congruence.
Qed.

(** X4. Every key of the map a batch put returns is an index of the
    input, and every value is an error of one of two shapes: the error
    of an aborted transaction wrapped with "bolt batch tx", or the error
    of an [Add] call wrapped with "insert to vector index".  No error
    reaches the caller unwrapped. *)
Theorem putObjectBatch_result_map (ctx : Context)
    (objects : list storobj_Object) (d : DB) (v : VectorIndex)
    (index : nat) (e : error) :
  st_errs (putObjectBatch ctx objects d v) !! index = Some e ->
  index < length objects /\ (batch_tx_error e \/ vector_index_error e).
Proof.
  unfold putObjectBatch.
  set (st1 := putObjectBatch_phase1 objects (init_state d v)).
  set (jobs := add_jobs 0 objects (st_errs st1) (st_docIDs st1)).
  intros He.
  destruct (decide (index ∈ (schedule_adds jobs).*2)) as [Hin|Hout].
  - apply list_elem_of_fmap in Hin as ([[object id] i] & Heq & Hjob).
    cbn [snd] in Heq. subst i.
    destruct (run_adds_own (schedule_adds jobs) st1 object id index)
      as (r & _ & Hr); [|done|].
    { rewrite (fmap_Permutation _ _ _ (schedule_adds_perm _)).
      apply add_jobs_NoDup. }
    rewrite (schedule_adds_perm jobs) in Hjob.
    apply elem_of_add_jobs in Hjob as (_ & Hl & Hnone & _).
    rewrite Nat.sub_0_r in Hl. split; [by apply lookup_lt_Some in Hl|].
    rewrite Hr, Hnone in He. destruct r as [err|]; [|done].
    right. exists err. congruence.
  - rewrite run_adds_errs_other in He by done.
    assert (Hl : forall c, c ∈ schedule_puts (chunks objects) ->
                           c ∈ chunks objects).
    { intros c Hc. by rewrite (schedule_puts_perm (chunks objects)) in Hc. }
    destruct (run_chunks_errs_shape (fun _ => putObjectsInTx) objects _
                (init_state d v) putObjectsInTx_framed Hl index e He)
      as [Hinit|[Hlt Hshape]]; [done|]. split; [done|by left].
Qed.

(** The second phase leaves the database and the [docID] map alone. *)
Lemma putObjectBatch_store (ctx : Context)
    (objects : list storobj_Object) (d : DB) (v : VectorIndex) :
  st_db (putObjectBatch ctx objects d v)
  = st_db (putObjectBatch_phase1 objects (init_state d v))
  /\ st_docIDs (putObjectBatch ctx objects d v)
     = st_docIDs (putObjectBatch_phase1 objects (init_state d v)).
Proof.
  unfold putObjectBatch. by rewrite run_adds_db, run_adds_docIDs.
Qed.

Lemma putObjectsInTx_store (batch : list storobj_Object)
    (st1 st2 : batchState) :
  st_db st1 = st_db st2 -> st_docIDs st1 = st_docIDs st2 ->
  st_db (putObjectsInTx batch st1).1 = st_db (putObjectsInTx batch st2).1 /\
  st_docIDs (putObjectsInTx batch st1).1
  = st_docIDs (putObjectsInTx batch st2).1 /\
  (putObjectsInTx batch st1).2 = (putObjectsInTx batch st2).2.
Proof.
  revert st1 st2.
  induction batch as [|object batch IH]; intros st1 st2 Hdb Hids; [done|].
  cbn [putObjectsInTx]. rewrite <- Hdb.
  destruct (uuid_Parse (Object_ID object)) as [uuidParsed|err]; [|done].
  destruct (uuid_MarshalBinary uuidParsed) as [idBytes|err]; [|done].
  destruct (putObjectInTx (st_db st1) object idBytes) as [tx [status|err]];
    [|done].
  apply IH; [done|]. cbn. by rewrite Hids.
Qed.

(** *** The transaction function on a concatenation *)

Lemma putObjectsInTx_app (batch1 batch2 : list storobj_Object)
    (st : batchState) :
  putObjectsInTx (batch1 ++ batch2) st
  = match (putObjectsInTx batch1 st).2 with
    | None => putObjectsInTx batch2 (putObjectsInTx batch1 st).1
    | Some err => ((putObjectsInTx batch1 st).1, Some err)
    end.
Proof.
  revert st. induction batch1 as [|object batch1 IH]; intros st; [done|].
  cbn [app putObjectsInTx].
  destruct (uuid_Parse (Object_ID object)) as [uuidParsed|err]; [|done].
  destruct (uuid_MarshalBinary uuidParsed) as [idBytes|err]; [|done].
  destruct (putObjectInTx (st_db st) object idBytes) as [tx [status|err]];
    [|done].
  apply IH.
Qed.

(** X7. The transaction function stops at the first object it cannot
    store.  When the objects before [object] went through and the id of
    [object] does not parse, the function returns that parse error
    wrapped with "invalid id", and neither [object] nor any object after
    it is handed to [putObjectInTx]: the state is the one the objects
    before it left.  When instead [putObjectInTx] refuses [object], its
    error is returned as it is and the objects after it are not
    touched. *)
Theorem putObjectsInTx_stops_at_first_failure
    (before after : list storobj_Object) (object : storobj_Object)
    (st : batchState) :
  (putObjectsInTx before st).2 = None ->
  (forall err,
     uuid_Parse (Object_ID object) = Err err ->
     putObjectsInTx (before ++ object :: after) st
     = ((putObjectsInTx before st).1, Some (errors_Wrap err "invalid id")))
  /\ (forall uuidParsed idBytes tx err,
        uuid_Parse (Object_ID object) = Ok uuidParsed ->
        uuid_MarshalBinary uuidParsed = Ok idBytes ->
        putObjectInTx (st_db (putObjectsInTx before st).1) object idBytes
        = (tx, Err err) ->
        (putObjectsInTx (before ++ object :: after) st).2 = Some err
        /\ st_trace (putObjectsInTx (before ++ object :: after) st).1
           = st_trace (putObjectsInTx before st).1 ++ [EvPutObjectInTx object]
        /\ st_docIDs (putObjectsInTx (before ++ object :: after) st).1
           = st_docIDs (putObjectsInTx before st).1).
Proof.
  intros Hbefore. split.
  - intros err Hparse. rewrite putObjectsInTx_app, Hbefore.
    cbn [putObjectsInTx]. by rewrite Hparse.
  - intros uuidParsed idBytes tx err Hparse Hmarshal Hput.
    rewrite putObjectsInTx_app, Hbefore.
    cbn [putObjectsInTx]. by rewrite Hparse, Hmarshal, Hput.
Qed.

(** *** When nothing fails *)

Lemma putObjectsInTx_all_stored (batch : list storobj_Object)
    (st : batchState) :
  (forall object, object ∈ batch ->
     exists uuidParsed idBytes,
       uuid_Parse (Object_ID object) = Ok uuidParsed /\
       uuid_MarshalBinary uuidParsed = Ok idBytes /\
       forall tx, exists tx' status,
         putObjectInTx tx object idBytes = (tx', Ok status)) ->
  (putObjectsInTx batch st).2 = None.
Proof.
  revert st. induction batch as [|object batch IH]; intros st Hok; [done|].
  cbn [putObjectsInTx].
  destruct (Hok object (list_elem_of_here _ _))
    as (uuidParsed & idBytes & -> & -> & Hput).
  destruct (Hput (st_db st)) as (tx' & status & ->).
  apply IH. intros o Ho. by apply Hok, list_elem_of_further.
Qed.

Lemma run_chunks_errs_all_commit {A : Type}
    (body : nat -> list A -> batchState -> batchState * option error)
    (l : list (nat * list A)) (st : batchState) :
  framed body ->
  (forall c s, c ∈ l -> batch_outcome body c s = None) ->
  st_errs (run (chunk_goroutine body) l st) = st_errs st.
Proof.
  intros Hframed. unfold run. revert st.
  induction l as [|c l IH]; intros st Hok; [done|].
  cbn [foldl]. rewrite IH.
  - apply goroutine_errs_commit; [done|]. apply Hok, list_elem_of_here.
  - intros c' s Hc'. by apply Hok, list_elem_of_further.
Qed.

Lemma run_adds_errs_all_ok (l : list (storobj_Object * Z * nat))
    (st : batchState) :
  (forall vi id vector, (vectorIndex_Add vi id vector).2 = None) ->
  st_errs (run add_goroutine l st) = st_errs st.
Proof.
  intros Hok. unfold run. revert st.
  induction l as [|[[object id] index] l IH]; intros st; [done|].
  cbn [foldl]. rewrite IH. unfold add_goroutine.
  pose proof (Hok (st_vectorIndex st) id (Object_Vector object)) as Hr.
  destruct (vectorIndex_Add _ _ _) as [vi r]. cbn [snd] in Hr. by subst r.
Qed.

Lemma add_jobs_no_errors (k : nat) (objects : list storobj_Object)
    (docIDs : gmap string Z) :
  (add_jobs k objects ∅ docIDs).*2 = seq k (length objects).
Proof.
  revert k. induction objects as [|object objects IH]; intros k; [done|].
  cbn [add_jobs]. rewrite lookup_empty. cbn. by rewrite IH.
Qed.

(** X6. When bolt reports no error of its own, the id of every object
    parses, the store accepts every object and the vector index accepts
    every vector, a batch put returns the empty map and
    [VectorIndex.Add] has been called once for every index of the
    input, however often bolt ran the transaction functions. *)
Theorem putObjectBatch_all_succeed (ctx : Context)
    (objects : list storobj_Object) (d : DB) (v : VectorIndex) :
  (forall i, batch_begin (bolt i) = None /\ batch_commit (bolt i) = None) ->
  (forall object, object ∈ objects ->
     exists uuidParsed idBytes,
       uuid_Parse (Object_ID object) = Ok uuidParsed /\
       uuid_MarshalBinary uuidParsed = Ok idBytes /\
       forall tx, exists tx' status,
         putObjectInTx tx object idBytes = (tx', Ok status)) ->
  (forall vi id vector, (vectorIndex_Add vi id vector).2 = None) ->
  st_errs (putObjectBatch ctx objects d v) = ∅
  /\ omap vector_call_index (st_trace (putObjectBatch ctx objects d v))
     ≡ₚ seq 0 (length objects).
Proof.
  intros Hbolt Hstore Hindex.
  assert (He1 : st_errs (putObjectBatch_phase1 objects (init_state d v)) = ∅).
  { unfold putObjectBatch_phase1.
    rewrite (run_chunks_errs_all_commit (fun _ => putObjectsInTx));
      [done|apply putObjectsInTx_framed|].
    intros c s Hc. rewrite put_batch_outcome. unfold batch_result.
    destruct (Hbolt c.1) as [-> ->].
    rewrite putObjectsInTx_all_stored; [done|].
    intros object Hobj. apply Hstore.
    rewrite (schedule_puts_perm (chunks objects)) in Hc.
    apply elem_of_chunks in Hc as (k & _ & ->).
    cbn [snd chunk_at] in Hobj.
    by apply subseteq_take, subseteq_drop in Hobj. }
  split.
  - unfold putObjectBatch. by rewrite run_adds_errs_all_ok.
  - rewrite putObjectBatch_call_indices, He1. by rewrite add_jobs_no_errors.
Qed.

Lemma put_goroutine_store (c : nat * list storobj_Object)
    (st1 st2 : batchState) :
  st_db st1 = st_db st2 -> st_docIDs st1 = st_docIDs st2 ->
  st_db (put_goroutine c st1) = st_db (put_goroutine c st2) /\
  st_docIDs (put_goroutine c st1) = st_docIDs (put_goroutine c st2).
Proof.
  intros Hdb Hids. unfold put_goroutine.
  apply (goroutine_related (fun _ => putObjectsInTx)
           putObjectsInTx_db_determined
           (fun s1 s2 => st_db s1 = st_db s2 /\ st_docIDs s1 = st_docIDs s2));
    try done.
  - by intros s1 s2 [? ?].
  - by intros s1 s2 d' [? ?].
  - intros s1 s2 [Hd Hi].
    destruct (putObjectsInTx_store c.2 s1 s2 Hd Hi) as (? & ? & _). done.
Qed.

Lemma run_puts_store (l : list (nat * list storobj_Object))
    (st1 st2 : batchState) :
  st_db st1 = st_db st2 -> st_docIDs st1 = st_docIDs st2 ->
  st_db (run put_goroutine l st1) = st_db (run put_goroutine l st2) /\
  st_docIDs (run put_goroutine l st1) = st_docIDs (run put_goroutine l st2).
Proof.
  unfold run. revert st1 st2.
  induction l as [|c l IH]; intros st1 st2 Hdb Hids; [done|].
  cbn [foldl]. by apply IH; apply put_goroutine_store.
Qed.

(** * Further properties of the REST handlers *)

(** ** API links *)

Lemma extendReferenceWithAPILink_Beacon (ref : SingleRef) :
  Beacon (extendReferenceWithAPILink ref) = Beacon ref.
Proof.
  unfold extendReferenceWithAPILink.
  by destruct (crossref_Parse (Beacon ref)).
Qed.

Lemma extendReferenceWithAPILink_idemp (ref : SingleRef) :
  extendReferenceWithAPILink (extendReferenceWithAPILink ref)
  = extendReferenceWithAPILink ref.
Proof.
  unfold extendReferenceWithAPILink at 1.
  rewrite extendReferenceWithAPILink_Beacon.
  unfold extendReferenceWithAPILink.
  by destruct (crossref_Parse (Beacon ref)) as [parsed|err].
Qed.

(** X9. [extendSchemaWithAPILinks] keeps the keys of the schema map and
    every value that is not a list of references; in a list of
    references it keeps the number of references and every beacon, leaves
    a reference whose beacon does not parse as it is, and gives every
    other reference the link [<origin>/v1/<kind>s/<id>] of its beacon. *)
Theorem extendSchemaWithAPILinks_preserves
    (schema : gmap string PropertyValue) (key : string) :
  (extendSchemaWithAPILinks schema !! key = None <-> schema !! key = None)
  /\ (forall tag,
        schema !! key = Some (OtherValue tag) ->
        extendSchemaWithAPILinks schema !! key = Some (OtherValue tag))
  /\ (forall refs,
        schema !! key = Some (MultipleRef refs) ->
        exists refs',
          extendSchemaWithAPILinks schema !! key = Some (MultipleRef refs')
          /\ length refs' = length refs
          /\ Beacon <$> refs' = Beacon <$> refs
          /\ forall i ref,
               refs !! i = Some ref ->
               match crossref_Parse (Beacon ref) with
               | Err _ => refs' !! i = Some ref
               | Ok parsed =>
                   refs' !! i
                   = Some {| Beacon := Beacon ref;
                             Href := api_link (config_Origin h) parsed |}
               end).
Proof.
  unfold extendSchemaWithAPILinks. rewrite lookup_fmap.
  split; [|split].
  - by rewrite fmap_None.
  - by intros tag ->.
  - intros refs ->. cbn. eexists. split; [done|].
    unfold extendReferencesWithAPILinks. split; [by rewrite length_map|].
    split.
    + change (map extendReferenceWithAPILink refs)
        with (extendReferenceWithAPILink <$> refs).
      rewrite <- list_fmap_compose. apply list_fmap_ext.
      intros _ ref _. apply extendReferenceWithAPILink_Beacon.
    + intros i ref Hi.
      change (map extendReferenceWithAPILink refs)
        with (extendReferenceWithAPILink <$> refs).
      rewrite list_lookup_fmap, Hi. cbn. unfold extendReferenceWithAPILink.
      by destruct (crossref_Parse (Beacon ref)).
Qed.

(** X10. Extending with API links is idempotent: a schema map, a thing
    or an action that went through the extension once is not changed by
    a second pass. *)
Theorem extendSchemaWithAPILinks_idempotent
    (schema : gmap string PropertyValue) (thing : Thing) (action : Action) :
  extendSchemaWithAPILinks (extendSchemaWithAPILinks schema)
  = extendSchemaWithAPILinks schema
  /\ extendThing (extendThing thing) = extendThing thing
  /\ extendAction (extendAction action) = extendAction action.
Proof.
  assert (Hmap : forall m,
            extendSchemaWithAPILinks (extendSchemaWithAPILinks m)
            = extendSchemaWithAPILinks m).
  { intros m. unfold extendSchemaWithAPILinks.
    rewrite <- map_fmap_compose. apply map_fmap_ext.
    intros _ [refs|tag] _; cbn; [|done]. f_equal.
    unfold extendReferencesWithAPILinks. rewrite map_map.
    apply map_ext. intros ref. apply extendReferenceWithAPILink_idemp. }
  split; [apply Hmap|]. split.
  - unfold extendThing. cbn. f_equal.
    destruct (thing_Schema thing); cbn; by rewrite ?Hmap.
  - unfold extendAction. cbn. f_equal.
    destruct (action_Schema action); cbn; by rewrite ?Hmap.
Qed.

(** X11. A list answer holds the items the manager returned, in the
    manager's order and with their ids and classes, and it reports the
    deprecation of the [meta] parameter exactly when [meta] is true. *)
Theorem list_response_items (ctx : Context) (principal : Principal)
    (limit : option Z) (include : option string) (meta : option bool)
    (r : ThingsListResponse) :
  resp_payload (getThings ctx principal limit include meta)
  = ThingsListPayload r ->
  exists things,
    GetThings (manager h) ctx principal limit
      (applyMeta meta (parseIncludeParam include).1) = Ok things
    /\ thing_ID <$> tl_Things r = thing_ID <$> things
    /\ thing_Class <$> tl_Things r = thing_Class <$> things
    /\ tl_Deprecations r
       = if derefBool meta then [deprecations_ByID "rest-meta-prop"] else [].
Proof.
  unfold getThings.
  destruct (parseIncludeParam include) as [u [err|]]; cbn [fst]; [done|].
  destruct (GetThings _ _ _ _ _) as [things|err].
  - cbn. intros [= <-]. cbn. exists things. split; [done|].
    change (map extendThing things) with (extendThing <$> things).
    rewrite <- !list_fmap_compose. done.
  - by destruct err.
Qed.

(** ** More on the include parameter *)

Lemma case_of_true (prop : string) (labels : list string) :
  case_of prop labels = true -> prop ∈ labels.
Proof.
  unfold case_of. intros (x & Hin & Heq)%existsb_exists.
  apply String.eqb_eq in Heq. subst x. by apply list_elem_of_In.
Qed.

Ltac concrete_label H :=
  apply case_of_true in H;
  repeat (apply elem_of_cons in H as [->|H]);
  [..|by apply elem_of_nil in H].

Lemma flags_of_parts_cons (prop : string) (parts : list string)
    (out : UnderscoreProperties) :
  flags_of_parts (prop :: parts) out
  = flags_of_parts parts (flags_of_parts [prop] out).
Proof.
  unfold flags_of_parts, requested. cbn [existsb Classification RefMeta Vector
    NearestNeighbors FeatureProjection Interpretation].
  rewrite !orb_false_r, !orb_assoc.
  f_equal.
  destruct (case_of prop featureProjection_labels); cbn; [|done].
  by destruct (existsb _ parts).
Qed.

Lemma parseIncludeParts_flags (parts : list string)
    (out : UnderscoreProperties) :
  (parseIncludeParts parts out).2 = None ->
  (parseIncludeParts parts out).1 = flags_of_parts parts out.
Proof.
  revert out. induction parts as [|prop parts IH]; intros out.
  - intros _. destruct out. unfold flags_of_parts. cbn.
    by rewrite !orb_false_r.
  - rewrite flags_of_parts_cons. cbn [parseIncludeParts].
    destruct (case_of prop classification_labels) eqn:H1.
    { intros Hok. rewrite (IH _ Hok). f_equal.
      concrete_label H1; destruct out; unfold flags_of_parts; cbn;
        by rewrite !orb_true_r, !orb_false_r. }
    destruct (case_of prop interpretation_labels) eqn:H2.
    { intros Hok. rewrite (IH _ Hok). f_equal.
      concrete_label H2; destruct out; unfold flags_of_parts; cbn;
        by rewrite !orb_true_r, !orb_false_r. }
    destruct (case_of prop nearestNeighbors_labels) eqn:H3.
    { intros Hok. rewrite (IH _ Hok). f_equal.
      concrete_label H3; destruct out; unfold flags_of_parts; cbn;
        by rewrite !orb_true_r, !orb_false_r. }
    destruct (case_of prop featureProjection_labels) eqn:H4.
    { intros Hok. rewrite (IH _ Hok). f_equal.
      concrete_label H4; destruct out; unfold flags_of_parts; cbn;
        by rewrite !orb_false_r. }
    destruct (case_of prop vector_labels) eqn:H5.
    { intros Hok. rewrite (IH _ Hok). f_equal.
      concrete_label H5; destruct out; unfold flags_of_parts; cbn;
        by rewrite !orb_true_r, !orb_false_r. }
    done.
Qed.

(** X12. When the include parameter parses, each enrichment is on
    exactly when one of the parts is one of its spellings:
    Classification and RefMeta for the two spellings of classification,
    Vector, NearestNeighbors, FeatureProjection and Interpretation each
    for its own. *)
Theorem parseIncludeParam_flags (s : string) :
  (parseIncludeParam (Some s)).2 = None ->
  (parseIncludeParam (Some s)).1
  = {| Classification := requested classification_labels (strings_Split s ",");
       RefMeta := requested classification_labels (strings_Split s ",");
       Vector := requested vector_labels (strings_Split s ",");
       NearestNeighbors :=
         requested nearestNeighbors_labels (strings_Split s ",");
       FeatureProjection :=
         if requested featureProjection_labels (strings_Split s ",")
         then Some projector_Params_zero else None;
       Interpretation :=
         requested interpretation_labels (strings_Split s ",") |}.
Proof.
  intros Hok. unfold parseIncludeParam in *.
  by rewrite (parseIncludeParts_flags _ _ Hok).
Qed.

Lemma requested_same_set (labels parts parts' : list string) :
  (forall prop, prop ∈ parts <-> prop ∈ parts') ->
  requested labels parts = requested labels parts'.
Proof.
  intros Hset. unfold requested. apply eq_true_iff_eq.
  rewrite !existsb_exists. split; intros (x & Hin & Hx); exists x;
    (split; [|done]); apply list_elem_of_In, Hset, list_elem_of_In, Hin.
Qed.

Lemma first_unrecognized_None (parts : list string) :
  first_unrecognized parts = None
  <-> forall prop, prop ∈ parts -> case_of prop accepted_labels = true.
Proof.
  unfold first_unrecognized. split.
  - intros Hnone prop Hin.
    apply list_elem_of_In in Hin.
    pose proof (find_none _ _ Hnone prop Hin) as Hf. cbn in Hf.
    by apply negb_false_iff in Hf.
  - intros Hall. induction parts as [|p parts IH]; [done|].
    cbn [List.find]. rewrite (Hall p (list_elem_of_here _ _)). cbn.
    apply IH. intros prop Hin. by apply Hall, list_elem_of_further.
Qed.

(** X13. A successful parse depends only on which parts occur in the
    include list: repeating a part or changing the order of the parts
    changes neither the success nor the enrichments. *)
Theorem parseIncludeParam_same_parts (s s' : string) :
  (forall prop,
     prop ∈ strings_Split s "," <-> prop ∈ strings_Split s' ",") ->
  (parseIncludeParam (Some s)).2 = None ->
  parseIncludeParam (Some s') = parseIncludeParam (Some s).
Proof.
  intros Hset Hok.
  assert (Hok' : (parseIncludeParam (Some s')).2 = None).
  { unfold parseIncludeParam in *.
    rewrite parseIncludeParts_error in Hok |- *.
    destruct (first_unrecognized (strings_Split s ",")) eqn:Hs; [done|].
    rewrite first_unrecognized_None in Hs.
    replace (first_unrecognized (strings_Split s' ",")) with (@None string);
      [done|].
    symmetry. apply first_unrecognized_None.
    intros prop Hin. by apply Hs, Hset. }
  pose proof (parseIncludeParam_flags s Hok) as Hf.
  pose proof (parseIncludeParam_flags s' Hok') as Hf'.
  destruct (parseIncludeParam (Some s)) as [u r].
  destruct (parseIncludeParam (Some s')) as [u' r'].
  cbn [fst snd] in *. subst r r'. f_equal.
  rewrite Hf, Hf'.
  by rewrite !(requested_same_set _ _ _ Hset).
Qed.

(** *** Appending parts *)

Lemma strings_Split_nonempty (s : string) (sep : ascii) :
  strings_Split s sep <> [].
Proof.
  destruct s as [|c s]; cbn; [done|].
  destruct (Ascii.eqb c sep); [done|].
  by destruct (strings_Split s sep).
Qed.

Lemma strings_Split_app (s t : string) (sep : ascii) :
  strings_Split (s ++ String sep t)%string sep
  = strings_Split s sep ++ strings_Split t sep.
Proof.
  induction s as [|c s IH].
  - change (strings_Split (String sep t) sep
            = [EmptyString] ++ strings_Split t sep).
    cbn [strings_Split]. by rewrite Ascii.eqb_refl.
  - change (strings_Split (String c (s ++ String sep t)%string) sep
            = strings_Split (String c s) sep ++ strings_Split t sep).
    cbn [strings_Split].
    destruct (Ascii.eqb c sep); [by rewrite IH|].
    rewrite IH. pose proof (strings_Split_nonempty s sep).
    by destruct (strings_Split s sep).
Qed.

Lemma parseIncludeParts_app (parts1 parts2 : list string)
    (out : UnderscoreProperties) :
  parseIncludeParts (parts1 ++ parts2) out
  = match (parseIncludeParts parts1 out).2 with
    | None => parseIncludeParts parts2 (parseIncludeParts parts1 out).1
    | Some err => parseIncludeParts parts1 out
    end.
Proof.
  revert out. induction parts1 as [|prop parts1 IH]; intros out; [done|].
  cbn [app parseIncludeParts].
  destruct (case_of prop classification_labels); [apply IH|].
  destruct (case_of prop interpretation_labels); [apply IH|].
  destruct (case_of prop nearestNeighbors_labels); [apply IH|].
  destruct (case_of prop featureProjection_labels); [apply IH|].
  destruct (case_of prop vector_labels); [apply IH|].
  done.
Qed.

(** X14. For the handlers of a single thing or action, the deprecated
    [meta=true] parameter is the same as asking for the classification
    and the vector in the include list: the answer to a request with
    [meta=true] is the answer to the request without [meta] whose include
    list has ",classification,vector" appended (or is
    "classification,vector" when there was none). *)
Theorem meta_is_classification_and_vector (ctx : Context)
    (principal : Principal) (id : string) (s : string) :
  getThing ctx principal id (Some s) (Some true)
  = getThing ctx principal id (Some (s ++ ",classification,vector")%string) None
  /\ getThing ctx principal id None (Some true)
     = getThing ctx principal id (Some "classification,vector") None
  /\ getAction ctx principal id (Some s) (Some true)
     = getAction ctx principal id
         (Some (s ++ ",classification,vector")%string) None
  /\ getAction ctx principal id None (Some true)
     = getAction ctx principal id (Some "classification,vector") None.
Proof.
  assert (Happ : parseIncludeParam (Some (s ++ ",classification,vector")%string)
                 = match (parseIncludeParam (Some s)).2 with
                   | None => (applyMeta (Some true) (parseIncludeParam (Some s)).1,
                              None)
                   | Some err => parseIncludeParam (Some s)
                   end).
  { unfold parseIncludeParam.
    rewrite (strings_Split_app s "classification,vector" ","),
      parseIncludeParts_app.
    by destruct (parseIncludeParts (strings_Split s ",") _) as [u [err|]]. }
  unfold getThing, getAction. rewrite Happ.
  destruct (parseIncludeParam (Some s)) as [u [err|]]; cbn [fst snd];
    repeat split; done.
Qed.

(** ** Payloads and operations of the answers *)

Ltac handler_cases :=
  repeat match goal with
         | |- context [match ?r with Ok _ => _ | Err _ => _ end] =>
             destruct r as [?|[]]
         | |- context [match ?r with Some _ => _ | None => _ end] =>
             destruct r as [[]|]
         end;
  reflexivity.

(** X15. What the answers of the twenty handlers carry.  An answer to a
    failed request carries the error of the manager, except that the get
    and delete handlers answer a NotFound error with an empty body; the
    four handlers that parse the include parameter answer a part they do
    not recognise with the error of the parse.  A successful create, get
    or update carries the thing or action of the manager with its API
    links; a successful list carries the things or actions of the
    manager with their API links, their number, and the deprecation of
    the meta parameter when it was set; and validate, delete, patch and
    the reference handlers answer success with an empty body. *)
Theorem handler_payloads (ctx : Context) (principal : Principal)
    (id propertyName : string) (thing : Thing) (action : Action)
    (ref : SingleRef) (refs : list SingleRef) (limit : option Z)
    (meta : option bool) (include : option string) :
  (resp_payload (addThing ctx principal thing)
   = payload_of_result ErrorPayload (fun t => ThingPayload (extendThing t))
       (AddThing (manager h) ctx principal thing)
   /\ resp_payload (addAction ctx principal action)
      = payload_of_result ErrorPayload (fun a => ActionPayload (extendAction a))
          (AddAction (manager h) ctx principal action)
   /\ resp_payload (updateThing ctx principal id thing)
      = payload_of_result ErrorPayload (fun t => ThingPayload (extendThing t))
          (UpdateThing (manager h) ctx principal id thing)
   /\ resp_payload (updateAction ctx principal id action)
      = payload_of_result ErrorPayload (fun a => ActionPayload (extendAction a))
          (UpdateAction (manager h) ctx principal id action)
   /\ resp_payload (getThing ctx principal id include meta)
      = payload_after_parse include
          (payload_of_result payload_on_read
             (fun t => ThingPayload (extendThing t))
             (GetThing (manager h) ctx principal id
                (applyMeta meta (parseIncludeParam include).1)))
   /\ resp_payload (getAction ctx principal id include meta)
      = payload_after_parse include
          (payload_of_result payload_on_read
             (fun a => ActionPayload (extendAction a))
             (GetAction (manager h) ctx principal id
                (applyMeta meta (parseIncludeParam include).1))))
  /\ (resp_payload (getThings ctx principal limit include meta)
      = payload_after_parse include
          (payload_of_result ErrorPayload
             (fun things =>
                ThingsListPayload
                  {| tl_Things := map extendThing things;
                     tl_TotalResults :=
                       Z.of_nat (length (map extendThing things));
                     tl_Deprecations := metaDeprecations meta |})
             (GetThings (manager h) ctx principal limit
                (applyMeta meta (parseIncludeParam include).1)))
      /\ resp_payload (getActions ctx principal limit include meta)
         = payload_after_parse include
             (payload_of_result ErrorPayload
                (fun actions =>
                   ActionsListPayload
                     {| al_Actions := map extendAction actions;
                        al_Deprecations := metaDeprecations meta;
                        al_TotalResults :=
                          Z.of_nat (length (map extendAction actions)) |})
                (GetActions (manager h) ctx principal limit
                   (applyMeta meta (parseIncludeParam include).1))))
  /\ (resp_payload (validateThing ctx principal thing)
      = payload_of_error ErrorPayload
          (ValidateThing (manager h) ctx principal thing)
      /\ resp_payload (validateAction ctx principal action)
         = payload_of_error ErrorPayload
             (ValidateAction (manager h) ctx principal action)
      /\ resp_payload (patchThing ctx principal id thing)
         = payload_of_error ErrorPayload
             (MergeThing (manager h) ctx principal id thing)
      /\ resp_payload (patchAction ctx principal id action)
         = payload_of_error ErrorPayload
             (MergeAction (manager h) ctx principal id action)
      /\ resp_payload (deleteThing ctx principal id)
         = payload_of_error payload_on_read
             (DeleteThing (manager h) ctx principal id)
      /\ resp_payload (deleteAction ctx principal id)
         = payload_of_error payload_on_read
             (DeleteAction (manager h) ctx principal id))
  /\ (resp_payload (addThingReference ctx principal id propertyName ref)
      = payload_of_error ErrorPayload
          (AddThingReference (manager h) ctx principal id propertyName ref)
      /\ resp_payload (addActionReference ctx principal id propertyName ref)
         = payload_of_error ErrorPayload
             (AddActionReference (manager h) ctx principal id propertyName ref)
      /\ resp_payload (updateThingReferences ctx principal id propertyName refs)
         = payload_of_error ErrorPayload
             (UpdateThingReferences (manager h) ctx principal id propertyName refs)
      /\ resp_payload (updateActionReferences ctx principal id propertyName refs)
         = payload_of_error ErrorPayload
             (UpdateActionReferences (manager h) ctx principal id propertyName refs)
      /\ resp_payload (deleteThingReference ctx principal id propertyName ref)
         = payload_of_error ErrorPayload
             (DeleteThingReference (manager h) ctx principal id propertyName ref)
      /\ resp_payload (deleteActionReference ctx principal id propertyName ref)
         = payload_of_error ErrorPayload
             (DeleteActionReference (manager h) ctx principal id propertyName ref)).
Proof.
  unfold payload_of_result, payload_of_error, payload_on_read,
    errPayloadFromSingleErr.
  split; [|split; [|split]].
  - unfold addThing, addAction, updateThing, updateAction, getThing, getAction,
      payload_after_parse.
    repeat split; try handler_cases;
      destruct (parseIncludeParam include) as [u [err|]]; cbn [fst snd];
      try reflexivity; handler_cases.
  - unfold getThings, getActions, payload_after_parse.
    split; destruct (parseIncludeParam include) as [u [err|]];
      cbn [fst snd]; try reflexivity; handler_cases.
  - unfold validateThing, validateAction, patchThing, patchAction,
      deleteThing, deleteAction.
    repeat split; handler_cases.
  - unfold addThingReference, addActionReference, updateThingReferences,
      updateActionReferences, deleteThingReference, deleteActionReference.
    repeat split; handler_cases.
Qed.

(** X16. Every handler answers with a responder of its own operation,
    with one exception: the two patch handlers answer an
    InvalidUserInput error and an error of a type they do not name with
    the 422 and 500 responders of the update operation. *)
Theorem handler_operations (ctx : Context) (principal : Principal)
    (id propertyName : string) (thing : Thing) (action : Action)
    (ref : SingleRef) (refs : list SingleRef) (limit : option Z)
    (meta : option bool) (include : option string) :
  (resp_op (addThing ctx principal thing) = ThingsCreate
   /\ resp_op (addAction ctx principal action) = ActionsCreate
   /\ resp_op (validateThing ctx principal thing) = ThingsValidate
   /\ resp_op (validateAction ctx principal action) = ActionsValidate
   /\ resp_op (getThing ctx principal id include meta) = ThingsGet
   /\ resp_op (getAction ctx principal id include meta) = ActionsGet
   /\ resp_op (getThings ctx principal limit include meta) = ThingsList
   /\ resp_op (getActions ctx principal limit include meta) = ActionsList
   /\ resp_op (updateThing ctx principal id thing) = ThingsUpdate
   /\ resp_op (updateAction ctx principal id action) = ActionsUpdate
   /\ resp_op (deleteThing ctx principal id) = ThingsDelete
   /\ resp_op (deleteAction ctx principal id) = ActionsDelete)
  /\ (resp_op (addThingReference ctx principal id propertyName ref)
      = ThingsReferencesCreate
      /\ resp_op (addActionReference ctx principal id propertyName ref)
         = ActionsReferencesCreate
      /\ resp_op (updateThingReferences ctx principal id propertyName refs)
         = ThingsReferencesUpdate
      /\ resp_op (updateActionReferences ctx principal id propertyName refs)
         = ActionsReferencesUpdate
      /\ resp_op (deleteThingReference ctx principal id propertyName ref)
         = ThingsReferencesDelete
      /\ resp_op (deleteActionReference ctx principal id propertyName ref)
         = ActionsReferencesDelete)
  /\ (resp_op (patchThing ctx principal id thing)
      = patch_operation ThingsPatch ThingsUpdate
          (MergeThing (manager h) ctx principal id thing)
      /\ resp_op (patchAction ctx principal id action)
         = patch_operation ActionsPatch ActionsUpdate
             (MergeAction (manager h) ctx principal id action)).
Proof.
  split; [|split].
  - unfold addThing, addAction, validateThing, validateAction, getThing,
      getAction, getThings, getActions, updateThing, updateAction,
      deleteThing, deleteAction.
    repeat split; try handler_cases;
      destruct (parseIncludeParam include) as [u [err|]];
      try reflexivity; handler_cases.
  - unfold addThingReference, addActionReference, updateThingReferences,
      updateActionReferences, deleteThingReference, deleteActionReference.
    repeat split; handler_cases.
  - unfold patchThing, patchAction, patch_operation.
    repeat split; handler_cases.
Qed.

(** * Validation of a list response *)

Lemma validateActions_from_None (i : nat) (actions : list (option Action)) :
  validateActions_from i actions = None <-> Forall action_passes actions.
Proof.
  revert i. induction actions as [|[action|] actions IH]; intros i;
    cbn [validateActions_from].
  - split; [constructor|done].
  - destruct (Action_Validate action) as [err|] eqn:Hv.
    + split; [done|]. intros [Hp _]%Forall_cons. cbn in Hp. congruence.
    + rewrite IH, Forall_cons. cbn.
      split; [intros ?; by split|by intros [_ ?]].
  - rewrite IH, Forall_cons. cbn.
    split; [intros ?; by split|by intros [_ ?]].
Qed.

Lemma validateDeprecations_from_None (i : nat)
    (deprecations : list (option Deprecation)) :
  validateDeprecations_from i deprecations = None
  <-> Forall deprecation_passes deprecations.
Proof.
  revert i. induction deprecations as [|[deprecation|] deprecations IH];
    intros i; cbn [validateDeprecations_from].
  - split; [constructor|done].
  - destruct (Deprecation_Validate deprecation) as [err|] eqn:Hv.
    + split; [done|]. intros [Hp _]%Forall_cons. cbn in Hp. congruence.
    + rewrite IH, Forall_cons. cbn.
      split; [intros ?; by split|by intros [_ ?]].
  - rewrite IH, Forall_cons. cbn.
    split; [intros ?; by split|by intros [_ ?]].
Qed.

Lemma validateActions_unfold (m : models_ActionsListResponse) :
  validateActions m = validateActions_from 0 (m_Actions m).
Proof. unfold validateActions. by destruct (m_Actions m). Qed.

Lemma validateDeprecations_unfold (m : models_ActionsListResponse) :
  validateDeprecations m = validateDeprecations_from 0 (m_Deprecations m).
Proof. unfold validateDeprecations. by destruct (m_Deprecations m). Qed.

(** X17. A list response validates exactly when every action and every
    deprecation in it that is not nil validates; nil elements and empty
    or nil slices are accepted. *)
Theorem ActionsListResponse_Validate_ok (m : models_ActionsListResponse) :
  ActionsListResponse_Validate m = None
  <-> Forall action_passes (m_Actions m)
      /\ Forall deprecation_passes (m_Deprecations m).
Proof.
  unfold ActionsListResponse_Validate.
  rewrite <- (validateActions_from_None 0), <- (validateDeprecations_from_None 0),
    <- validateActions_unfold, <- validateDeprecations_unfold.
  destruct (validateActions m), (validateDeprecations m); cbn;
    (split; [try done|intros [? ?]; try done]).
Qed.

Lemma validateActions_from_first (i : nat)
    (before after : list (option Action)) (action : Action)
    (err : validation_error Validation) :
  Forall action_passes before ->
  Action_Validate action = Some err ->
  validateActions_from i (before ++ Some action :: after)
  = Some (name_validation
            ("actions" ++ "." ++ strconv_Itoa (i + length before))%string err).
Proof.
  revert i. induction before as [|[a|] before IH]; intros i Hpass Herr.
  - cbn [app validateActions_from length]. by rewrite Herr, Nat.add_0_r.
  - apply Forall_cons in Hpass as [Ha Hpass]. cbn in Ha.
    cbn [app validateActions_from length]. rewrite Ha, IH by done.
    by replace (S i + length before) with (i + S (length before)) by lia.
  - apply Forall_cons in Hpass as [_ Hpass].
    cbn [app validateActions_from length]. rewrite IH by done.
    by replace (S i + length before) with (i + S (length before)) by lia.
Qed.

(** X18. Validation reports one error per field: for the actions, the
    error of the first action that does not validate, named
    "actions.<index>" when it is a [Validation] error; the actions after
    it are not looked at.  The composite error lists it first, followed
    by the error of the deprecations if there is one. *)
Theorem ActionsListResponse_Validate_first_action
    (m : models_ActionsListResponse)
    (before after : list (option Action)) (action : Action)
    (err : validation_error Validation) :
  m_Actions m = before ++ Some action :: after ->
  Forall action_passes before ->
  Action_Validate action = Some err ->
  validateActions m
  = Some (name_validation
            ("actions" ++ "." ++ strconv_Itoa (length before))%string err)
  /\ ActionsListResponse_Validate m
     = Some (errors_CompositeError
               (name_validation
                  ("actions" ++ "." ++ strconv_Itoa (length before))%string err
                :: option_list (validateDeprecations m))).
Proof.
  intros Hactions Hpass Herr.
  assert (Hfirst : validateActions m
                   = Some (name_validation
                             ("actions" ++ "." ++ strconv_Itoa (length before))%string
                             err)).
  { rewrite validateActions_unfold, Hactions.
    by rewrite (validateActions_from_first 0 before after action err). }
  split; [done|].
  unfold ActionsListResponse_Validate. rewrite Hfirst.
  by destruct (validateDeprecations m).
Qed.

(** * The contextionary version check *)

Lemma validateContextionaryVersion_loop_first (k attempt fuel : nat)
    (v : string) :
  (forall j, j < k -> exists e, contextionary_Version (attempt + j) = Err e) ->
  contextionary_Version (attempt + k) = Ok v ->
  k < fuel ->
  validateContextionaryVersion_loop fuel attempt
  = Some (S (attempt + k), check_of_version v).
Proof.
  revert attempt fuel. induction k as [|k IH]; intros attempt fuel Hfail Hok Hlt;
    (destruct fuel as [|fuel]; [lia|]); cbn [validateContextionaryVersion_loop].
  - rewrite Nat.add_0_r in Hok |- *. rewrite Hok. unfold check_of_version.
    by destruct (extractVersionAndCompare _ _) as [[]|].
  - destruct (Hfail 0) as [e He]; [lia|]. rewrite Nat.add_0_r in He.
    rewrite He. replace (attempt + S k) with (S attempt + k) in * by lia.
    apply IH; [|done|lia].
    intros j Hj. destruct (Hfail (S j)) as [e' He']; [lia|].
    exists e'. by replace (S attempt + j) with (attempt + S j) by lia.
Qed.

(** X19. The version check keeps asking until the contextionary
    answers: when the first [k] requests fail and the next one returns a
    version, the check ends after [k+1] requests, and how it ends is
    decided by that version alone: it goes on with a warning when the
    version cannot be compared, goes on when it is sufficient, and is
    fatal when it is not. *)
Theorem validateContextionaryVersion_first_answer (k fuel : nat) (v : string) :
  (forall j, j < k -> exists e, contextionary_Version j = Err e) ->
  contextionary_Version k = Ok v ->
  k < fuel ->
  validateContextionaryVersion fuel = Some (S k, check_of_version v).
Proof.
  intros Hfail Hok Hlt.
  by apply (validateContextionaryVersion_loop_first k 0 fuel v).
Qed.

(** X20. While the contextionary cannot be reached the version check
    never ends: whatever the number of iterations allowed, there is no
    result. *)
Theorem validateContextionaryVersion_unreachable (fuel : nat) :
  (forall j, exists e, contextionary_Version j = Err e) ->
  validateContextionaryVersion fuel = None.
Proof.
  intros Hfail. unfold validateContextionaryVersion. generalize 0.
  induction fuel as [|fuel IH]; intros attempt; [done|].
  cbn [validateContextionaryVersion_loop].
  destruct (Hfail attempt) as [e ->]. apply IH.
Qed.

(** * The meta fields of a boolean property *)

Lemma string_app_inv_head (s a b : string) :
  (s ++ a)%string = (s ++ b)%string -> a = b.
Proof.
  induction s as [|c s IH]; [done|].
  change (String c (s ++ a)%string = String c (s ++ b)%string -> a = b).
  intros [= Heq]. by apply IH.
Qed.

Lemma string_app_assoc (a b c : string) :
  (a ++ (b ++ c))%string = ((a ++ b) ++ c)%string.
Proof.
  induction a as [|x a IH]; [done|].
  change (String x (a ++ (b ++ c))%string = String x ((a ++ b) ++ c)%string).
  by rewrite IH.
Qed.

Lemma meta_name_inj (class property suffix1 suffix2 : string) :
  meta_name class property suffix1 = meta_name class property suffix2 ->
  suffix1 = suffix2.
Proof.
  unfold meta_name. intros H.
  by do 3 apply string_app_inv_head in H.
Qed.

Lemma booleanPropertyFields_lookup (class property key : string)
    (f : graphql_Field) :
  object_Fields (booleanPropertyFields class property) !! key = Some f ->
  (key = "type" /\ field_Name f = meta_name class property "Type"
   /\ field_Type f = graphql_String)
  \/ (key = "count" /\ field_Name f = meta_name class property "Count"
      /\ field_Type f = graphql_Int)
  \/ (key = "totalTrue" /\ field_Name f = meta_name class property "TotalTrue"
      /\ field_Type f = graphql_Int)
  \/ (key = "percentageTrue"
      /\ field_Name f = meta_name class property "PercentageTrue"
      /\ field_Type f = graphql_Float)
  \/ (key = "totalFalse" /\ field_Name f = meta_name class property "TotalFalse"
      /\ field_Type f = graphql_Int)
  \/ (key = "percentageFalse"
      /\ field_Name f = meta_name class property "PercentageFalse"
      /\ field_Type f = graphql_Float).
Proof using Type.
  unfold booleanPropertyFields. cbn [object_Fields].
  rewrite !lookup_insert, lookup_empty.
  repeat case_decide; intros [= <-]; subst key; cbn;
    first [ by left
          | by (right; left)
          | by (right; right; left)
          | by (right; right; right; left)
          | by (right; right; right; right; left)
          | by (right; right; right; right; right) ].
Qed.

(** X21. The object built for a boolean property has exactly the six
    fields type, count, totalTrue, percentageTrue, totalFalse and
    percentageFalse; the counts are Int, the percentages Float and the
    type String; and the seven names it declares (its own and those of
    its fields) are pairwise different. *)
Theorem booleanPropertyFields_fields (class property : string) :
  (forall key,
     is_Some (object_Fields (booleanPropertyFields class property) !! key)
     <-> key ∈ boolean_field_keys)
  /\ (forall key f,
        object_Fields (booleanPropertyFields class property) !! key = Some f ->
        field_Type f
        = (if case_of key ["count"; "totalTrue"; "totalFalse"] then graphql_Int
           else if case_of key ["percentageTrue"; "percentageFalse"]
                then graphql_Float
                else graphql_String)
        /\ field_Name f <> object_Name (booleanPropertyFields class property))
  /\ (forall key1 key2 f1 f2,
        object_Fields (booleanPropertyFields class property) !! key1 = Some f1 ->
        object_Fields (booleanPropertyFields class property) !! key2 = Some f2 ->
        field_Name f1 = field_Name f2 -> key1 = key2).
Proof.
  split; [|split].
  - intros key. unfold boolean_field_keys. split.
    + intros [f Hf].
      destruct (booleanPropertyFields_lookup _ _ _ _ Hf)
        as [(-> & _)|[(-> & _)|[(-> & _)|[(-> & _)|[(-> & _)|(-> & _)]]]]];
        repeat first [apply list_elem_of_here | apply list_elem_of_further].
    + intros Hin. unfold booleanPropertyFields. cbn [object_Fields].
      repeat (apply elem_of_cons in Hin as [->|Hin]);
        [..|by apply elem_of_nil in Hin];
        rewrite !lookup_insert, lookup_empty; repeat case_decide; try done;
        by eexists.
  - intros key f Hf.
    destruct (booleanPropertyFields_lookup _ _ _ _ Hf)
      as [(-> & Hn & ->)|[(-> & Hn & ->)|[(-> & Hn & ->)|[(-> & Hn & ->)
         |[(-> & Hn & ->)|(-> & Hn & ->)]]]]];
      (split; [done|]); rewrite Hn; cbn [booleanPropertyFields object_Name];
      intros Heq; apply meta_name_inj in Heq; discriminate Heq.
  - intros key1 key2 f1 f2 Hf1 Hf2 Heq.
    destruct (booleanPropertyFields_lookup _ _ _ _ Hf1)
      as [(-> & Hn1 & _)|[(-> & Hn1 & _)|[(-> & Hn1 & _)|[(-> & Hn1 & _)
         |[(-> & Hn1 & _)|(-> & Hn1 & _)]]]]];
      destruct (booleanPropertyFields_lookup _ _ _ _ Hf2)
        as [(-> & Hn2 & _)|[(-> & Hn2 & _)|[(-> & Hn2 & _)|[(-> & Hn2 & _)
           |[(-> & Hn2 & _)|(-> & Hn2 & _)]]]]];
      try reflexivity;
      rewrite Hn1, Hn2 in Heq; apply meta_name_inj in Heq; discriminate Heq.
Qed.

(** X22. The names of the object depend on the class name and the
    property name only through their concatenation: two properties
    whose class and property names concatenate to the same string get
    the same object, names included. *)
Theorem booleanPropertyFields_concatenation
    (class1 property1 class2 property2 : string) :
  (class1 ++ property1)%string = (class2 ++ property2)%string ->
  booleanPropertyFields class1 property1
  = booleanPropertyFields class2 property2.
Proof.
  intros Heq.
  assert (Hname : forall suffix,
            meta_name class1 property1 suffix
            = meta_name class2 property2 suffix).
  { intros suffix. unfold meta_name.
    by rewrite !(string_app_assoc _ _ suffix), Heq. }
  unfold booleanPropertyFields. by rewrite !Hname.
Qed.

(** * [stripAll] *)

Lemma stripAll_cons (c : ascii) (s : string) :
  stripAll (String c s)
  = if is_blank c then stripAll s else String c (stripAll s).
Proof.
  unfold stripAll, is_blank. cbn [strings_remove].
  destruct (Ascii.eqb c " ") eqn:H1; [done|]. cbn [strings_remove orb].
  destruct (Ascii.eqb c "009") eqn:H2; [done|]. cbn [strings_remove orb].
  by destruct (Ascii.eqb c "010") eqn:H3.
Qed.

Lemma stripAll_app (a b : string) :
  stripAll (a ++ b)%string = (stripAll a ++ stripAll b)%string.
Proof.
  induction a as [|c a IH]; [done|].
  change (String c a ++ b)%string with (String c (a ++ b)%string).
  rewrite !stripAll_cons, IH. by destruct (is_blank c).
Qed.

Lemma stripAll_blank (w : string) :
  string_forall is_blank w = true -> stripAll w = EmptyString.
Proof.
  induction w as [|c w IH]; [done|]. cbn [string_forall].
  intros [Hc Hw]%andb_true_iff. rewrite stripAll_cons, Hc. by apply IH.
Qed.

Lemma stripAll_not_blank (s : string) :
  string_forall (fun c => negb (is_blank c)) (stripAll s) = true.
Proof.
  induction s as [|c s IH]; [done|]. rewrite stripAll_cons.
  destruct (is_blank c) eqn:Hc; [done|].
  cbn [string_forall]. by rewrite Hc, IH.
Qed.

Lemma stripAll_id (s : string) :
  string_forall (fun c => negb (is_blank c)) s = true -> stripAll s = s.
Proof.
  induction s as [|c s IH]; [done|]. cbn [string_forall].
  intros [Hc Hs]%andb_true_iff. apply negb_true_iff in Hc.
  by rewrite stripAll_cons, Hc, IH.
Qed.

(** X23. [stripAll], with which the query builder test compares the
    expected and the built query, removes exactly the spaces, tabs and
    newlines: its result has none of them, a string without them is
    left as it is, stripping twice is stripping once, stripping a
    concatenation is concatenating the stripped parts, and so two
    queries that differ only in blank stretches compare equal. *)
Theorem stripAll_blanks_only (a b w : string) :
  string_forall (fun c => negb (is_blank c)) (stripAll a) = true
  /\ (string_forall (fun c => negb (is_blank c)) a = true -> stripAll a = a)
  /\ stripAll (stripAll a) = stripAll a
  /\ stripAll (a ++ b)%string = (stripAll a ++ stripAll b)%string
  /\ (string_forall is_blank w = true ->
      stripAll (a ++ w ++ b)%string = stripAll (a ++ b)%string).
Proof.
  split; [apply stripAll_not_blank|]. split; [apply stripAll_id|].
  split; [apply stripAll_id, stripAll_not_blank|].
  split; [apply stripAll_app|].
  intros Hw. by rewrite !stripAll_app, (stripAll_blank w Hw).
Qed.

(** * More on the calls of a batch put *)

Lemma add_goroutine_trace_inv (job : storobj_Object * Z * nat)
    (st : batchState) (ev : event) :
  ev ∈ st_trace (add_goroutine job st) ->
  ev ∈ st_trace st
  \/ exists r, ev = EvVectorIndexAdd job.2 job.1.2 (Object_Vector job.1.1) r.
Proof.
  destruct job as [[object id] index].
  destruct (add_goroutine_own object id index st) as (r & _ & -> & _).
  intros [Hin|Hin%list_elem_of_singleton]%elem_of_app; [by left|].
  right. by exists r.
Qed.

Lemma run_adds_trace_inv (l : list (storobj_Object * Z * nat))
    (st : batchState) (ev : event) :
  ev ∈ st_trace (run add_goroutine l st) ->
  ev ∈ st_trace st
  \/ exists job r,
       job ∈ l /\
       ev = EvVectorIndexAdd job.2 job.1.2 (Object_Vector job.1.1) r.
Proof.
  unfold run. revert st. induction l as [|job l IH]; intros st Hin.
  - by left.
  - cbn [foldl] in Hin. destruct (IH _ Hin) as [Hhere|(job' & r & Hj & ->)].
    + destruct (add_goroutine_trace_inv job st ev Hhere) as [?|[r ->]];
        [by left|].
      right. exists job, r. split; [apply list_elem_of_here|done].
    + right. exists job', r. split; [by apply list_elem_of_further|done].
Qed.

Lemma no_vector_calls_elem (tr : list event) (index : nat) (id : Z)
    (vector : list float32) (r : option error) :
  vector_calls tr = [] -> EvVectorIndexAdd index id vector r ∉ tr.
Proof.
  unfold vector_calls. intros Hnone Hin.
  apply list_elem_of_In in Hin.
  assert (Hf : In (EvVectorIndexAdd index id vector r)
                 (List.filter is_vector_call tr)).
  { apply filter_In. by split. }
  rewrite Hnone in Hf. done.
Qed.

(** X24. [VectorIndex.Add] is only ever called for an object of the
    input, with that object's vector and with the [docID] the call
    stored last under the object's id (zero when none was stored).  So
    when two objects of a batch have the same id, their two [Add] calls
    carry the same [docID]. *)
Theorem putObjectBatch_add_arguments (ctx : Context)
    (objects : list storobj_Object) (d : DB) (v : VectorIndex) :
  (forall index id vector r,
     EvVectorIndexAdd index id vector r
       ∈ st_trace (putObjectBatch ctx objects d v) ->
     exists object,
       objects !! index = Some object
       /\ vector = Object_Vector object
       /\ id = default 0%Z
                 (st_docIDs (putObjectBatch ctx objects d v)
                    !! Object_ID object))
  /\ (forall index1 index2 id1 id2 vector1 vector2 r1 r2 object1 object2,
        EvVectorIndexAdd index1 id1 vector1 r1
          ∈ st_trace (putObjectBatch ctx objects d v) ->
        EvVectorIndexAdd index2 id2 vector2 r2
          ∈ st_trace (putObjectBatch ctx objects d v) ->
        objects !! index1 = Some object1 ->
        objects !! index2 = Some object2 ->
        Object_ID object1 = Object_ID object2 ->
        id1 = id2).
Proof.
  assert (Hargs : forall index id vector r,
     EvVectorIndexAdd index id vector r
       ∈ st_trace (putObjectBatch ctx objects d v) ->
     exists object,
       objects !! index = Some object
       /\ vector = Object_Vector object
       /\ id = default 0%Z
                 (st_docIDs (putObjectBatch ctx objects d v)
                    !! Object_ID object)).
  { intros index id vector r Hin.
    rewrite (proj2 (putObjectBatch_store ctx objects d v)).
    unfold putObjectBatch in Hin.
    apply run_adds_trace_inv in Hin as [Hin|([[object id'] index'] & r' & Hjob & Heq)].
    - exfalso. revert Hin. apply no_vector_calls_elem.
      unfold putObjectBatch_phase1.
      by rewrite (run_chunks_vector_calls (fun _ => putObjectsInTx)
                    putObjectsInTx_framed).
    - cbn [fst snd] in Heq. injection Heq as -> -> -> ->.
      rewrite (schedule_adds_perm _) in Hjob.
      apply elem_of_add_jobs in Hjob as (_ & Hl & _ & ->).
      rewrite Nat.sub_0_r in Hl. by exists object. }
  split; [exact Hargs|].
  intros index1 index2 id1 id2 vector1 vector2 r1 r2 object1 object2
    H1 H2 Ho1 Ho2 Hid.
  destruct (Hargs _ _ _ _ H1) as (o1 & Ho1' & _ & ->).
  destruct (Hargs _ _ _ _ H2) as (o2 & Ho2' & _ & ->).
  assert (o1 = object1) by congruence. assert (o2 = object2) by congruence.
  subst. by rewrite Hid.
Qed.

(** *** The calls of [putObjectInTx] *)

Lemma put_calls_app (t1 t2 : list event) :
  put_calls (t1 ++ t2) = put_calls t1 ++ put_calls t2.
Proof. unfold put_calls. apply omap_app. Qed.

Lemma putObjectsInTx_put_calls (batch : list storobj_Object)
    (st : batchState) :
  exists puts,
    put_calls (st_trace (putObjectsInTx batch st).1)
    = put_calls (st_trace st) ++ puts
    /\ puts `prefix_of` batch.
Proof.
  revert st. induction batch as [|object batch IH]; intros st.
  - exists []. cbn. by rewrite app_nil_r.
  - cbn [putObjectsInTx].
    destruct (uuid_Parse (Object_ID object)) as [uuidParsed|err].
    2:{ exists []. cbn. rewrite app_nil_r. split; [done|apply prefix_nil]. }
    destruct (uuid_MarshalBinary uuidParsed) as [idBytes|err].
    2:{ exists []. cbn. rewrite app_nil_r. split; [done|apply prefix_nil]. }
    destruct (putObjectInTx (st_db st) object idBytes) as [tx [status|err]].
    + match goal with
      | |- context [putObjectsInTx batch ?s] =>
          destruct (IH s) as (puts & Hp & Hpre)
      end.
      exists (object :: puts). split; [|by apply prefix_cons].
      rewrite Hp. cbn. rewrite put_calls_app, <- app_assoc. done.
    + exists [object]. cbn. rewrite put_calls_app. split; [done|].
      apply prefix_cons, prefix_nil.
Qed.

Lemma batch_state_single_run {A : Type}
    (body : nat -> list A -> batchState -> batchState * option error)
    (c : nat * list A) (st : batchState) :
  batch_runs (bolt c.1) <= 1 ->
  st_trace (batch_state body c st) = st_trace st
  \/ exists s,
       st_trace s = st_trace st /\
       st_trace (batch_state body c st) = st_trace (body c.1 c.2 s).1.
Proof.
  unfold batch_runs, batch_state, batch_outcome, retried_state, retry_runs.
  destruct (batch_retried (bolt c.1)) as [|view [|view' views]];
    destruct (batch_begin (bolt c.1)) as [e|]; cbn [length foldl];
    intros Hruns; try lia.
  - by left.
  - right. exists st. split; [done|].
    destruct (batch_result _ _); done.
  - right. by exists (with_db view st).
Qed.

Lemma put_goroutine_put_calls (c : nat * list storobj_Object)
    (st : batchState) :
  batch_runs (bolt c.1) <= 1 ->
  exists puts,
    put_calls (st_trace (put_goroutine c st)) = put_calls (st_trace st) ++ puts
    /\ puts `prefix_of` c.2.
Proof.
  intros Hruns. unfold put_goroutine. rewrite goroutine_trace, put_calls_app.
  cbn [put_calls omap list_omap put_call]. rewrite app_nil_r.
  destruct (batch_state_single_run (fun _ => putObjectsInTx) c st Hruns)
    as [->|(s & Hs & ->)].
  - exists []. rewrite app_nil_r. split; [done|apply prefix_nil].
  - destruct (putObjectsInTx_put_calls c.2 s) as (puts & Hp & Hpre).
    exists puts. by rewrite Hp, Hs.
Qed.

Lemma run_puts_put_calls (l : list (nat * list storobj_Object))
    (st : batchState) :
  (forall i, batch_runs (bolt i) <= 1) ->
  exists puts,
    put_calls (st_trace (run put_goroutine l st))
    = put_calls (st_trace st) ++ puts
    /\ puts ⊆+ concat l.*2.
Proof.
  intros Hruns. unfold run. revert st. induction l as [|c l IH]; intros st.
  - exists []. cbn. by rewrite app_nil_r.
  - cbn [foldl]. destruct (IH (put_goroutine c st)) as (puts & Hp & Hsub).
    destruct (put_goroutine_put_calls c st (Hruns c.1)) as (puts0 & Hp0 & Hpre).
    exists (puts0 ++ puts). split.
    + by rewrite Hp, Hp0, <- app_assoc.
    + rewrite fmap_cons. cbn [concat]. apply submseteq_app; [|done].
      destruct Hpre as [k ->]. apply submseteq_inserts_r. done.
Qed.

Lemma run_puts_put_calls_elem (objects : list storobj_Object)
    (l : list (nat * list storobj_Object)) (st : batchState) :
  (forall c object, c ∈ l -> object ∈ c.2 -> object ∈ objects) ->
  (forall object, object ∈ put_calls (st_trace st) -> object ∈ objects) ->
  forall object,
    object ∈ put_calls (st_trace (run put_goroutine l st)) ->
    object ∈ objects.
Proof.
  unfold run. revert st. induction l as [|c l IH]; intros st Hl Hst; [done|].
  cbn [foldl]. apply IH.
  - intros c' object Hc'. by apply Hl, list_elem_of_further.
  - unfold put_goroutine.
    apply (goroutine_invariant (fun _ => putObjectsInTx)
             (fun s => forall object,
                object ∈ put_calls (st_trace s) -> object ∈ objects));
      [done|done| | |done].
    + intros s r Hs object. cbn. rewrite put_calls_app. cbn.
      rewrite app_nil_r. apply Hs.
    + intros s Hs object.
      destruct (putObjectsInTx_put_calls c.2 s) as (puts & -> & [k Hpre]).
      intros [?|Hin]%elem_of_app; [by apply Hs|].
      apply (Hl c); [apply list_elem_of_here|].
      rewrite Hpre. apply elem_of_app. by left.
Qed.

Lemma run_adds_put_calls (l : list (storobj_Object * Z * nat))
    (st : batchState) :
  put_calls (st_trace (run add_goroutine l st)) = put_calls (st_trace st).
Proof.
  unfold run. revert st.
  induction l as [|[[object id] index] l IH]; intros st; [done|].
  cbn [foldl]. rewrite IH.
  destruct (add_goroutine_own object id index st) as (r & _ & -> & _).
  rewrite put_calls_app. cbn. by rewrite app_nil_r.
Qed.

(** X25. [putObjectInTx] is only ever called with an object of the
    input.  And when bolt runs no transaction function more than once,
    it is called at most once for each object of the input: the objects
    of its calls form a sub-multiset of the input.  (In an aborted chunk
    the objects after the failing one are not handed to it at all.) *)
Theorem putObjectBatch_put_calls (ctx : Context)
    (objects : list storobj_Object) (d : DB) (v : VectorIndex) :
  (forall object,
     object ∈ put_calls (st_trace (putObjectBatch ctx objects d v)) ->
     object ∈ objects)
  /\ ((forall i, batch_runs (bolt i) <= 1) ->
      put_calls (st_trace (putObjectBatch ctx objects d v)) ⊆+ objects).
Proof.
  unfold putObjectBatch. rewrite run_adds_put_calls.
  unfold putObjectBatch_phase1. split.
  - apply run_puts_put_calls_elem; [|by intros object ?%elem_of_nil].
    intros c object Hc Hobj.
    rewrite (schedule_puts_perm (chunks objects)) in Hc.
    rewrite <- (chunks_partition objects).
    apply list_elem_of_In, in_concat. exists c.2.
    split; apply list_elem_of_In; [|done]. by apply list_elem_of_fmap_2.
  - intros Hruns.
    destruct (run_puts_put_calls (schedule_puts (chunks objects))
                (init_state d v) Hruns) as (puts & -> & Hsub).
    cbn [init_state st_trace put_calls omap list_omap app].
    rewrite Hsub.
    rewrite (schedule_puts_perm (chunks objects)), chunks_partition. done.
Qed.

(** * The vector index after a batch put *)

Lemma index_after_app (t1 t2 : list event) (v : VectorIndex) :
  index_after (t1 ++ t2) v = index_after t2 (index_after t1 v).
Proof. apply foldl_app. Qed.

Lemma adds_faithful_app (t1 t2 : list event) (v : VectorIndex) :
  adds_faithful (t1 ++ t2) v
  <-> adds_faithful t1 v /\ adds_faithful t2 (index_after t1 v).
Proof.
  revert v. induction t1 as [|ev t1 IH]; intros v.
  - cbn. split; [by split|by intros [_ ?]].
  - cbn [app adds_faithful]. rewrite IH.
    change (index_after (ev :: t1) v) with (index_after t1 (index_step v ev)).
    split; [intros (? & ? & ?)|intros ((? & ?) & ?)]; done.
Qed.

Lemma no_vector_calls_faithful (tr : list event) (v : VectorIndex) :
  vector_calls tr = [] -> index_after tr v = v /\ adds_faithful tr v.
Proof.
  unfold vector_calls.
  induction tr as [|ev tr IH]; [done|].
  cbn [List.filter].
  destruct ev; cbn [is_vector_call]; intros Hnone; try discriminate;
    destruct (IH Hnone) as [Hi Hf]; (split; [exact Hi|by split]).
Qed.

Lemma add_goroutine_vectorIndex (object : storobj_Object) (id : Z)
    (index : nat) (st : batchState) :
  st_vectorIndex (add_goroutine (object, id, index) st)
  = (vectorIndex_Add (st_vectorIndex st) id (Object_Vector object)).1.
Proof.
  unfold add_goroutine. by destruct (vectorIndex_Add _ _ _) as [vi [err|]].
Qed.

(** The second phase keeps the trace faithful to the vector index. *)
Lemma run_adds_faithful (l : list (storobj_Object * Z * nat))
    (st : batchState) (v : VectorIndex) :
  st_vectorIndex st = index_after (st_trace st) v ->
  adds_faithful (st_trace st) v ->
  st_vectorIndex (run add_goroutine l st)
  = index_after (st_trace (run add_goroutine l st)) v
  /\ adds_faithful (st_trace (run add_goroutine l st)) v.
Proof.
  unfold run. revert st.
  induction l as [|[[object id] index] l IH]; intros st Hv Hf; [done|].
  cbn [foldl].
  destruct (add_goroutine_own object id index st) as (r & Hr & Ht & _).
  apply IH.
  - rewrite add_goroutine_vectorIndex, Ht, index_after_app. cbn.
    by rewrite <- Hv.
  - rewrite Ht. apply adds_faithful_app. split; [done|]. cbn.
    by rewrite <- Hv.
Qed.

(** In a trace with at most one [Add] call per index, the call of an
    index is determined. *)
Lemma vector_call_unique (tr : list event) (ev1 ev2 : event) (index : nat) :
  NoDup (omap vector_call_index tr) -> ev1 ∈ tr -> ev2 ∈ tr ->
  vector_call_index ev1 = Some index -> vector_call_index ev2 = Some index ->
  ev1 = ev2.
Proof.
  induction tr as [|ev tr IH]; intros Hnd H1 H2 Hi1 Hi2.
  - by apply elem_of_nil in H1.
  - assert (Hin : forall e, e ∈ tr -> vector_call_index e = Some index ->
                            index ∈ omap vector_call_index tr).
    { intros e He Hei. apply list_elem_of_omap. by exists e. }
    cbn [omap list_omap] in Hnd.
    apply elem_of_cons in H1 as [->|H1]; apply elem_of_cons in H2 as [->|H2].
    + done.
    + rewrite Hi1 in Hnd. apply NoDup_cons in Hnd as [Hfresh _].
      destruct Hfresh. by apply (Hin ev2).
    + rewrite Hi2 in Hnd. apply NoDup_cons in Hnd as [Hfresh _].
      destruct Hfresh. by apply (Hin ev1).
    + apply IH; try done.
      destruct (vector_call_index ev); [by apply NoDup_cons in Hnd as [_ ?]|done].
Qed.

(** The [Add] call of a job of the second phase and the entry of the map
    at its index. *)
Lemma putObjectBatch_job_call (ctx : Context)
    (objects : list storobj_Object) (d : DB) (v : VectorIndex)
    (index : nat) (object : storobj_Object) :
  objects !! index = Some object ->
  st_errs (putObjectBatch_phase1 objects (init_state d v)) !! index = None ->
  exists r,
    EvVectorIndexAdd index
      (default 0%Z
         (st_docIDs (putObjectBatch ctx objects d v) !! Object_ID object))
      (Object_Vector object) r
      ∈ st_trace (putObjectBatch ctx objects d v) /\
    st_errs (putObjectBatch ctx objects d v) !! index
    = (fun e => errors_Wrap e "insert to vector index") <$> r.
Proof.
  intros Hobj He1.
  rewrite (proj2 (putObjectBatch_store ctx objects d v)).
  unfold putObjectBatch.
  set (st1 := putObjectBatch_phase1 objects (init_state d v)) in *.
  set (jobs := add_jobs 0 objects (st_errs st1) (st_docIDs st1)).
  destruct (run_adds_own (schedule_adds jobs) st1 object
              (default 0%Z (st_docIDs st1 !! Object_ID object)) index)
    as (r & Hev & He).
  - rewrite (fmap_Permutation _ _ _ (schedule_adds_perm _)).
    apply add_jobs_NoDup.
  - rewrite (schedule_adds_perm jobs). apply elem_of_add_jobs.
    rewrite Nat.sub_0_r. repeat split; [lia|done..].
  - exists r. split; [done|]. rewrite He, He1. by destruct r.
Qed.

(** X26. What a batch put does to the vector index.  The index the
    call leaves is the result of the [Add] calls of its trace, made in
    that order on the index it found, and every [Add] call of the trace
    records what [vectorIndex_Add] returned on the index left by the
    calls before it.  At the index of an [Add] call the returned map
    holds the error of that call, wrapped with "insert to vector index",
    and nothing when the call returned nil.  Every index of a chunk
    whose transaction committed got its [Add] call, with the [docID]
    stored under the id of its object and with the vector of its
    object.  And for an index of the input that is absent from the
    returned map the [Add] call was made, with the [docID] found under
    the id of its object, and returned nil. *)
Theorem putObjectBatch_committed_indexed (ctx : Context)
    (objects : list storobj_Object) (d : DB) (v : VectorIndex) :
  (st_vectorIndex (putObjectBatch ctx objects d v)
   = index_after (st_trace (putObjectBatch ctx objects d v)) v
   /\ adds_faithful (st_trace (putObjectBatch ctx objects d v)) v)
  /\ (forall index id vector r,
        EvVectorIndexAdd index id vector r
          ∈ st_trace (putObjectBatch ctx objects d v) ->
        st_errs (putObjectBatch ctx objects d v) !! index
        = (fun e => errors_Wrap e "insert to vector index") <$> r)
  /\ (forall pre c post j object,
        schedule_puts (chunks objects) = pre ++ c :: post ->
        c.2 !! j = Some object ->
        batch_begin (bolt c.1) = None ->
        (putObjectsInTx c.2 (run put_goroutine pre (init_state d v))).2
        = None ->
        batch_commit (bolt c.1) = None ->
        is_Some (st_docIDs (putObjectBatch ctx objects d v)
                   !! Object_ID object)
        /\ exists r,
             EvVectorIndexAdd (c.1 + j)
               (default 0%Z
                  (st_docIDs (putObjectBatch ctx objects d v)
                     !! Object_ID object))
               (Object_Vector object) r
               ∈ st_trace (putObjectBatch ctx objects d v))
  /\ (forall index object,
        objects !! index = Some object ->
        st_errs (putObjectBatch ctx objects d v) !! index = None ->
        EvVectorIndexAdd index
          (default 0%Z
             (st_docIDs (putObjectBatch ctx objects d v) !! Object_ID object))
          (Object_Vector object) None
          ∈ st_trace (putObjectBatch ctx objects d v)).
Proof.
  set (st1 := putObjectBatch_phase1 objects (init_state d v)).
  assert (Hcalls1 : vector_calls (st_trace st1) = []).
  { unfold st1, putObjectBatch_phase1.
    by rewrite (run_chunks_vector_calls (fun _ => putObjectsInTx)
                  putObjectsInTx_framed). }
  assert (Hv1 : st_vectorIndex st1 = v).
  { unfold st1, putObjectBatch_phase1.
    by rewrite (run_chunks_vectorIndex (fun _ => putObjectsInTx)
                  putObjectsInTx_framed). }
  split; [|split; [|split]].
  - unfold putObjectBatch. fold st1.
    destruct (no_vector_calls_faithful (st_trace st1) v Hcalls1) as [Hi Hf].
    apply run_adds_faithful; [by rewrite Hi|done].
  - intros index id vector r Hin.
    pose proof Hin as Hjob. unfold putObjectBatch in Hjob. fold st1 in Hjob.
    apply run_adds_trace_inv
      in Hjob as [Hjob|([[object id'] index'] & r' & Hjob & Heq)].
    { exfalso. revert Hjob. by apply no_vector_calls_elem. }
    cbn [fst snd] in Heq. injection Heq as -> -> -> ->.
    rewrite (schedule_adds_perm _) in Hjob.
    apply elem_of_add_jobs in Hjob as (_ & Hobj & He1 & Hid).
    rewrite Nat.sub_0_r in Hobj.
    destruct (putObjectBatch_job_call ctx objects d v index' object Hobj He1)
      as (r & Hev & He).
    rewrite He. f_equal.
    assert (Heq : EvVectorIndexAdd index'
                    (default 0%Z
                       (st_docIDs (putObjectBatch ctx objects d v)
                          !! Object_ID object))
                    (Object_Vector object) r
                  = EvVectorIndexAdd index' id' (Object_Vector object) r').
    { apply (vector_call_unique (st_trace (putObjectBatch ctx objects d v))
               _ _ index'); [|done..].
      rewrite putObjectBatch_call_indices. apply add_jobs_NoDup. }
    by injection Heq.
  - intros pre c post j object Hsched Hj Hbegin Hcommit Hbolt.
    assert (Hperm : pre ++ c :: post ≡ₚ chunks objects).
    { rewrite <- Hsched. apply schedule_puts_perm. }
    destruct (scheduled_chunk_lookup objects pre post c Hperm j object Hj)
      as [Hin Hobj].
    assert (Hout : batch_outcome (fun _ => putObjectsInTx) c
                     (run put_goroutine pre (init_state d v)) = None).
    { rewrite put_batch_outcome. unfold batch_result.
      by rewrite Hbegin, Hcommit. }
    split.
    + apply (putObjectBatch_committed_docID ctx objects d v pre post c);
        [done..|]. by apply list_elem_of_lookup_2 with j.
    + assert (He1 : st_errs st1 !! (c.1 + j) = None).
      { unfold st1, putObjectBatch_phase1. rewrite Hsched.
        by rewrite (scheduled_errs_commit (fun _ => putObjectsInTx)
                      putObjectsInTx_framed objects). }
      destruct (putObjectBatch_job_call ctx objects d v (c.1 + j) object
                  Hobj He1) as (r & Hev & _).
      by exists r.
  - intros index object Hobj Hnone.
    destruct (st_errs st1 !! index) as [e|] eqn:He1.
    + exfalso. unfold putObjectBatch in Hnone. fold st1 in Hnone.
      rewrite run_adds_errs_other in Hnone; [congruence|].
      rewrite (fmap_Permutation _ _ _ (schedule_adds_perm _)).
      intros ([[o id] i] & Heq & Hjob)%list_elem_of_fmap.
      cbn [snd] in Heq. subst i.
      apply elem_of_add_jobs in Hjob as (_ & _ & He & _). congruence.
    + destruct (putObjectBatch_job_call ctx objects d v index object
                  Hobj He1) as (r & Hev & He).
      rewrite Hnone in He. by destruct r.
Qed.

End Weaviate.

(** * The model at work on the in-memory instance *)

Arguments st_db {DB VectorIndex} _.
Arguments st_vectorIndex {DB VectorIndex} _.
Arguments st_trace {DB VectorIndex} _.
Arguments st_docIDs {DB VectorIndex} _.
Arguments st_errs {DB VectorIndex} _.
Arguments run {DB VectorIndex J} _ _ _.

(** The chunk goroutines are taken last launched first, the goroutines of
    the second phase in the order they were launched. *)
Local Abbreviation mem_putObjectBatch :=
  (putObjectBatch mem_DB mem_VectorIndex mem_bolt mem_uuid_Parse mem_uuid_MarshalBinary
     mem_putObjectInTx mem_vectorIndex_Add reverse id).

(** The same call on the closed database. *)
Local Abbreviation mem_closed_putObjectBatch :=
  (putObjectBatch mem_DB mem_VectorIndex mem_bolt_closed mem_uuid_Parse
     mem_uuid_MarshalBinary mem_putObjectInTx mem_vectorIndex_Add reverse id).

Local Abbreviation mem_addReferencesBatch :=
  (addReferencesBatch mem_DB mem_VectorIndex mem_bolt mem_uuid_Parse
     mem_uuid_MarshalBinary mem_mergeObjectInTx mem_time_Now_UnixNano reverse).

Local Abbreviation mem_put_goroutine :=
  (put_goroutine mem_DB mem_VectorIndex mem_bolt mem_uuid_Parse mem_uuid_MarshalBinary
     mem_putObjectInTx).

Local Abbreviation mem_putObjectsInTx :=
  (putObjectsInTx mem_DB mem_VectorIndex mem_uuid_Parse mem_uuid_MarshalBinary
     mem_putObjectInTx).

Lemma mem_reverse_perm {A : Type} (l : list A) : reverse l ≡ₚ l.
Proof. apply reverse_Permutation. Defined.

Lemma mem_id_perm {A : Type} (l : list A) : id l ≡ₚ l.
Proof. reflexivity. Defined.

(** Thirty-two objects, the last with a vector of the wrong dimension:
    the chunk of indices 30 and 31 aborts, index 31 (and 30) holds the
    error, and the store is the one the other chunk alone produces. *)
Lemma putObjectBatch_chunk_abort_witness :
  st_db (mem_putObjectBatch context_Background (mem_objects 32 31) [] [])
  = st_db (run mem_put_goroutine [(0, mem_objects 30 31)]
             (init_state mem_DB mem_VectorIndex [] []))
  /\ st_errs (mem_putObjectBatch context_Background (mem_objects 32 31) [] [])
       !! 31
     = Some (errors_Wrap
               (kinds_ErrInvalidUserInput "vector has the wrong dimension")
               "bolt batch tx").
Proof.
  destruct (putObjectBatch_chunk_abort mem_DB mem_VectorIndex mem_bolt mem_uuid_Parse
              mem_uuid_MarshalBinary mem_putObjectInTx mem_vectorIndex_Add
              reverse id mem_reverse_perm mem_id_perm
              context_Background (mem_objects 32 31) [] []
              [] [(0, mem_objects 30 31)]
              (30, [mem_object 31 30; mem_object 31 31])
              (kinds_ErrInvalidUserInput "vector has the wrong dimension")
              eq_refl eq_refl eq_refl) as (_ & Hdb & Herrs).
  split; [exact Hdb|].
  exact (proj2 (Herrs 1 (mem_object 31 31) eq_refl)).
Defined.

(** C2, on the input where the code departs from it.  Two good objects
    are put on a shard whose database is closed.  [Batch] returns
    bolt's error without having run the transaction function, so
    [affectedIndices], which only that function fills, is still empty
    and the error is written at no index.  The second phase finds no
    error and no [docID]: the returned map is empty although no object
    was stored, and both vectors are added to the vector index under
    the [docID] 0 that the lookup of a missing key gives. *)
Theorem putObjectBatch_begin_failure_unreported :
  st_errs (mem_closed_putObjectBatch context_Background (mem_objects 2 5) [] [])
  = ∅
  /\ st_db (mem_closed_putObjectBatch context_Background (mem_objects 2 5)
              [] [])
     = []
  /\ st_docIDs (mem_closed_putObjectBatch context_Background (mem_objects 2 5)
                  [] [])
     = ∅
  /\ st_trace (mem_closed_putObjectBatch context_Background (mem_objects 2 5)
                 [] [])
     = [EvBatch 0 2 (Some (errorString "database not open"));
        EvVectorIndexAdd 0 0 [0%Z; 1%Z] None;
        EvVectorIndexAdd 1 0 [1%Z; 1%Z] None]
  /\ st_vectorIndex (mem_closed_putObjectBatch context_Background
                       (mem_objects 2 5) [] [])
     = [(0%Z, [0%Z; 1%Z]); (0%Z, [1%Z; 1%Z])].
Proof. vm_compute. repeat split. Qed.


Lemma addReferencesBatch_vector_index_untouched_witness :
  st_vectorIndex (mem_addReferencesBatch context_Background
                    (mem_reference <$> seq 0 2)
                    [("A", (1%Z, [0%Z; 1%Z]))] [(1%Z, [0%Z; 1%Z])])
  = [(1%Z, [0%Z; 1%Z])]
  /\ vector_calls (st_trace (mem_addReferencesBatch context_Background
                               (mem_reference <$> seq 0 2)
                               [("A", (1%Z, [0%Z; 1%Z]))] [(1%Z, [0%Z; 1%Z])]))
     = [].
Proof.
  destruct (addReferencesBatch_vector_index_untouched mem_DB mem_VectorIndex mem_bolt
              mem_uuid_Parse mem_uuid_MarshalBinary mem_mergeObjectInTx
              mem_time_Now_UnixNano reverse mem_reverse_perm
              context_Background (mem_reference <$> seq 0 2)
              ([("A", (1%Z, [0%Z; 1%Z]))] : mem_DB)
              ([(1%Z, [0%Z; 1%Z])] : mem_VectorIndex))
    as (Hv & Hcalls & _).
  split; [exact Hv|exact Hcalls].
Defined.

Lemma putObjectBatch_empty_witness :
  st_errs (mem_putObjectBatch context_Background []
             [("A", (1%Z, [0%Z; 1%Z]))] [(1%Z, [0%Z; 1%Z])]) = ∅
  /\ st_trace (mem_putObjectBatch context_Background []
                 [("A", (1%Z, [0%Z; 1%Z]))] [(1%Z, [0%Z; 1%Z])]) = [].
Proof.
  destruct (putObjectBatch_empty mem_DB mem_VectorIndex mem_bolt mem_uuid_Parse
              mem_uuid_MarshalBinary mem_putObjectInTx mem_vectorIndex_Add
              reverse id mem_reverse_perm mem_id_perm context_Background
              ([("A", (1%Z, [0%Z; 1%Z]))] : mem_DB)
              ([(1%Z, [0%Z; 1%Z])] : mem_VectorIndex))
    as (Herrs & Htrace & _).
  split; [exact Herrs|exact Htrace].
Defined.

(** A cancelled context changes nothing: the two chunks of the batch get
    their transactions. *)
Lemma batch_context_not_consulted_witness :
  mem_putObjectBatch mem_cancelled (mem_objects 32 31) [] []
  = mem_putObjectBatch context_Background (mem_objects 32 31) [] []
  /\ batch_calls (st_trace (mem_putObjectBatch mem_cancelled
                              (mem_objects 32 31) [] []))
       ≡ₚ [(0, 30); (30, 2)].
Proof.
  destruct (batch_context_not_consulted mem_DB mem_VectorIndex mem_bolt mem_uuid_Parse
              mem_uuid_MarshalBinary mem_putObjectInTx mem_mergeObjectInTx
              mem_vectorIndex_Add mem_time_Now_UnixNano reverse reverse id
              mem_reverse_perm mem_reverse_perm
              mem_cancelled context_Background (mem_objects 32 31)
              ([] : list BatchReference) ([] : mem_DB) ([] : mem_VectorIndex))
    as (Hsame & _ & Hcalls).
  split; [exact Hsame|]. exact (proj1 (Hcalls eq_refl)).
Defined.

(** C4 as stated fails: under a context that is already cancelled a
    batch of two objects still opens its transaction and still makes
    both [Add] calls. *)
Lemma putObjectBatch_ignores_cancellation :
  ~ (forall ctx objects,
       ctx_done ctx = true ->
       batch_calls (st_trace (mem_putObjectBatch ctx objects [] [])) = []
       /\ vector_calls (st_trace (mem_putObjectBatch ctx objects [] [])) = []).
Proof.
  intros Hclaim.
  destruct (Hclaim mem_cancelled (mem_objects 2 5) eq_refl) as [Hcalls _].
  vm_compute in Hcalls. discriminate Hcalls.
Qed.

(** C6 as stated fails: adding a reference to a thing that does not
    exist makes the manager return a NotFound error, which
    [addThingReference] answers with 422 and not with 404; and a
    reference delete answers an InvalidUserInput error with 404 and not
    with 422. *)
Lemma reference_handlers_not_uniform :
  ~ (forall ctx principal id propertyName ref err,
       AddThingReference (manager mem_handlers) ctx principal id propertyName ref
       = Some err ->
       resp_status (addThingReference mem_handlers ctx principal id
                      propertyName ref)
       = claimed_status err)
  /\ ~ (forall ctx principal id propertyName ref err,
          DeleteThingReference (manager mem_handlers) ctx principal id
            propertyName ref = Some err ->
          resp_status (deleteThingReference mem_handlers ctx principal id
                         propertyName ref)
          = claimed_status err).
Proof.
  split; intros Hclaim.
  - specialize (Hclaim context_Background mem_principal "Q" "inCountry"
                  {| Beacon := "weaviate://localhost/things/Z"; Href := "" |}
                  (kinds_ErrNotFound "no such object") eq_refl).
    discriminate Hclaim.
  - specialize (Hclaim context_Background mem_principal "A" "inCountry"
                  {| Beacon := "weaviate://localhost/things/Z"; Href := "" |}
                  (kinds_ErrInvalidUserInput "no such reference") eq_refl).
    discriminate Hclaim.
Qed.

(** C7 as stated fails: "refMeta" is the camel-cased spelling of one of
    the six enrichment values, and [parseIncludeParam] rejects it. *)
Lemma parseIncludeParam_rejects_refMeta :
  ~ (forall s,
       (parseIncludeParam (Some s)).2 = None
       <-> Forall (fun prop => case_of prop claimed_spellings = true)
             (strings_Split s ",")).
Proof.
  intros Hclaim. destruct (Hclaim "refMeta") as [_ Hparse].
  assert (Hrejected : (parseIncludeParam (Some "refMeta")).2 <> None) by done.
  apply Hrejected, Hparse. repeat constructor.
Qed.

Lemma parseIncludeParam_classification_refmeta_witness :
  Classification (parseIncludeParam (Some "vector,_classification")).1
  = requests_classification (strings_Split "vector,_classification" ",")
  /\ RefMeta (parseIncludeParam (Some "vector,_classification")).1
     = Classification (parseIncludeParam (Some "vector,_classification")).1.
Proof.
  exact (parseIncludeParam_classification_refmeta
           (Some "vector,_classification") eq_refl).
Defined.

(** The manager returns two things and two actions; the answers say 2. *)
Lemma list_response_total_results_witness :
  (exists r,
     resp_payload (getThings mem_crossref_Parse mem_deprecations_ByID
                     mem_handlers context_Background mem_principal None
                     (Some "vector") None) = ThingsListPayload r
     /\ tl_TotalResults r = 2%Z /\ length (tl_Things r) = 2)
  /\ (exists r,
        resp_payload (getActions mem_crossref_Parse mem_deprecations_ByID
                        mem_handlers context_Background mem_principal None
                        None (Some true)) = ActionsListPayload r
        /\ al_TotalResults r = 2%Z /\ length (al_Actions r) = 2).
Proof.
  destruct (list_response_total_results mem_crossref_Parse
              mem_deprecations_ByID mem_handlers context_Background
              mem_principal None (Some "vector") None) as [Hthings _].
  destruct (list_response_total_results mem_crossref_Parse
              mem_deprecations_ByID mem_handlers context_Background
              mem_principal None None (Some true)) as [_ Hactions].
  split.
  - eexists. split; [reflexivity|].
    split; [|reflexivity].
    etransitivity; [exact (proj1 (Hthings _ eq_refl))|reflexivity].
  - eexists. split; [reflexivity|].
    split; [|reflexivity].
    etransitivity; [exact (proj1 (Hactions _ eq_refl))|reflexivity].
Defined.

(** The statuses of the reference handlers for a thing that is not
    stored, and of the get handler for an include list that does not
    parse. *)
Lemma handler_status_of_manager_error_witness :
  status_code (resp_status (addThingReference mem_handlers context_Background
                              mem_principal "Q" "inCountry"
                              {| Beacon := "weaviate://localhost/things/Z";
                                 Href := "" |})) = 422%Z
  /\ status_code (resp_status (deleteThingReference mem_handlers
                                 context_Background mem_principal "Q"
                                 "inCountry"
                                 {| Beacon := "weaviate://localhost/things/Z";
                                    Href := "" |})) = 404%Z
  /\ status_code (resp_status (getThing mem_crossref_Parse mem_handlers
                                 context_Background mem_principal "Q"
                                 (Some "vector") None)) = 404%Z.
Proof.
  destruct (handler_status_of_manager_error mem_crossref_Parse
              mem_deprecations_ByID mem_handlers context_Background
              mem_principal "Q" "inCountry" (mem_thing "Q") (mem_action "Q")
              {| Beacon := "weaviate://localhost/things/Z"; Href := "" |}
              [] None None (Some "vector"))
    as (_ & (_ & _ & Hget & _) & (Hadd & _) & (Hdel & _)).
  split; [by rewrite Hadd|]. split; [by rewrite Hdel|]. by rewrite Hget.
Defined.

Lemma parseIncludeParam_outcome_witness :
  (parseIncludeParam (Some "vector,refMeta")).2
  = Some (errorString "unrecognized property 'refMeta' in ?include list")
  /\ (parseIncludeParam (Some "_vector,nearest-neighbors")).2 = None
  /\ (parseIncludeParam (Some "")).2
     = Some (errorString "unrecognized property '' in ?include list").
Proof.
  split; [|split].
  - by rewrite (proj1 (parseIncludeParam_outcome mem_crossref_Parse
                         mem_deprecations_ByID mem_handlers
                         (Some "vector,refMeta"))).
  - by rewrite (proj1 (parseIncludeParam_outcome mem_crossref_Parse
                         mem_deprecations_ByID mem_handlers
                         (Some "_vector,nearest-neighbors"))).
  - by rewrite (proj1 (parseIncludeParam_outcome mem_crossref_Parse
                         mem_deprecations_ByID mem_handlers (Some ""))).
Defined.

(** * Further properties, over all collaborators *)

(** X5. What a batch put leaves in the object store does not depend on
    the vector index: with the same objects, database and schedule of
    transactions, the database and the [docID]s after the call are the
    same whatever [Add] does (succeed or fail), whatever the index held
    and in whatever order the [Add] goroutines ran.  A failed [Add]
    rolls nothing back. *)
Theorem putObjectBatch_store_ignores_vector_index
    (DB VectorIndex : Type) (bolt : nat -> bolt_batch DB)
    (uuid_Parse : string -> result (list Z))
    (uuid_MarshalBinary : list Z -> result (list Z))
    (putObjectInTx : DB -> storobj_Object -> list Z -> DB * result objectStatus)
    (vectorIndex_Add vectorIndex_Add' :
       VectorIndex -> Z -> list float32 -> VectorIndex * option error)
    (schedule_puts :
       list (nat * list storobj_Object) -> list (nat * list storobj_Object))
    (schedule_adds schedule_adds' :
       list (storobj_Object * Z * nat) -> list (storobj_Object * Z * nat))
    (ctx : Context) (objects : list storobj_Object) (d : DB)
    (v v' : VectorIndex) :
  st_db (putObjectBatch DB VectorIndex bolt uuid_Parse uuid_MarshalBinary
           putObjectInTx vectorIndex_Add schedule_puts schedule_adds
           ctx objects d v)
  = st_db (putObjectBatch DB VectorIndex bolt uuid_Parse uuid_MarshalBinary
             putObjectInTx vectorIndex_Add' schedule_puts schedule_adds'
             ctx objects d v')
  /\ st_docIDs (putObjectBatch DB VectorIndex bolt uuid_Parse
                  uuid_MarshalBinary putObjectInTx vectorIndex_Add
                  schedule_puts schedule_adds ctx objects d v)
     = st_docIDs (putObjectBatch DB VectorIndex bolt uuid_Parse
                    uuid_MarshalBinary putObjectInTx vectorIndex_Add'
                    schedule_puts schedule_adds' ctx objects d v').
Proof.
  destruct (putObjectBatch_store DB VectorIndex bolt uuid_Parse
              uuid_MarshalBinary putObjectInTx vectorIndex_Add schedule_puts
              schedule_adds ctx objects d v) as [-> ->].
  destruct (putObjectBatch_store DB VectorIndex bolt uuid_Parse
              uuid_MarshalBinary putObjectInTx vectorIndex_Add' schedule_puts
              schedule_adds' ctx objects d v') as [-> ->].
  unfold putObjectBatch_phase1. by apply run_puts_store.
Qed.

(** * The further properties on the in-memory instance *)

Local Abbreviation mem_refs_goroutine :=
  (refs_goroutine mem_DB mem_VectorIndex mem_bolt mem_uuid_Parse
     mem_uuid_MarshalBinary mem_mergeObjectInTx mem_time_Now_UnixNano).

Local Abbreviation mem_mergeReferencesInTx :=
  (mergeReferencesInTx mem_DB mem_VectorIndex mem_uuid_Parse
     mem_uuid_MarshalBinary mem_mergeObjectInTx mem_time_Now_UnixNano).

Local Abbreviation mem_init := (init_state mem_DB mem_VectorIndex).

(** Two references in a store that has "A" and not "B": the merge into
    "B" fails and both indices of the chunk hold the error. *)
Lemma addReferencesBatch_chunk_abort_witness :
  st_db (mem_addReferencesBatch context_Background (mem_reference <$> seq 0 2)
           [("A", (1%Z, [0%Z; 1%Z]))] [])
  = st_db (run mem_refs_goroutine [] (mem_init [("A", (1%Z, [0%Z; 1%Z]))] []))
  /\ st_errs (mem_addReferencesBatch context_Background
                (mem_reference <$> seq 0 2) [("A", (1%Z, [0%Z; 1%Z]))] []) !! 0
     = Some (errors_Wrap (kinds_ErrNotFound "no object to merge into")
               "bolt batch tx").
Proof.
  destruct (addReferencesBatch_chunk_abort mem_DB mem_VectorIndex mem_bolt
              mem_uuid_Parse mem_uuid_MarshalBinary mem_mergeObjectInTx
              mem_time_Now_UnixNano reverse mem_reverse_perm
              context_Background (mem_reference <$> seq 0 2)
              ([("A", (1%Z, [0%Z; 1%Z]))] : mem_DB) ([] : mem_VectorIndex)
              [] [] (0, mem_reference <$> seq 0 2)
              (kinds_ErrNotFound "no object to merge into"))
    as (_ & Hdb & Herrs); [reflexivity..|].
  split; [exact Hdb|].
  exact (proj2 (Herrs 0 (mem_reference 0) eq_refl)).
Defined.

(** Thirty-one references on the busy database, the last into an object
    the store holds: the merge succeeds, the commit of its chunk fails,
    and the map holds the error of the commit at index 30. *)
Lemma addReferencesBatch_result_map_witness :
  st_errs (addReferencesBatch mem_DB mem_VectorIndex mem_bolt_busy
             mem_uuid_Parse mem_uuid_MarshalBinary mem_mergeObjectInTx
             mem_time_Now_UnixNano reverse context_Background
             (mem_reference <$> seq 0 31) [("_", (1%Z, [0%Z; 1%Z]))] []) !! 30
  = Some (errors_Wrap (errorString "commit failed") "bolt batch tx").
Proof.
  rewrite (proj1 (addReferencesBatch_result_map mem_DB mem_VectorIndex
                    mem_bolt_busy mem_uuid_Parse mem_uuid_MarshalBinary
                    mem_mergeObjectInTx mem_time_Now_UnixNano reverse
                    mem_reverse_perm context_Background
                    (mem_reference <$> seq 0 31)
                    ([("_", (1%Z, [0%Z; 1%Z]))] : mem_DB)
                    ([] : mem_VectorIndex) 30)
             [] (30, [mem_reference 30])
             [(0, mem_reference <$> seq 0 30)]);
    [reflexivity|reflexivity|unfold in_chunk; cbn; lia].
Defined.

Lemma addReferencesBatch_empty_witness :
  st_errs (mem_addReferencesBatch context_Background []
             [("A", (1%Z, [0%Z; 1%Z]))] []) = ∅
  /\ st_trace (mem_addReferencesBatch context_Background []
                 [("A", (1%Z, [0%Z; 1%Z]))] []) = [].
Proof.
  destruct (addReferencesBatch_empty mem_DB mem_VectorIndex mem_bolt mem_uuid_Parse
              mem_uuid_MarshalBinary mem_mergeObjectInTx mem_time_Now_UnixNano
              reverse mem_reverse_perm context_Background
              ([("A", (1%Z, [0%Z; 1%Z]))] : mem_DB) ([] : mem_VectorIndex))
    as (Herrs & Htrace & _).
  split; [exact Herrs|exact Htrace].
Defined.

(** In the batch of thirty-two objects whose last chunk aborts, no [Add]
    call is made for index 31. *)
Lemma putObjectBatch_add_calls_witness :
  31 ∉ omap vector_call_index
         (st_trace (mem_putObjectBatch context_Background
                      (mem_objects 32 31) [] [])).
Proof.
  destruct (putObjectBatch_add_calls mem_DB mem_VectorIndex mem_bolt mem_uuid_Parse
              mem_uuid_MarshalBinary mem_putObjectInTx mem_vectorIndex_Add
              reverse id mem_reverse_perm mem_id_perm
              context_Background (mem_objects 32 31) [] [])
    as (_ & _ & Hnever).
  exact (Hnever [] (30, [mem_object 31 30; mem_object 31 31])
           [(0, mem_objects 30 31)]
           (kinds_ErrInvalidUserInput "vector has the wrong dimension") 1
           eq_refl eq_refl eq_refl (le_n 2)).
Defined.

(** The error at index 3, where the index is full, is an "insert to
    vector index" error. *)
Lemma putObjectBatch_result_map_witness :
  3 < length (mem_objects 5 9)
  /\ (batch_tx_error
        (errors_Wrap (errorString "vector index is full")
           "insert to vector index")
      \/ vector_index_error
           (errors_Wrap (errorString "vector index is full")
              "insert to vector index")).
Proof.
  apply (putObjectBatch_result_map mem_DB mem_VectorIndex mem_bolt mem_uuid_Parse
           mem_uuid_MarshalBinary mem_putObjectInTx mem_vectorIndex_Add
           reverse id mem_reverse_perm mem_id_perm
           context_Background (mem_objects 5 9) [] [] 3).
  vm_compute. reflexivity.
Defined.

Lemma mem_objects_stored (object : storobj_Object) :
  object ∈ mem_objects 3 9 ->
  exists uuidParsed idBytes,
    mem_uuid_Parse (Object_ID object) = Ok uuidParsed /\
    mem_uuid_MarshalBinary uuidParsed = Ok idBytes /\
    forall tx, exists tx' status,
      mem_putObjectInTx tx object idBytes = (tx', Ok status).
Proof.
  intros Hin. unfold mem_objects in Hin. cbn in Hin.
  repeat (apply elem_of_cons in Hin as [->|Hin]);
    [..|by apply elem_of_nil in Hin];
    (eexists; eexists; split; [reflexivity|]; split; [reflexivity|];
     intros tx; unfold mem_putObjectInTx; cbn;
     match goal with
     | |- context [mem_lookup tx ?k] => destruct (mem_lookup tx k)
     end; by eexists; eexists).
Defined.

(** Three good objects, an index without a capacity, and a database on
    which the transaction of the chunk is run twice: nothing is reported
    and every index got its [Add] call. *)
Lemma putObjectBatch_all_succeed_witness :
  st_errs (putObjectBatch mem_DB mem_VectorIndex mem_bolt_retrying
             mem_uuid_Parse mem_uuid_MarshalBinary mem_putObjectInTx
             mem_vectorIndex_Add_unbounded reverse id
             context_Background (mem_objects 3 9) [] []) = ∅
  /\ omap vector_call_index
       (st_trace (putObjectBatch mem_DB mem_VectorIndex mem_bolt_retrying
                    mem_uuid_Parse mem_uuid_MarshalBinary mem_putObjectInTx
                    mem_vectorIndex_Add_unbounded reverse id
                    context_Background (mem_objects 3 9) [] []))
     ≡ₚ seq 0 (length (mem_objects 3 9)).
Proof.
  apply (putObjectBatch_all_succeed mem_DB mem_VectorIndex mem_bolt_retrying
           mem_uuid_Parse mem_uuid_MarshalBinary mem_putObjectInTx
           mem_vectorIndex_Add_unbounded reverse id
           mem_reverse_perm mem_id_perm
           context_Background (mem_objects 3 9) [] []).
  - intros i. split; reflexivity.
  - apply mem_objects_stored.
  - reflexivity.
Defined.

(** An object with an empty id after a good one: the transaction
    function stops there with an "invalid id" error. *)
Lemma putObjectsInTx_stops_at_first_failure_witness :
  mem_putObjectsInTx
    ([mem_object 9 0]
     ++ {| Object_ID := ""; Object_Vector := [7%Z; 1%Z] |} :: [mem_object 9 1])
    (mem_init [] [])
  = ((mem_putObjectsInTx [mem_object 9 0] (mem_init [] [])).1,
     Some (errors_Wrap (errorString "invalid UUID length: 0") "invalid id")).
Proof.
  exact (proj1 (putObjectsInTx_stops_at_first_failure mem_DB mem_VectorIndex
                  mem_uuid_Parse mem_uuid_MarshalBinary mem_putObjectInTx
                  [mem_object 9 0] [mem_object 9 1]
                  {| Object_ID := ""; Object_Vector := [7%Z; 1%Z] |}
                  (mem_init [] []) eq_refl)
           (errorString "invalid UUID length: 0") eq_refl).
Defined.

(** Two objects with the same id in one batch: the [Add] call for the
    second one is for an object of the input and carries the [docID]
    stored under the shared id. *)
Lemma putObjectBatch_add_arguments_witness :
  exists object,
    [mem_object 9 0; mem_object 9 0] !! 1 = Some object
    /\ [0%Z; 1%Z] = Object_Vector object
    /\ 1%Z = default 0%Z
               (st_docIDs (mem_putObjectBatch context_Background
                             [mem_object 9 0; mem_object 9 0] [] [])
                  !! Object_ID object).
Proof.
  apply (proj1 (putObjectBatch_add_arguments mem_DB mem_VectorIndex mem_bolt
                  mem_uuid_Parse mem_uuid_MarshalBinary mem_putObjectInTx
                  mem_vectorIndex_Add reverse id mem_id_perm
                  context_Background [mem_object 9 0; mem_object 9 0] [] [])
           1 1%Z [0%Z; 1%Z] None).
  apply list_elem_of_In. vm_compute.
  repeat (first [left; reflexivity | right]).
Defined.

Lemma putObjectBatch_put_calls_witness :
  put_calls (st_trace (mem_putObjectBatch context_Background
                         (mem_objects 32 31) [] []))
  ⊆+ mem_objects 32 31.
Proof.
  apply (proj2 (putObjectBatch_put_calls mem_DB mem_VectorIndex mem_bolt
                  mem_uuid_Parse mem_uuid_MarshalBinary mem_putObjectInTx
                  mem_vectorIndex_Add reverse id mem_reverse_perm
                  context_Background (mem_objects 32 31) [] [])).
  intros i. cbn. lia.
Defined.

(** Without that condition the calls repeat: on the database that runs
    the function of the first chunk twice, both objects are handed to
    [putObjectInTx] twice. *)
Example putObjectBatch_put_calls_repeat :
  put_calls
    (st_trace (putObjectBatch mem_DB mem_VectorIndex mem_bolt_retrying
                 mem_uuid_Parse mem_uuid_MarshalBinary mem_putObjectInTx
                 mem_vectorIndex_Add reverse id context_Background
                 (mem_objects 2 5) [] []))
  = [mem_object 5 0; mem_object 5 1; mem_object 5 0; mem_object 5 1].
Proof. vm_compute. reflexivity. Qed.

(** In the batch of thirty-two objects whose last chunk aborts, the
    chunk of indices 0 to 29 commits: index 5 gets its [Add] call with
    the [docID] stored for "F". *)
Lemma putObjectBatch_committed_indexed_witness :
  is_Some (st_docIDs (mem_putObjectBatch context_Background
                        (mem_objects 32 31) [] []) !! "F")
  /\ exists r,
       EvVectorIndexAdd 5
         (default 0%Z
            (st_docIDs (mem_putObjectBatch context_Background
                          (mem_objects 32 31) [] []) !! "F"))
         [5%Z; 1%Z] r
         ∈ st_trace (mem_putObjectBatch context_Background
                       (mem_objects 32 31) [] []).
Proof.
  exact (proj1 (proj2 (proj2
           (putObjectBatch_committed_indexed mem_DB mem_VectorIndex mem_bolt
              mem_uuid_Parse mem_uuid_MarshalBinary mem_putObjectInTx
              mem_vectorIndex_Add reverse id mem_reverse_perm mem_id_perm
              context_Background (mem_objects 32 31) [] [])))
           [(30, [mem_object 31 30; mem_object 31 31])]
           (0, mem_objects 30 31) [] 5 (mem_object 31 5)
           eq_refl eq_refl eq_refl eq_refl eq_refl).
Defined.

Lemma extendSchemaWithAPILinks_preserves_witness :
  exists refs',
    extendSchemaWithAPILinks mem_crossref_Parse mem_handlers
      {[ "inCountry" :=
           MultipleRef [ {| Beacon := "weaviate://localhost/things/Z";
                            Href := "" |};
                         {| Beacon := "not a beacon"; Href := "" |} ] ]}
      !! "inCountry" = Some (MultipleRef refs')
    /\ length refs' = 2
    /\ refs' !! 0 = Some {| Beacon := "weaviate://localhost/things/Z";
                            Href := "http://localhost:8080/v1/things/Z" |}
    /\ refs' !! 1 = Some {| Beacon := "not a beacon"; Href := "" |}.
Proof.
  destruct (proj2 (proj2 (extendSchemaWithAPILinks_preserves
                            mem_crossref_Parse mem_handlers
                            {[ "inCountry" :=
                                 MultipleRef
                                   [ {| Beacon := "weaviate://localhost/things/Z";
                                        Href := "" |};
                                     {| Beacon := "not a beacon"; Href := "" |} ] ]}
                            "inCountry"))
              [ {| Beacon := "weaviate://localhost/things/Z"; Href := "" |};
                {| Beacon := "not a beacon"; Href := "" |} ])
    as (refs' & Hlookup & Hlen & _ & Hrefs); [reflexivity|].
  exists refs'. split; [exact Hlookup|]. split; [exact Hlen|]. split.
  - exact (Hrefs 0 _ eq_refl).
  - exact (Hrefs 1 _ eq_refl).
Defined.

Lemma list_response_items_witness :
  exists r things,
    resp_payload (getThings mem_crossref_Parse mem_deprecations_ByID
                    mem_handlers context_Background mem_principal None
                    (Some "vector") (Some true)) = ThingsListPayload r
    /\ thing_ID <$> tl_Things r = thing_ID <$> things
    /\ tl_Deprecations r = [mem_deprecations_ByID "rest-meta-prop"].
Proof.
  edestruct (list_response_items mem_crossref_Parse mem_deprecations_ByID
               mem_handlers context_Background mem_principal None
               (Some "vector") (Some true))
    as (things & _ & Hids & _ & Hdeps); [reflexivity|].
  eexists _, things. split; [reflexivity|]. split; [exact Hids|exact Hdeps].
Defined.

Lemma parseIncludeParam_flags_witness :
  (parseIncludeParam (Some "vector,_classification")).1
  = {| Classification := true; RefMeta := true; Vector := true;
       NearestNeighbors := false; FeatureProjection := None;
       Interpretation := false |}.
Proof.
  exact (parseIncludeParam_flags "vector,_classification" eq_refl).
Defined.

Lemma parseIncludeParam_same_parts_witness :
  parseIncludeParam (Some "classification,vector,vector")
  = parseIncludeParam (Some "vector,classification").
Proof.
  apply parseIncludeParam_same_parts; [|reflexivity].
  intros prop.
  change (strings_Split "vector,classification" ",")
    with ["vector"; "classification"].
  change (strings_Split "classification,vector,vector" ",")
    with ["classification"; "vector"; "vector"].
  rewrite !elem_of_cons, !elem_of_nil. tauto.
Defined.

(** Three actions, the first a nil pointer and the third without a
    class: the error is named after index 2. *)
Lemma ActionsListResponse_Validate_first_action_witness :
  validateActions mem_Validation mem_ValidateName mem_Action_Validate
    {| m_Actions := [None; Some (mem_action "A");
                     Some {| action_ID := "B"; action_Class := "";
                             action_Schema := SchemaNilMap |}];
       m_Deprecations := []; m_TotalResults := 3 |}
  = Some (errors_Validation ("actions.2 class is required" : mem_Validation)).
Proof.
  apply (proj1 (ActionsListResponse_Validate_first_action mem_Validation
                  mem_ValidateName mem_Action_Validate mem_Deprecation_Validate
                  {| m_Actions := [None; Some (mem_action "A");
                                   Some {| action_ID := "B"; action_Class := "";
                                           action_Schema := SchemaNilMap |}];
                     m_Deprecations := []; m_TotalResults := 3 |}
                  [None; Some (mem_action "A")] []
                  {| action_ID := "B"; action_Class := "";
                     action_Schema := SchemaNilMap |}
                  (errors_Validation ("class is required" : mem_Validation))
                  eq_refl
                  ltac:(repeat constructor)
                  eq_refl)).
Defined.

Lemma ActionsListResponse_Validate_ok_witness :
  ActionsListResponse_Validate mem_Validation mem_ValidateName
    mem_Action_Validate mem_Deprecation_Validate
    {| m_Actions := [None; Some (mem_action "A")];
       m_Deprecations := [Some (mem_deprecations_ByID "rest-meta-prop")];
       m_TotalResults := 2 |} = None.
Proof.
  apply (proj2 (ActionsListResponse_Validate_ok mem_Validation
                  mem_ValidateName mem_Action_Validate
                  mem_Deprecation_Validate _)).
  split; repeat constructor.
Defined.

(** The contextionary refuses two connections and then reports 0.4.21:
    three requests, and startup goes on. *)
Lemma validateContextionaryVersion_first_answer_witness :
  validateContextionaryVersion mem_contextionary_Version
    mem_extractVersionAndCompare 5
  = Some (3, version_valid).
Proof.
  apply (validateContextionaryVersion_first_answer mem_contextionary_Version
           mem_extractVersionAndCompare 2 5 "0.4.21").
  - intros [|[|j]] Hj; [by eexists..|lia].
  - reflexivity.
  - lia.
Defined.

Lemma validateContextionaryVersion_unreachable_witness :
  validateContextionaryVersion
    (fun _ => Err (errorString "connection refused"))
    mem_extractVersionAndCompare 100 = None.
Proof.
  apply validateContextionaryVersion_unreachable.
  intros j. by eexists.
Defined.

Lemma booleanPropertyFields_fields_witness :
  is_Some (object_Fields
             (booleanPropertyFields "type" "count" "total true"
                "percentage true" "total false" "percentage false" "object"
                "City" "isCapital") !! "totalFalse").
Proof.
  apply (proj1 (booleanPropertyFields_fields "type" "count" "total true"
                  "percentage true" "total false" "percentage false" "object"
                  "City" "isCapital")).
  unfold boolean_field_keys. rewrite !elem_of_cons. tauto.
Defined.

(** Class "CityIs" with property "capital" and class "City" with
    property "Iscapital" get the same object. *)
Lemma booleanPropertyFields_concatenation_witness :
  booleanPropertyFields "type" "count" "total true" "percentage true"
    "total false" "percentage false" "object" "CityIs" "capital"
  = booleanPropertyFields "type" "count" "total true" "percentage true"
      "total false" "percentage false" "object" "City" "Iscapital".
Proof.
  exact (booleanPropertyFields_concatenation "type" "count" "total true"
           "percentage true" "total false" "percentage false" "object"
           "CityIs" "capital" "City" "Iscapital" eq_refl).
Defined.

Lemma stripAll_blanks_only_witness :
  stripAll (".union(" ++ String "010" (String "009" " ") ++ "union(")%string
  = stripAll (".union(" ++ "union(")%string
  /\ stripAll ".union(union(" = ".union(union(".
Proof.
  destruct (stripAll_blanks_only ".union(" "union("
              (String "010" (String "009" " "))) as (_ & _ & _ & _ & Hblank).
  destruct (stripAll_blanks_only ".union(union(" "" "") as (_ & Hid & _).
  split; [exact (Hblank eq_refl)|exact (Hid eq_refl)].
Defined.
